(** * update_results: the status-page scraper and its CSV ledger

    A shallow embedding of [update_results.py] and the properties of its
    text extractor, sentence locator, date parsers, ledger writer and
    orchestrator.

    - Python strings are sequences of Unicode code points; they are
      modelled as lists of code points ([N]).  String literals of the
      program are written as Rocq strings and decoded from UTF-8 by [u].
    - The standard library is modelled as far as the program uses it, with
      the behaviour of CPython 3.11: the fragment of [re] the four patterns
      need (a backtracking matcher), [csv] with the [excel] dialect and its
      field size limit, [datetime.date] and [calendar.monthrange].
    - Exceptions are values: a computation returns [Ok v] or [Raise e].
    - The CSV file is the store: absent, or present with its text.  The
      program reads and writes the file as UTF-8; the text of a store is
      what its bytes decode to, and a write that cannot be encoded raises.
    - The network fetch and [html.parser.HTMLParser] are collaborators: the
      fetch is a function that returns the page or raises, and a document
      is given to the extractor as the sequence of handler calls the parser
      makes for it. *)

From Stdlib Require Import String Ascii.
From Stdlib Require Import List NArith PeanoNat Lia Bool.
Import ListNotations.

Set Implicit Arguments.
Local Open Scope N_scope.

(** ** Text *)

Definition char := N.
Definition str := list char.

Fixpoint bytes_of (s : string) : list N :=
  match s with
  | EmptyString => []
  | String a s' => N_of_ascii a :: bytes_of s'
  end.

(** UTF-8 decoding of well-formed input (the source file's own encoding). *)
Fixpoint utf8_decode (bs : list N) : str :=
  match bs with
  | [] => []
  | b1 :: r1 =>
    if b1 <? 0x80 then b1 :: utf8_decode r1
    else match r1 with
    | [] => [b1]
    | b2 :: r2 =>
      if b1 <? 0xE0 then ((b1 - 0xC0) * 64 + (b2 - 0x80)) :: utf8_decode r2
      else match r2 with
      | [] => [b1; b2]
      | b3 :: r3 =>
        if b1 <? 0xF0
        then ((b1 - 0xE0) * 4096 + (b2 - 0x80) * 64 + (b3 - 0x80)) :: utf8_decode r3
        else match r3 with
        | [] => [b1; b2; b3]
        | b4 :: r4 =>
          ((b1 - 0xF0) * 262144 + (b2 - 0x80) * 4096 + (b3 - 0x80) * 64 + (b4 - 0x80))
            :: utf8_decode r4
        end
      end
    end
  end.

Definition u (s : string) : str := utf8_decode (bytes_of s).

Fixpoint str_eqb (a b : str) : bool :=
  match a, b with
  | [], [] => true
  | x :: a', y :: b' => (x =? y) && str_eqb a' b'
  | _, _ => false
  end.

(** [str.isspace] on one character, which is also the [\s] class of [re]
    on text patterns (Unicode 14, as shipped with CPython 3.11). *)
Definition isspace (c : char) : bool :=
  ((0x09 <=? c) && (c <=? 0x0D)) || ((0x1C <=? c) && (c <=? 0x20))
  || (c =? 0x85) || (c =? 0xA0) || (c =? 0x1680)
  || ((0x2000 <=? c) && (c <=? 0x200A))
  || (c =? 0x2028) || (c =? 0x2029) || (c =? 0x202F) || (c =? 0x205F)
  || (c =? 0x3000).

(** First code point of every run of ten decimal digits (category Nd,
    Unicode 14): the characters [\d] matches and [int] reads. *)
Definition decimal_zeros : list char :=
  [0x30; 0x660; 0x6F0; 0x7C0; 0x966; 0x9E6; 0xA66; 0xAE6; 0xB66; 0xBE6;
   0xC66; 0xCE6; 0xD66; 0xDE6; 0xE50; 0xED0; 0xF20; 0x1040; 0x1090; 0x17E0;
   0x1810; 0x1946; 0x19D0; 0x1A80; 0x1A90; 0x1B50; 0x1BB0; 0x1C40; 0x1C50;
   0xA620; 0xA8D0; 0xA900; 0xA9D0; 0xA9F0; 0xAA50; 0xABF0; 0xFF10; 0x104A0;
   0x10D30; 0x11066; 0x110F0; 0x11136; 0x111D0; 0x112F0; 0x11450; 0x114D0;
   0x11650; 0x116C0; 0x11730; 0x118E0; 0x11950; 0x11C50; 0x11D50; 0x11DA0;
   0x16A60; 0x16AC0; 0x16B50; 0x1D7CE; 0x1D7D8; 0x1D7E2; 0x1D7EC; 0x1D7F6;
   0x1E140; 0x1E2F0; 0x1E950; 0x1FBF0].

(** The decimal value of a character, when it is a decimal digit. *)
Definition decimal (c : char) : option N :=
  match find (fun z => (z <=? c) && (c <? z + 10)) decimal_zeros with
  | Some z => Some (c - z)
  | None => None
  end.

Definition isdecimal (c : char) : bool :=
  match decimal c with Some _ => true | None => false end.

(** [_sre.unicode_tolower], the one-to-one lower-case mapping [re] uses
    under IGNORECASE.  The table is exact on U+0000..U+00FF and on every
    code point whose lower-case form lies in that range (U+0130, U+0178,
    U+1E9E, U+212A, U+212B); on the other code points, whose lower-case
    form is outside Latin-1 and therefore differs from every pattern
    character of this program, it is left as the identity. *)
Definition unicode_tolower (c : char) : char :=
  if (0x41 <=? c) && (c <=? 0x5A) then c + 32
  else if (0xC0 <=? c) && (c <=? 0xDE) && negb (c =? 0xD7) then c + 32
  else if c =? 0x130 then 0x69
  else if c =? 0x178 then 0xFF
  else if c =? 0x1E9E then 0xDF
  else if c =? 0x212A then 0x6B
  else if c =? 0x212B then 0xE5
  else c.

(** [_sre.unicode_iscased]; only ever applied to pattern characters, and
    exact on U+0000..U+00FF where they all live. *)
Definition unicode_iscased (c : char) : bool :=
  ((0x41 <=? c) && (c <=? 0x5A)) || ((0x61 <=? c) && (c <=? 0x7A))
  || (c =? 0xB5)
  || ((0xC0 <=? c) && (c <=? 0xFF) && negb (c =? 0xD7) && negb (c =? 0xF7)).

(** [re._casefix._EXTRA_CASES]: lower-case characters that share their
    upper-case form with another lower-case character (entries with a key
    in Latin-1, and their mirrors). *)
Definition extra_cases (lo : char) : list char :=
  if lo =? 0x69 then [0x131]
  else if lo =? 0x73 then [0x17F]
  else if lo =? 0xB5 then [0x3BC]
  else if lo =? 0x131 then [0x69]
  else if lo =? 0x17F then [0x73]
  else if lo =? 0x3BC then [0xB5]
  else [].

(** [str.lower] on one character (the full mapping, which may give two
    characters).  Exact on U+0000..U+00FF and on the code points beyond
    that the letter class of the patterns below admits. *)
Definition lower_char (c : char) : str :=
  if c =? 0x130 then [0x69; 0x307] else [unicode_tolower c].

Definition lower (s : str) : str := flat_map lower_char s.

Fixpoint lstrip (s : str) : str :=
  match s with
  | c :: s' => if isspace c then lstrip s' else s
  | [] => []
  end.

Definition rstrip (s : str) : str := rev (lstrip (rev s)).

Definition strip (s : str) : str := rstrip (lstrip s).

(** [" ".join(parts)] *)
Fixpoint join (sep : str) (parts : list str) : str :=
  match parts with
  | [] => []
  | [p] => p
  | p :: rest => p ++ sep ++ join sep rest
  end.

(** [s.split()]: the maximal runs of non-whitespace characters.  [cur] is
    the run being read, in reverse. *)
Fixpoint split_aux (cur : str) (s : str) : list str :=
  match s with
  | [] => match cur with [] => [] | _ => [rev cur] end
  | c :: s' =>
    if isspace c
    then match cur with [] => split_aux [] s' | _ => rev cur :: split_aux [] s' end
    else split_aux (c :: cur) s'
  end.

Definition split (s : str) : list str := split_aux [] s.

(** [int(s)] for a string of decimal digits. *)
Definition int (s : str) : N :=
  fold_left (fun acc c => acc * 10 + match decimal c with Some d => d | None => 0 end) s 0.

(** ** Regular expressions

    The fragment of [re] syntax the program uses, and a backtracking
    matcher for it.  [a+] is [a a*] and [a{n}] is [n] copies of [a]. *)

Inductive atom : Type :=
| Literal (c : char)
| In_ (negate : bool) (items : list (char * char))
| Category_space
| Category_digit.

Inductive regex : Type :=
| Empty
| Atom (a : atom)
| Cat (r1 r2 : regex)
| Branch (r1 r2 : regex)
| Star (a : atom)
| Optional (r : regex)
| Subpattern (group : nat) (r : regex)
| Scoped (ignorecase : bool) (r : regex).   (* [(?i:r)] and [(?-i:r)] *)

Definition range_list (lo hi : char) : list char :=
  map N.of_nat (seq (N.to_nat lo) (N.to_nat (hi + 1 - lo))).

Definition set_members (items : list (char * char)) : list char :=
  flat_map (fun '(lo, hi) => range_list lo hi) items.

(** The character map of a set compiled under IGNORECASE: the lower-case
    forms of the members, with their extra cases. *)
Definition folded_members (items : list (char * char)) : list char :=
  flat_map (fun i => let lo := unicode_tolower i in lo :: extra_cases lo)
           (set_members items).

Definition mem (c : char) (l : list char) : bool := existsb (N.eqb c) l.

Definition in_ranges (items : list (char * char)) (c : char) : bool :=
  existsb (fun '(lo, hi) => (lo <=? c) && (c <=? hi)) items.

(** Does character [c] satisfy atom [a]?  [ic] is the IGNORECASE flag. *)
Definition atom_ok (ic : bool) (a : atom) (c : char) : bool :=
  match a with
  | Literal p =>
    if ic && unicode_iscased p
    then let lo := unicode_tolower p in mem (unicode_tolower c) (lo :: extra_cases lo)
    else c =? p
  | In_ negate items =>
    xorb negate
      (if ic && existsb unicode_iscased (set_members items)
       then mem (unicode_tolower c) (folded_members items)
       else in_ranges items c)
  | Category_space => isspace c
  | Category_digit => isdecimal c
  end.

(** Greedy repetition of one atom: the suffixes left after taking the
    longest run, then one character fewer, and so on. *)
Fixpoint star (p : char -> bool) (s : str) : list str :=
  match s with
  | c :: s' => if p c then star p s' ++ [s] else [s]
  | [] => [[]]
  end.

Definition groups := list (nat * str).

Definition consumed (s rest : str) : str :=
  firstn (length s - length rest) s.

(** All the ways [r] matches a prefix of [s], in the order the
    backtracking matcher tries them: each is the unread rest and the
    groups captured so far.  The head is the match [re] reports. *)
Fixpoint match_re (ic : bool) (r : regex) (s : str) (g : groups)
  : list (str * groups) :=
  match r with
  | Empty => [(s, g)]
  | Atom a =>
    match s with
    | c :: s' => if atom_ok ic a c then [(s', g)] else []
    | [] => []
    end
  | Cat r1 r2 =>
    flat_map (fun x => match_re ic r2 (fst x) (snd x)) (match_re ic r1 s g)
  | Branch r1 r2 => match_re ic r1 s g ++ match_re ic r2 s g
  | Star a => map (fun s' => (s', g)) (star (atom_ok ic a) s)
  | Optional r1 => match_re ic r1 s g ++ [(s, g)]
  | Subpattern i r1 =>
    map (fun x => (fst x, (i, consumed s (fst x)) :: snd x)) (match_re ic r1 s g)
  | Scoped ic' r1 => match_re ic' r1 s g
  end.

Record match_obj : Type := {
  m_start : nat;          (* position of the match in the searched string *)
  m_group0 : str;         (* [match.group(0)] *)
  m_groups : groups
}.

Fixpoint group (g : groups) (i : nat) : option str :=
  match g with
  | [] => None
  | (j, w) :: g' => if Nat.eqb i j then Some w else group g' i
  end.

(** [pattern.search(s)]: the match at the leftmost position that has one. *)
Fixpoint search_from (ic : bool) (r : regex) (pos : nat) (s : str)
  : option match_obj :=
  match match_re ic r s [] with
  | (rest, g) :: _ =>
    Some {| m_start := pos; m_group0 := consumed s rest; m_groups := g |}
  | [] =>
    match s with
    | [] => None
    | _ :: s' => search_from ic r (S pos) s'
    end
  end.

Definition search (ic : bool) (r : regex) (s : str) : option match_obj :=
  search_from ic r 0 s.

(** Pattern syntax helpers. *)
Definition lit (s : str) : regex :=
  fold_right (fun c r => Cat (Atom (Literal c)) r) Empty s.

Definition plus (a : atom) : regex := Cat (Atom a) (Star a).

Fixpoint times (n : nat) (a : atom) : regex :=
  match n with
  | O => Empty
  | S n' => Cat (Atom a) (times n' a)
  end.

Fixpoint cat (rs : list regex) : regex :=
  match rs with
  | [] => Empty
  | r :: rs' => Cat r (cat rs')
  end.

(** ** Exceptions and results *)

Inductive exn : Type :=
| ValueError (msg : str)
| AttributeError (msg : str)
| OtherException (msg : str).   (* whatever else the fetch may raise *)

(** [str(err)] *)
Definition exn_message (e : exn) : str :=
  match e with
  | ValueError m => m
  | AttributeError m => m
  | OtherException m => m
  end.

Inductive result (A : Type) : Type :=
| Ok (a : A)
| Raise (e : exn).

Arguments Ok {A} a.
Arguments Raise {A} e.

Definition bind {A B : Type} (c : result A) (k : A -> result B) : result B :=
  match c with
  | Ok a => k a
  | Raise e => Raise e
  end.

Notation "x <- c ;; k" := (bind c (fun x => k))
  (at level 61, c at next level, right associativity).

(** ** Dates: [datetime.date] and [calendar] *)

Record date : Type := { year : N; month : N; day : N }.

Definition isleap (y : N) : bool :=
  (y mod 4 =? 0) && (negb (y mod 100 =? 0) || (y mod 400 =? 0)).

Definition mdays : list N := [0; 31; 28; 31; 30; 31; 30; 31; 31; 30; 31; 30; 31].

Definition days_in_month (y m : N) : N :=
  nth (N.to_nat m) mdays 0 + (if (m =? 2) && isleap y then 1 else 0).

Fixpoint digits_of (fuel : nat) (n : N) (acc : str) : str :=
  match fuel with
  | O => acc
  | S fuel' =>
    let acc' := (0x30 + n mod 10) :: acc in
    if n / 10 =? 0 then acc' else digits_of fuel' (n / 10) acc'
  end.

(** [str(n)] for a non-negative integer. *)
Definition str_of_int (n : N) : str :=
  digits_of (S (N.to_nat (N.log2 n))) n [].

Definition zfill (width : nat) (s : str) : str :=
  repeat 0x30 (width - length s) ++ s.

(** [calendar.monthrange(year, month)[1]] *)
Definition monthrange_ndays (y m : N) : result N :=
  if (1 <=? m) && (m <=? 12) then Ok (days_in_month y m)
  else Raise (ValueError (u "bad month number " ++ str_of_int m ++ u "; must be 1-12")).

(** [dt.date(year, month, day)], with the range checks of the constructor. *)
Definition dt_date (y m d : N) : result date :=
  if negb ((1 <=? y) && (y <=? 9999))
  then Raise (ValueError (u "year " ++ str_of_int y ++ u " is out of range"))
  else if negb ((1 <=? m) && (m <=? 12))
  then Raise (ValueError (u "month must be in 1..12"))
  else if negb ((1 <=? d) && (d <=? days_in_month y m))
  then Raise (ValueError (u "day is out of range for month"))
  else Ok {| year := y; month := m; day := d |}.

(** [d.isoformat()] *)
Definition isoformat (d : date) : str :=
  zfill 4 (str_of_int (year d)) ++ u "-" ++ zfill 2 (str_of_int (month d))
    ++ u "-" ++ zfill 2 (str_of_int (day d)).

(** ** The tables of the program *)

Definition GERMAN_MONTHS : list (str * N) :=
  [ (u "januar", 1); (u "februar", 2); (u "märz", 3); (u "maerz", 3);
    (u "april", 4); (u "mai", 5); (u "juni", 6); (u "juli", 7);
    (u "august", 8); (u "september", 9); (u "oktober", 10);
    (u "november", 11); (u "dezember", 12) ].

(** A value of [POSITION_DAY]: a day number, or the string ["last"]. *)
Inductive day_reference : Type :=
| DayNumber (n : N)
| Last.

Definition POSITION_DAY : list (str * day_reference) :=
  [ (u "anfang", DayNumber 5); (u "mitte", DayNumber 15); (u "ende", Last) ].

(** [table.get(key)] *)
Fixpoint dict_get {V : Type} (table : list (str * V)) (key : str) : option V :=
  match table with
  | [] => None
  | (k, v) :: rest => if str_eqb key k then Some v else dict_get rest key
  end.

(** ** The patterns of the program *)

Definition dot : regex := Atom (Literal 0x2E).
Definition ws : regex := Star Category_space.
Definition dd : regex := times 2 Category_digit.
Definition dddd : regex := times 4 Category_digit.

(** [Stand:\s*(\d{2})\.(\d{2})\.(\d{4})] *)
Definition stand_pattern : regex :=
  cat [ lit (u "Stand:"); ws; Subpattern 1 dd; dot; Subpattern 2 dd; dot;
        Subpattern 3 dddd ].

(** [bis\s*(\d{2})\.(\d{2})\.(\d{4})] *)
Definition direct_pattern : regex :=
  cat [ lit (u "bis"); ws; Subpattern 1 dd; dot; Subpattern 2 dd; dot;
        Subpattern 3 dddd ].

(** [[A-Za-zÄÖÜäöüß]] *)
Definition month_letter : atom :=
  In_ false [ (0x41, 0x5A); (0x61, 0x7A); (0xC4, 0xC4); (0xD6, 0xD6);
              (0xDC, 0xDC); (0xE4, 0xE4); (0xF6, 0xF6); (0xFC, 0xFC);
              (0xDF, 0xDF) ].

(** [bis\s*(Anfang|Mitte|Ende)?\s*([A-Za-zÄÖÜäöüß]+)\s*(\d{4})],
    compiled with IGNORECASE. *)
Definition range_pattern : regex :=
  cat [ lit (u "bis"); ws;
        Optional (Subpattern 1
          (Branch (lit (u "Anfang")) (Branch (lit (u "Mitte")) (lit (u "Ende")))));
        ws; Subpattern 2 (plus month_letter); ws; Subpattern 3 dddd ].

(** [Derzeit werden Anträge mit Eingangsdatum[^()]*\(Stand:\s*\d{2}\.\d{2}\.\d{4}\)\.?],
    compiled with IGNORECASE. *)
Definition sentence_pattern : regex :=
  cat [ lit (u "Derzeit werden Anträge mit Eingangsdatum");
        Star (In_ true [ (0x28, 0x28); (0x29, 0x29) ]);
        lit (u "(Stand:"); ws; dd; dot; dd; dot; dddd; lit (u ")");
        Optional dot ].

(** ** The date parsers *)

(** [match.groups()] of a pattern with three groups. *)
Definition groups3 (m : match_obj) : option str * option str * option str :=
  (group (m_groups m) 1, group (m_groups m) 2, group (m_groups m) 3).

(** [int(x)] when [x] may be [None]. *)
Definition int_of (x : option str) : N :=
  match x with Some s => int s | None => 0 end.

Definition parse_stand_date (sentence : str) : result date :=
  match search false stand_pattern sentence with
  | None => Raise (ValueError (u "Stand date not found in sentence."))
  | Some m =>
    let '(d, mo, y) := groups3 m in
    dt_date (int_of y) (int_of mo) (int_of d)
  end.

Definition parse_target_date (sentence : str) : result date :=
  match search false direct_pattern sentence with
  | Some m =>
    let '(d, mo, y) := groups3 m in
    dt_date (int_of y) (int_of mo) (int_of d)
  | None =>
    match search true range_pattern sentence with
    | None => Raise (ValueError (u "Target date not found in sentence."))
    | Some m =>
      let '(position_raw, month_raw, year_raw) := groups3 m in
      match month_raw with
      | None => Raise (AttributeError (u "'NoneType' object has no attribute 'lower'"))
      | Some month_raw =>
        let month_key := lower month_raw in
        match dict_get GERMAN_MONTHS month_key with
        | None => Raise (ValueError (u "Unknown month name: " ++ month_raw))
        | Some month =>
          d <- match position_raw with
               | Some ((_ :: _) as position_raw) =>
                 let position := lower position_raw in
                 match dict_get POSITION_DAY position with
                 | None =>
                   Raise (ValueError (u "Unsupported position descriptor: " ++ position_raw))
                 | Some Last => monthrange_ndays (int_of year_raw) month
                 | Some (DayNumber n) => Ok n
                 end
               | _ => Ok 1   (* no descriptor: first day of the month *)
               end ;;
          dt_date (int_of year_raw) month d
        end
      end
    end
  end.

(** ** The HTML text extractor

    [HTMLParser.feed] (standard library) scans the document and calls the
    handler methods of the parser object; a document is represented by the
    sequence of handler calls it gives rise to.  The parser reports the
    text between tags, and also the body of [script] and [style]
    elements, through [handle_data]. *)

Inductive callback : Type :=
| handle_starttag (tag : str) (attrs : list (str * option str))
| handle_endtag (tag : str)
| handle_startendtag (tag : str) (attrs : list (str * option str))
| handle_data (data : str)
| handle_comment (data : str)
| handle_decl (decl : str)
| handle_pi (data : str)
| unknown_decl (data : str).

Module _PlainTextExtractor.

(** The state of the object: [self._parts]. *)
Definition t := list str.

Definition __init__ : t := [].

(** One handler call; only [handle_data] is overridden. *)
Definition dispatch (parts : t) (cb : callback) : t :=
  match cb with
  | handle_data data =>
    match strip data with
    | [] => parts
    | stripped => parts ++ [stripped]
    end
  | _ => parts
  end.

Definition feed (parts : t) (calls : list callback) : t :=
  fold_left dispatch calls parts.

Definition get_text (parts : t) : str := join (u " ") parts.

End _PlainTextExtractor.

(** The text the sentence is searched in. *)
Definition plain_text (calls : list callback) : str :=
  let parser := _PlainTextExtractor.feed _PlainTextExtractor.__init__ calls in
  join (u " ") (split (_PlainTextExtractor.get_text parser)).

(** The search and the result of [extract_status_sentence], on the text. *)
Definition locate_sentence (text : str) : result str :=
  match search true sentence_pattern text with
  | None => Raise (ValueError (u "Status sentence not found in HTML content."))
  | Some m => Ok (strip (m_group0 m))
  end.

Definition extract_status_sentence (calls : list callback) : result str :=
  locate_sentence (plain_text calls).

(** ** The ledger: [csv] writer and reader, and the store *)

Definition COMMA : char := 0x2C.
Definition QUOTE : char := 0x22.
Definition CR : char := 0x0D.
Definition LF : char := 0x0A.

(** *** [csv.writer], dialect [excel] *)

Definition needs_quotes (field : str) : bool :=
  existsb (fun c => (c =? COMMA) || (c =? QUOTE) || (c =? CR) || (c =? LF)) field.

Definition escape_field (field : str) : str :=
  flat_map (fun c => if c =? QUOTE then [QUOTE; QUOTE] else [c]) field.

Definition write_field (field : str) : str :=
  if needs_quotes field then QUOTE :: escape_field field ++ [QUOTE] else field.

(** [writer.writerow(row)]: the text written.  A record made of one empty
    field is written as a pair of quotes. *)
Definition writerow (row : list str) : str :=
  match row with
  | [[]] => [QUOTE; QUOTE]
  | _ => join [COMMA] (map write_field row)
  end ++ [CR; LF].

(** *** Iterating over a text file opened with [newline=""]: lines end
    after LF, CR LF or a lone CR, and keep their ending. *)
Fixpoint readlines_aux (cur : str) (s : str) : list str :=
  match s with
  | [] => match cur with [] => [] | _ => [rev cur] end
  | c :: s' =>
    if c =? LF then rev (c :: cur) :: readlines_aux [] s'
    else if c =? CR then
      match s' with
      | c2 :: s'' =>
        if c2 =? LF then rev (c2 :: c :: cur) :: readlines_aux [] s''
        else rev (c :: cur) :: readlines_aux [] s'
      | [] => [rev (c :: cur)]
      end
    else readlines_aux (c :: cur) s'
  end.

Definition readlines (content : str) : list str := readlines_aux [] content.

(** *** [csv.reader], dialect [excel]

    The states of the parser that can be reached without an escape
    character. *)
Inductive parser_state : Type :=
| START_RECORD
| START_FIELD
| IN_FIELD
| IN_QUOTED_FIELD
| QUOTE_IN_QUOTED_FIELD
| EAT_CRNL.

Record reader : Type := {
  state : parser_state;
  fields : list str;     (* fields of the record so far, last first *)
  field : str;           (* characters of the field so far, last first *)
  field_len : N          (* their number *)
}.

Definition parse_reset : reader :=
  {| state := START_RECORD; fields := []; field := []; field_len := 0 |}.

Definition parse_save_field (rd : reader) : reader :=
  {| state := state rd; fields := rev (field rd) :: fields rd; field := [];
     field_len := 0 |}.

(** [csv.field_size_limit()]; the program leaves the default. *)
Definition field_limit : N := 131072.

Definition field_limit_error : exn :=
  OtherException (u "field larger than field limit (131072)").

Definition parse_add_char (rd : reader) (c : char) : result reader :=
  if field_limit <=? field_len rd then Raise field_limit_error
  else Ok {| state := state rd; fields := fields rd; field := c :: field rd;
             field_len := field_len rd + 1 |}.

Definition set_state (rd : reader) (s : parser_state) : reader :=
  {| state := s; fields := fields rd; field := field rd;
     field_len := field_len rd |}.

Definition is_newline (c : char) : bool := (c =? LF) || (c =? CR).

Definition csv_error : exn :=
  OtherException (u "new-line character seen in unquoted field - do you need to open the file with newline=''?").

Definition start_field (rd : reader) (c : option char) : result reader :=
  match c with
  | None => Ok (set_state (parse_save_field rd) START_RECORD)
  | Some c =>
    if is_newline c then Ok (set_state (parse_save_field rd) EAT_CRNL)
    else if c =? QUOTE then Ok (set_state rd IN_QUOTED_FIELD)
    else if c =? COMMA then Ok (set_state (parse_save_field rd) START_FIELD)
    else rd' <- parse_add_char rd c ;; Ok (set_state rd' IN_FIELD)
  end.

(** [parse_process_char]; [None] is the end-of-line mark the reader feeds
    after the characters of each line. *)
Definition parse_process_char (rd : reader) (c : option char) : result reader :=
  match state rd with
  | START_RECORD =>
    match c with
    | None => Ok rd
    | Some c' =>
      if is_newline c' then Ok (set_state rd EAT_CRNL)
      else start_field rd c
    end
  | START_FIELD => start_field rd c
  | IN_FIELD =>
    match c with
    | None => Ok (set_state (parse_save_field rd) START_RECORD)
    | Some c =>
      if is_newline c then Ok (set_state (parse_save_field rd) EAT_CRNL)
      else if c =? COMMA then Ok (set_state (parse_save_field rd) START_FIELD)
      else parse_add_char rd c
    end
  | IN_QUOTED_FIELD =>
    match c with
    | None => Ok rd
    | Some c =>
      if c =? QUOTE then Ok (set_state rd QUOTE_IN_QUOTED_FIELD)
      else parse_add_char rd c
    end
  | QUOTE_IN_QUOTED_FIELD =>
    match c with
    | None => Ok (set_state (parse_save_field rd) START_RECORD)
    | Some c =>
      if c =? QUOTE
      then rd' <- parse_add_char rd c ;; Ok (set_state rd' IN_QUOTED_FIELD)
      else if c =? COMMA then Ok (set_state (parse_save_field rd) START_FIELD)
      else if is_newline c then Ok (set_state (parse_save_field rd) EAT_CRNL)
      else rd' <- parse_add_char rd c ;; Ok (set_state rd' IN_FIELD)
    end
  | EAT_CRNL =>
    match c with
    | None => Ok (set_state rd START_RECORD)
    | Some c => if is_newline c then Ok rd else Raise csv_error
    end
  end.

Fixpoint process_line (rd : reader) (line : str) : result reader :=
  match line with
  | [] => parse_process_char rd None
  | c :: line' =>
    rd' <- parse_process_char rd (Some c) ;;
    process_line rd' line'
  end.

Definition state_eqb (a b : parser_state) : bool :=
  match a, b with
  | START_RECORD, START_RECORD | START_FIELD, START_FIELD | IN_FIELD, IN_FIELD
  | IN_QUOTED_FIELD, IN_QUOTED_FIELD
  | QUOTE_IN_QUOTED_FIELD, QUOTE_IN_QUOTED_FIELD | EAT_CRNL, EAT_CRNL => true
  | _, _ => false
  end.

(** The records the reader yields: it consumes lines until the parser is
    back in [START_RECORD]; at the end of the input an unfinished record
    is yielded as it stands. *)
Fixpoint read_records (rd : reader) (lines : list str) : result (list (list str)) :=
  match lines with
  | [] =>
    match field rd with
    | [] => if state_eqb (state rd) IN_QUOTED_FIELD
            then Ok [rev (fields (parse_save_field rd))] else Ok []
    | _ => Ok [rev (fields (parse_save_field rd))]
    end
  | line :: rest =>
    rd' <- process_line rd line ;;
    if state_eqb (state rd') START_RECORD
    then rows <- read_records parse_reset rest ;; Ok (rev (fields rd') :: rows)
    else read_records rd' rest
  end.

Definition csv_reader (content : str) : result (list (list str)) :=
  read_records parse_reset (readlines content).

(** *** The store: the file at the CSV path, absent or with its text. *)
Definition store := option str.

Definition HEADER : list str :=
  [u "retrieved_at"; u "stand_date"; u "status_text"; u "target_date"].

Fixpoint row_eqb (a b : list str) : bool :=
  match a, b with
  | [], [] => true
  | x :: a', y :: b' => str_eqb x y && row_eqb a' b'
  | _, _ => false
  end.

(** The body of the loop of [read_last_row]. *)
Definition keep_last (last_row : option (list str)) (row : list str)
  : option (list str) :=
  match row with
  | [] => last_row
  | first :: _ => if str_eqb first (u "retrieved_at") then last_row else Some row
  end.

Definition read_last_row (path : store) : result (option (list str)) :=
  match path with
  | None => Ok None
  | Some content =>
    rows <- csv_reader content ;;
    Ok (fold_left keep_last rows None)
  end.

(** Writing to a file opened with [encoding="utf-8"]: the text of each
    [write] is encoded at once.  A surrogate code point cannot be encoded;
    the codec raises [UnicodeEncodeError], a [ValueError], for the first run
    of surrogates, and nothing of the text is written. *)
Definition is_surrogate (c : char) : bool := (0xD800 <=? c) && (c <=? 0xDFFF).

Definition hex_digit (d : N) : char := if d <? 10 then 0x30 + d else 0x57 + d.

(** The character as the message shows it: a backslash, [u] and four
    hexadecimal digits. *)
Definition escape_char (c : char) : str :=
  [0x5C; 0x75]
    ++ map hex_digit [c / 4096 mod 16; c / 256 mod 16; c / 16 mod 16; c mod 16].

(** The number of surrogates at the head of the text. *)
Fixpoint surrogate_run (s : str) : N :=
  match s with
  | c :: s' => if is_surrogate c then 1 + surrogate_run s' else 0
  | [] => 0
  end.

Fixpoint encode_error (pos : N) (s : str) : option exn :=
  match s with
  | [] => None
  | c :: s' =>
    if is_surrogate c
    then
      Some (ValueError
              (match surrogate_run s' with
               | 0 =>
                 u "'utf-8' codec can't encode character '" ++ escape_char c
                   ++ u "' in position " ++ str_of_int pos
                   ++ u ": surrogates not allowed"
               | n =>
                 u "'utf-8' codec can't encode characters in position "
                   ++ str_of_int pos ++ u "-" ++ str_of_int (pos + n)
                   ++ u ": surrogates not allowed"
               end))
    else encode_error (pos + 1) s'
  end.

(** [handle.write(text)]: the text of the file afterwards. *)
Definition file_write (content text : str) : result str :=
  match encode_error 0 text with
  | Some e => Raise e
  | None => Ok (content ++ text)
  end.

(** [append_row_if_changed]: the returned flag, or the exception raised,
    and the store afterwards.  The writer passes each row to [write] as one
    line; when the line of [row] cannot be encoded, the header line written
    before it stays in the file. *)
Definition append_row_if_changed (path : store) (row : list str)
  : result bool * store :=
  match read_last_row path with
  | Raise e => (Raise e, path)
  | Ok last_row =>
    if match last_row with Some l => row_eqb l row | None => false end
    then (Ok false, path)
    else
      (* opening the file for appending creates it *)
      let content := match path with Some c => c | None => [] end in
      match (match content with
             | [] => file_write content (writerow HEADER)  (* new, or of size 0 *)
             | _ => Ok content
             end) with
      | Raise e => (Raise e, Some content)
      | Ok content1 =>
        match file_write content1 (writerow row) with
        | Raise e => (Raise e, Some content1)
        | Ok content2 => (Ok true, Some content2)
        end
      end
  end.

(** ** The orchestrator *)

Section Orchestrator.

(** The collaborators: the fetch ([fetch_html], which returns the decoded
    text of the page or raises) and the standard HTML parser. *)
Variable fetch_html : str -> result str.
Variable html_parser : str -> list callback.

Definition collect_status (url : str) : result (str * date * date) :=
  html <- fetch_html url ;;
  sentence <- extract_status_sentence (html_parser html) ;;
  stand_date <- parse_stand_date sentence ;;
  target_date <- parse_target_date sentence ;;
  Ok (sentence, stand_date, target_date).

(** What a run leaves behind. *)
Record run : Type := {
  exit_status : result N;     (* the value returned, or the exception that escapes *)
  stdout : list str;          (* one entry for each [print] *)
  stderr : list str;
  csv_after : store
}.

Definition main (url csv_path : str) (today : date) (csv : store) : run :=
  match collect_status url with
  | Raise err =>
    {| exit_status := Ok 1; stdout := [];
       stderr := [u "error: " ++ exn_message err]; csv_after := csv |}
  | Ok (sentence, stand_date, target_date) =>
    let row := [isoformat today; isoformat stand_date; sentence;
                isoformat target_date] in
    (* outside the [try]: what the call raises escapes *)
    match append_row_if_changed csv row with
    | (Raise e, csv') =>
      {| exit_status := Raise e; stdout := []; stderr := []; csv_after := csv' |}
    | (Ok true, csv') =>
      {| exit_status := Ok 0;
         stdout := [u "Appended new row for Stand " ++ isoformat stand_date
                      ++ u " to " ++ csv_path];
         stderr := []; csv_after := csv' |}
    | (Ok false, csv') =>
      {| exit_status := Ok 0;
         stdout := [u "No change detected; CSV not modified."];
         stderr := []; csv_after := csv' |}
    end
  end.

End Orchestrator.

(** * Properties *)

(** ** Equality tests *)

Lemma str_eqb_eq (a b : str) : str_eqb a b = true <-> a = b.
Proof.
  revert b; induction a as [|x a IH]; intros [|y b]; simpl; split;
    try congruence; try reflexivity.
  - intros H. apply andb_true_iff in H as [Hx Hab].
    apply N.eqb_eq in Hx. apply IH in Hab. congruence.
  - intros H. injection H as -> ->. rewrite N.eqb_refl. simpl. now apply IH.
Qed.

Lemma str_eqb_refl (a : str) : str_eqb a a = true.
Proof. now apply str_eqb_eq. Qed.

Lemma str_eqb_neq (a b : str) : str_eqb a b = false <-> a <> b.
Proof.
  split.
  - intros H E. apply str_eqb_eq in E. congruence.
  - intros H. destruct (str_eqb a b) eqn:E; [|reflexivity].
    apply str_eqb_eq in E. contradiction.
Qed.

Lemma row_eqb_eq (a b : list str) : row_eqb a b = true <-> a = b.
Proof.
  revert b; induction a as [|x a IH]; intros [|y b]; simpl; split;
    try congruence; try reflexivity.
  - intros H. apply andb_true_iff in H as [Hx Hab].
    apply str_eqb_eq in Hx. apply IH in Hab. congruence.
  - intros H. injection H as -> ->. rewrite str_eqb_refl. simpl. now apply IH.
Qed.

Lemma row_eqb_neq (a b : list str) : row_eqb a b = false <-> a <> b.
Proof.
  split.
  - intros H E. apply row_eqb_eq in E. congruence.
  - intros H. destruct (row_eqb a b) eqn:E; [|reflexivity].
    apply row_eqb_eq in E. contradiction.
Qed.

(** ** What a pattern matches *)

Inductive Matches : bool -> regex -> str -> Prop :=
| M_Empty ic : Matches ic Empty []
| M_Atom ic a c : atom_ok ic a c = true -> Matches ic (Atom a) [c]
| M_Cat ic r1 r2 w1 w2 :
    Matches ic r1 w1 -> Matches ic r2 w2 -> Matches ic (Cat r1 r2) (w1 ++ w2)
| M_Left ic r1 r2 w : Matches ic r1 w -> Matches ic (Branch r1 r2) w
| M_Right ic r1 r2 w : Matches ic r2 w -> Matches ic (Branch r1 r2) w
| M_Star ic a w : forallb (atom_ok ic a) w = true -> Matches ic (Star a) w
| M_Skip ic r : Matches ic (Optional r) []
| M_Take ic r w : Matches ic r w -> Matches ic (Optional r) w
| M_Sub ic i r w : Matches ic r w -> Matches ic (Subpattern i r) w
| M_Scoped ic ic' r w : Matches ic' r w -> Matches ic (Scoped ic' r) w.

Lemma star_sound (p : char -> bool) (s rest : str) :
  In rest (star p s) -> exists w, s = w ++ rest /\ forallb p w = true.
Proof.
  induction s as [|c s IH]; simpl.
  - intros [<- | []]. now exists [].
  - destruct (p c) eqn:Ep.
    + intros H. apply in_app_or in H as [H | [<- | []]].
      * destruct (IH H) as (w & -> & Hw). exists (c :: w). simpl. now rewrite Ep.
      * now exists [].
    + intros [<- | []]. now exists [].
Qed.

Lemma star_complete (p : char -> bool) (w rest : str) :
  forallb p w = true -> In rest (star p (w ++ rest)).
Proof.
  induction w as [|c w IH]; simpl.
  - intros _. destruct rest as [|c r]; simpl; [now left|].
    destruct (p c); [apply in_or_app; right|]; now left.
  - intros H. apply andb_true_iff in H as [-> H]. apply in_or_app. left. auto.
Qed.

Lemma match_re_sound (r : regex) :
  forall ic s g rest g',
    In (rest, g') (match_re ic r s g) -> exists w, s = w ++ rest /\ Matches ic r w.
Proof.
  induction r as [|a|r1 IH1 r2 IH2|r1 IH1 r2 IH2|a|r IH|i r IH|ic' r IH];
    intros ic s g rest g'; simpl.
  - intros [[= <- <-] | []]. exists []. split; [reflexivity|constructor].
  - destruct s as [|c s]; [intros []|]. destruct (atom_ok ic a c) eqn:E; [|intros []].
    intros [[= <- <-] | []]. exists [c]. split; [reflexivity|now constructor].
  - intros H. apply in_flat_map in H as ([s1 g1] & H1 & H2). simpl in H2.
    destruct (IH1 _ _ _ _ _ H1) as (w1 & -> & M1).
    destruct (IH2 _ _ _ _ _ H2) as (w2 & -> & M2).
    exists (w1 ++ w2). split; [now rewrite app_assoc|now constructor].
  - intros H. apply in_app_or in H as [H | H].
    + destruct (IH1 _ _ _ _ _ H) as (w & -> & M). exists w. split; [reflexivity|now apply M_Left].
    + destruct (IH2 _ _ _ _ _ H) as (w & -> & M). exists w. split; [reflexivity|now apply M_Right].
  - intros H. apply in_map_iff in H as (s' & [= <- <-] & H).
    destruct (star_sound _ _ _ H) as (w & -> & Hw). exists w. split; [reflexivity|now constructor].
  - intros H. apply in_app_or in H as [H | [[= <- <-] | []]].
    + destruct (IH _ _ _ _ _ H) as (w & -> & M). exists w. split; [reflexivity|now apply M_Take].
    + exists []. split; [reflexivity|constructor].
  - intros H. apply in_map_iff in H as ([s1 g1] & [= <- <-] & H).
    destruct (IH _ _ _ _ _ H) as (w & -> & M). exists w. split; [reflexivity|now constructor].
  - intros H. destruct (IH _ _ _ _ _ H) as (w & -> & M). exists w.
    split; [reflexivity|now constructor].
Qed.

Lemma match_re_complete ic r w :
  Matches ic r w ->
  forall rest g, exists g', In (rest, g') (match_re ic r (w ++ rest) g).
Proof.
  induction 1 as [ic|ic a c Ha|ic r1 r2 w1 w2 _ IH1 _ IH2|ic r1 r2 w _ IH
                 |ic r1 r2 w _ IH|ic a w Hw|ic r|ic r w _ IH|ic i r w _ IH
                 |ic ic' r w _ IH]; intros rest g; simpl.
  - eexists. left. reflexivity.
  - rewrite Ha. eexists. left. reflexivity.
  - destruct (IH1 (w2 ++ rest) g) as [g1 H1]. destruct (IH2 rest g1) as [g2 H2].
    exists g2. rewrite <- app_assoc. apply in_flat_map. exists (w2 ++ rest, g1). auto.
  - destruct (IH rest g) as [g' H]. exists g'. apply in_or_app. now left.
  - destruct (IH rest g) as [g' H]. exists g'. apply in_or_app. now right.
  - exists g. apply in_map_iff. exists rest. split; [reflexivity|].
    now apply star_complete.
  - exists g. apply in_or_app. right. now left.
  - destruct (IH rest g) as [g' H]. exists g'. apply in_or_app. now left.
  - destruct (IH rest g) as [g' H]. eexists. apply in_map_iff.
    exists (rest, g'). split; [reflexivity|assumption].
  - apply IH.
Qed.

Lemma consumed_app (w rest : str) : consumed (w ++ rest) rest = w.
Proof.
  unfold consumed. rewrite length_app.
  replace (length w + length rest - length rest)%nat with (length w) by lia.
  rewrite firstn_app, firstn_all. replace (length w - length w)%nat with 0%nat by lia.
  simpl. apply app_nil_r.
Qed.

(** ** [search] finds the leftmost match *)

Definition occurs_at (ic : bool) (r : regex) (s : str) (k : nat) : Prop :=
  exists pre w post, s = pre ++ w ++ post /\ length pre = k /\ Matches ic r w.

Lemma match_re_nil ic r s :
  match_re ic r s [] = [] -> forall w post, s = w ++ post -> ~ Matches ic r w.
Proof.
  intros H w post -> M. destruct (match_re_complete M post []) as [g' Hin].
  rewrite H in Hin. destruct Hin.
Qed.

Lemma search_from_none ic r :
  forall s pos, search_from ic r pos s = None ->
  forall k, ~ occurs_at ic r s k.
Proof.
  induction s as [|c s IH]; intros pos H k (pre & w & post & E & Hk & M).
  - simpl in H. destruct (match_re ic r [] []) as [|[rest g] l] eqn:Em; [|discriminate].
    destruct pre; [|discriminate]. simpl in E.
    eapply match_re_nil; eassumption.
  - simpl in H. destruct (match_re ic r (c :: s) []) as [|[rest g] l] eqn:Em; [|discriminate].
    destruct pre as [|c' pre].
    + simpl in E. eapply match_re_nil; eassumption.
    + simpl in E. injection E as _ E.
      apply (IH _ H (length pre)). exists pre, w, post. auto.
Qed.

Lemma match_head ic r s rest g l :
  match_re ic r s [] = (rest, g) :: l ->
  s = consumed s rest ++ rest /\ Matches ic r (consumed s rest) /\
  In (rest, g) (match_re ic r s []).
Proof.
  intros Em.
  assert (Hin : In (rest, g) (match_re ic r s [])) by (rewrite Em; now left).
  destruct (match_re_sound _ _ _ _ _ _ Hin) as (w & E & M).
  subst s. rewrite consumed_app. auto.
Qed.

Lemma search_from_some ic r :
  forall s pos m, search_from ic r pos s = Some m ->
  exists pre post,
    s = pre ++ m_group0 m ++ post /\ m_start m = (pos + length pre)%nat /\
    Matches ic r (m_group0 m) /\
    (forall k, occurs_at ic r s k -> (length pre <= k)%nat) /\
    In (post, m_groups m) (match_re ic r (m_group0 m ++ post) []).
Proof.
  induction s as [|c s IH]; intros pos m H.
  - simpl in H. destruct (match_re ic r [] []) as [|[rest g] l] eqn:Em; [discriminate|].
    injection H as <-. cbn [m_group0 m_start m_groups].
    destruct (match_head _ _ _ Em) as (E & M & Hin).
    exists [], rest. cbn [app length].
    split; [exact E|]. split; [lia|]. split; [assumption|].
    split; [intros; lia|]. rewrite <- E. exact Hin.
  - simpl in H. destruct (match_re ic r (c :: s) []) as [|[rest g] l] eqn:Em.
    + destruct (IH _ _ H) as (pre & post & E & Hs & M & Hmin & Hin).
      exists (c :: pre), post. cbn [app length]. rewrite <- E.
      split; [reflexivity|]. split; [lia|]. split; [assumption|].
      split; [|assumption].
      intros k (pre' & w' & post' & E' & Hk & M').
      destruct pre' as [|c' pre'].
      * simpl in E'. exfalso. eapply match_re_nil; eassumption.
      * simpl in E'. injection E' as _ E'. simpl in Hk.
        assert (length pre <= length pre')%nat; [|lia].
        apply Hmin. exists pre', w', post'. auto.
    + injection H as <-. cbn [m_group0 m_start m_groups].
      destruct (match_head _ _ _ Em) as (E & M & Hin).
      exists [], rest. cbn [app length].
      split; [exact E|]. split; [lia|]. split; [assumption|].
      split; [intros; lia|]. rewrite <- E. exact Hin.
Qed.

Lemma search_none ic r s :
  search ic r s = None <-> (forall k, ~ occurs_at ic r s k).
Proof.
  split.
  - apply search_from_none.
  - intros H. destruct (search ic r s) as [m|] eqn:E; [|reflexivity].
    destruct (search_from_some _ _ _ _ E) as (pre & post & Es & _ & M & _).
    exfalso. apply (H (length pre)). exists pre, (m_group0 m), post. auto.
Qed.

Lemma search_some ic r s m :
  search ic r s = Some m ->
  exists pre post,
    s = pre ++ m_group0 m ++ post /\ m_start m = length pre /\
    Matches ic r (m_group0 m) /\
    (forall k, occurs_at ic r s k -> (length pre <= k)%nat) /\
    In (post, m_groups m) (match_re ic r (m_group0 m ++ post) []).
Proof. intros H. apply search_from_some in H. exact H. Qed.

(** ** What the groups capture *)

Fixpoint subpatterns (ic : bool) (r : regex) : list (nat * (bool * regex)) :=
  match r with
  | Empty | Atom _ | Star _ => []
  | Cat r1 r2 | Branch r1 r2 => subpatterns ic r1 ++ subpatterns ic r2
  | Optional r1 => subpatterns ic r1
  | Subpattern i r1 => (i, (ic, r1)) :: subpatterns ic r1
  | Scoped ic' r1 => subpatterns ic' r1
  end.

Definition infix (w s : str) : Prop := exists pre post, s = pre ++ w ++ post.

Lemma infix_refl (w : str) : infix w w.
Proof. exists [], []. now rewrite app_nil_r. Qed.

Lemma infix_app_l (w s pre : str) : infix w s -> infix w (pre ++ s).
Proof.
  intros (p & q & ->). exists (pre ++ p), q. now rewrite <- app_assoc.
Qed.

Lemma infix_app_r (w s post : str) : infix w s -> infix w (s ++ post).
Proof.
  intros (p & q & ->). exists p, (q ++ post). now rewrite <- !app_assoc.
Qed.

Definition captured (ic : bool) (r : regex) (s : str) (i : nat) (w : str) : Prop :=
  infix w s /\
  exists ic' body, In (i, (ic', body)) (subpatterns ic r) /\ Matches ic' body w.

Lemma captured_weaken ic r r' s s' i w :
  captured ic r s i w ->
  (forall x, In x (subpatterns ic r) -> In x (subpatterns ic r')) ->
  (infix w s -> infix w s') ->
  captured ic r' s' i w.
Proof.
  intros (Hi & ic' & body & Hin & M) Hsub Hinf. split; [auto|].
  exists ic', body. auto.
Qed.

Lemma captures_sound (r : regex) :
  forall ic s g rest g',
    In (rest, g') (match_re ic r s g) ->
    forall i w, group g' i = Some w ->
                group g i = Some w \/ captured ic r s i w.
Proof.
  induction r as [|a|r1 IH1 r2 IH2|r1 IH1 r2 IH2|a|r IH|j r IH|ic' r IH];
    intros ic s g rest g' Hin i w Hg; simpl in Hin.
  - destruct Hin as [[= <- <-] | []]. now left.
  - destruct s as [|c s]; [destruct Hin|].
    destruct (atom_ok ic a c); [|destruct Hin].
    destruct Hin as [[= <- <-] | []]. now left.
  - apply in_flat_map in Hin as ([s1 g1] & H1 & H2). simpl in H2.
    destruct (match_re_sound _ _ _ _ _ _ H1) as (w1 & -> & _).
    destruct (IH2 _ _ _ _ _ H2 _ _ Hg) as [Hg1 | Hc].
    + destruct (IH1 _ _ _ _ _ H1 _ _ Hg1) as [Hg0 | Hc]; [now left|right].
      eapply captured_weaken; [exact Hc| |auto].
      intros x Hx. simpl. apply in_or_app. now left.
    + right. eapply captured_weaken; [exact Hc| |].
      * intros x Hx. simpl. apply in_or_app. now right.
      * apply infix_app_l.
  - apply in_app_or in Hin as [H | H].
    + destruct (IH1 _ _ _ _ _ H _ _ Hg) as [Hg0 | Hc]; [now left|right].
      eapply captured_weaken; [exact Hc| |auto].
      intros x Hx. simpl. apply in_or_app. now left.
    + destruct (IH2 _ _ _ _ _ H _ _ Hg) as [Hg0 | Hc]; [now left|right].
      eapply captured_weaken; [exact Hc| |auto].
      intros x Hx. simpl. apply in_or_app. now right.
  - apply in_map_iff in Hin as (s' & [= <- <-] & _). now left.
  - apply in_app_or in Hin as [H | [[= <- <-] | []]]; [|now left].
    destruct (IH _ _ _ _ _ H _ _ Hg) as [Hg0 | Hc]; [now left|right].
    eapply captured_weaken; [exact Hc|auto|auto].
  - apply in_map_iff in Hin as ([s1 g1] & [= <- <-] & H). simpl in Hg.
    destruct (match_re_sound _ _ _ _ _ _ H) as (w1 & -> & M).
    simpl fst in Hg. rewrite consumed_app in Hg.
    destruct (Nat.eqb i j) eqn:Eij.
    + injection Hg as <-. apply Nat.eqb_eq in Eij. subst j. right. split.
      * apply infix_app_r, infix_refl.
      * exists ic, r. split; [now left|assumption].
    + destruct (IH _ _ _ _ _ H _ _ Hg) as [Hg0 | Hc]; [now left|right].
      eapply captured_weaken; [exact Hc| |auto].
      intros x Hx. simpl. now right.
  - destruct (IH _ _ _ _ _ Hin _ _ Hg) as [Hg0 | Hc]; [now left|right].
    exact Hc.
Qed.

(** The groups of a match found by [search] hold parts of the searched
    text that match the bodies of the groups. *)
Lemma search_groups ic r s m i w :
  search ic r s = Some m -> group (m_groups m) i = Some w ->
  captured ic r s i w.
Proof.
  intros H Hg. destruct (search_some _ _ _ H) as (pre & post & E & _ & _ & _ & Hin).
  destruct (captures_sound _ _ _ _ _ _ Hin _ Hg) as [Hnil | Hc]; [discriminate|].
  eapply captured_weaken; [exact Hc|auto|]. rewrite E. apply infix_app_l.
Qed.

(** ** Matches of the building blocks *)

Lemma Matches_lit ic (p w : str) :
  Matches ic (lit p) w ->
  Forall2 (fun x c => atom_ok ic (Literal x) c = true) p w.
Proof.
  revert w; induction p as [|x p IH]; intros w M; simpl in M.
  - inversion M; subst. constructor.
  - inversion M as [| |? ? ? w1 w2 M1 M2| | | | | | |]; subst.
    inversion M1; subst. simpl. constructor; auto.
Qed.

Lemma lit_Matches ic (p w : str) :
  Forall2 (fun x c => atom_ok ic (Literal x) c = true) p w ->
  Matches ic (lit p) w.
Proof.
  induction 1 as [|x c p w Hx _ IH]; simpl; [constructor|].
  change (c :: w) with ([c] ++ w). constructor; [now constructor|assumption].
Qed.

Lemma Matches_times ic (n : nat) (a : atom) (w : str) :
  Matches ic (times n a) w ->
  length w = n /\ forallb (atom_ok ic a) w = true.
Proof.
  revert w; induction n as [|n IH]; intros w M; simpl in M.
  - inversion M; subst. auto.
  - inversion M as [| |? ? ? w1 w2 M1 M2| | | | | | |]; subst.
    inversion M1 as [|? ? ? Hc| | | | | | | |]; subst. destruct (IH _ M2) as [<- Hw].
    simpl. split; [reflexivity|]. now rewrite Hc.
Qed.

(** ** The groups of the date patterns *)

Lemma match_re_no_groups (r : regex) :
  forall ic s g rest g',
    subpatterns ic r = [] ->
    In (rest, g') (match_re ic r s g) -> g' = g.
Proof.
  induction r as [|a|r1 IH1 r2 IH2|r1 IH1 r2 IH2|a|r IH|j r IH|ic' r IH];
    intros ic s g rest g' Hs Hin; simpl in Hin, Hs.
  - destruct Hin as [[= <- <-] | []]. reflexivity.
  - destruct s as [|c s]; [destruct Hin|].
    destruct (atom_ok ic a c); [|destruct Hin].
    destruct Hin as [[= <- <-] | []]. reflexivity.
  - apply app_eq_nil in Hs as [Hs1 Hs2].
    apply in_flat_map in Hin as ([s1 g1] & H1 & H2). simpl in H2.
    rewrite (IH2 _ _ _ _ _ Hs2 H2). apply (IH1 _ _ _ _ _ Hs1 H1).
  - apply app_eq_nil in Hs as [Hs1 Hs2].
    apply in_app_or in Hin as [H | H]; eauto.
  - apply in_map_iff in Hin as (s' & [= <- <-] & _). reflexivity.
  - apply in_app_or in Hin as [H | [[= <- <-] | []]]; eauto.
  - discriminate.
  - eauto.
Qed.

Lemma match_re_Cat ic r1 r2 s g rest g' :
  In (rest, g') (match_re ic (Cat r1 r2) s g) ->
  exists s1 g1, In (s1, g1) (match_re ic r1 s g) /\ In (rest, g') (match_re ic r2 s1 g1).
Proof.
  simpl. intros H. apply in_flat_map in H as ([s1 g1] & H1 & H2). eauto.
Qed.

Lemma match_re_Subpattern ic i r s g rest g' :
  In (rest, g') (match_re ic (Subpattern i r) s g) ->
  exists w g1, s = w ++ rest /\ Matches ic r w /\ g' = (i, w) :: g1 /\
               In (rest, g1) (match_re ic r s g).
Proof.
  simpl. intros H. apply in_map_iff in H as ([s1 g1] & [= <- <-] & H).
  destruct (match_re_sound _ _ _ _ _ _ H) as (w & -> & M).
  exists w, g1. simpl fst. rewrite consumed_app. auto.
Qed.

Lemma match_re_Optional ic r s g rest g' :
  In (rest, g') (match_re ic (Optional r) s g) ->
  In (rest, g') (match_re ic r s g) \/ (rest, g') = (s, g).
Proof.
  simpl. intros H. apply in_app_or in H as [H | [H | []]]; auto.
Qed.

Lemma subpatterns_lit ic (p : str) : subpatterns ic (lit p) = [].
Proof. induction p; simpl; auto. Qed.

Tactic Notation "split_cat" hyp(H) "as" ident(s1) ident(g1) ident(H1) :=
  apply match_re_Cat in H as (s1 & g1 & H1 & H).

(** the next part of the pattern has no group *)
Ltac skip_part H :=
  let s1 := fresh "s" in let g1 := fresh "g" in let H1 := fresh "Hhd" in
  apply match_re_Cat in H as (s1 & g1 & H1 & H);
  apply match_re_no_groups in H1; [subst g1|first [apply subpatterns_lit|reflexivity]].

(** the next part of the pattern is group [i] *)
Tactic Notation "group_part" hyp(H) "as" ident(w) ident(M) :=
  let s1 := fresh "s" in let g1 := fresh "g" in let g2 := fresh "g" in
  let H1 := fresh "Hhd" in let H2 := fresh "Hbody" in
  apply match_re_Cat in H as (s1 & g1 & H1 & H);
  apply match_re_Subpattern in H1 as (w & g2 & _ & M & -> & H2);
  apply match_re_no_groups in H2; [subst g2|reflexivity].

(** A match of [prefix\s*(\d{2})\.(\d{2})\.(\d{4})]: the three groups are
    the digits of the matched text. *)
Lemma dmy_groups (prefix : str) (s rest : str) (g : groups) :
  In (rest, g)
     (match_re false
        (cat [lit prefix; ws; Subpattern 1 dd; dot; Subpattern 2 dd; dot;
              Subpattern 3 dddd]) s []) ->
  exists d mo y,
    g = [(3%nat, y); (2%nat, mo); (1%nat, d)] /\
    Matches false dd d /\ Matches false dd mo /\ Matches false dddd y.
Proof.
  intros H. cbn [cat] in H.
  skip_part H. skip_part H. group_part H as d Md. skip_part H.
  group_part H as mo Mm. skip_part H. group_part H as y My.
  simpl in H. destruct H as [[= <- <-] | []].
  exists d, mo, y. auto.
Qed.

Definition position_words : regex :=
  Branch (lit (u "Anfang")) (Branch (lit (u "Mitte")) (lit (u "Ende"))).

Lemma range_groups (s rest : str) (g : groups) :
  In (rest, g) (match_re true range_pattern s []) ->
  exists pos month_raw year_raw,
    g = (3%nat, year_raw) :: (2%nat, month_raw) :: pos /\
    (pos = [] \/ exists p, pos = [(1%nat, p)] /\ Matches true position_words p) /\
    Matches true (plus month_letter) month_raw /\ Matches true dddd year_raw.
Proof.
  intros H. unfold range_pattern in H. cbn [cat] in H.
  skip_part H. skip_part H.
  split_cat H as sopt g1 Hopt.
  assert (Hpos : g1 = [] \/ exists p, g1 = [(1%nat, p)] /\ Matches true position_words p).
  { apply match_re_Optional in Hopt as [Hopt | [= <- <-]]; [|now left].
    apply match_re_Subpattern in Hopt as (p & g3 & _ & Mp & -> & Hopt).
    apply match_re_no_groups in Hopt; [subst|reflexivity].
    right. exists p. auto. }
  clear Hopt.
  skip_part H. group_part H as mraw Mm. skip_part H. group_part H as y My.
  simpl in H. destruct H as [[= <- <-] | []].
  exists g1, mraw, y. auto.
Qed.

Lemma search_direct_groups (s : str) (m : match_obj) :
  search false direct_pattern s = Some m ->
  exists d mo y,
    groups3 m = (Some d, Some mo, Some y) /\
    Matches false dd d /\ Matches false dd mo /\ Matches false dddd y.
Proof.
  intros H. destruct (search_some _ _ _ H) as (pre & post & _ & _ & _ & _ & Hin).
  apply dmy_groups in Hin as (d & mo & y & Hg & Hd & Hm & Hy).
  exists d, mo, y. unfold groups3. rewrite Hg. auto.
Qed.

Lemma search_range_groups (s : str) (m : match_obj) :
  search true range_pattern s = Some m ->
  exists pos month_raw year_raw,
    groups3 m = (pos, Some month_raw, Some year_raw) /\
    (pos = None \/
     exists p, pos = Some p /\ Matches true position_words p /\ infix p s) /\
    Matches true (plus month_letter) month_raw /\ Matches true dddd year_raw.
Proof.
  intros H. destruct (search_some _ _ _ H) as (pre & post & _ & _ & _ & _ & Hin).
  apply range_groups in Hin as (pos & mraw & y & Hg & Hpos & Hm & Hy).
  exists (group (m_groups m) 1), mraw, y. unfold groups3. rewrite Hg.
  split; [reflexivity|]. split; [|auto].
  destruct Hpos as [-> | (p & -> & Mp)]; [now left|].
  right. exists p. split; [reflexivity|]. split; [assumption|].
  assert (Hg1 : group (m_groups m) 1 = Some p) by now rewrite Hg.
  destruct (search_groups _ _ _ _ H Hg1) as [Hi _]. exact Hi.
Qed.

(** ** Numbers *)

Lemma decimal_lt (c : char) (d : N) : decimal c = Some d -> d < 10.
Proof.
  unfold decimal.
  match goal with
  | |- context [find ?f ?l] => destruct (find f l) as [z|] eqn:E
  end; [|discriminate].
  intros [= <-]. apply find_some in E as [_ E].
  apply andb_true_iff in E as [E1 E2].
  apply N.leb_le in E1. apply N.ltb_lt in E2. lia.
Qed.

Lemma int_snoc (s : str) (c : char) :
  int (s ++ [c]) = int s * 10 + match decimal c with Some d => d | None => 0 end.
Proof. unfold int. now rewrite fold_left_app. Qed.

Lemma int_lt (s : str) : int s < 10 ^ N.of_nat (length s).
Proof.
  induction s as [|c s IH] using rev_ind; [reflexivity|].
  rewrite int_snoc, length_app. simpl length.
  replace (N.of_nat (length s + 1)) with (N.succ (N.of_nat (length s))) by lia.
  rewrite N.pow_succ_r'.
  assert (match decimal c with Some d => d | None => 0 end < 10).
  { destruct (decimal c) eqn:E; [now apply decimal_lt in E|lia]. }
  lia.
Qed.

Lemma year_digits (w : str) : Matches true dddd w -> int w <= 9999.
Proof.
  intros M. apply Matches_times in M as [Hl _].
  pose proof (int_lt w) as H. rewrite Hl in H. simpl in H. lia.
Qed.

(** ** Looking a name up in the tables *)

Lemma german_month_range (k : str) (mo : N) :
  dict_get GERMAN_MONTHS k = Some mo -> 1 <= mo <= 12.
Proof.
  unfold GERMAN_MONTHS. cbn [dict_get].
  repeat match goal with
         | |- context [str_eqb k ?x] => destruct (str_eqb k x)
         end; intros [= <-]; lia.
Qed.

Lemma days_in_month_range (y mo : N) :
  1 <= mo <= 12 -> 28 <= days_in_month y mo <= 31.
Proof.
  intros H. unfold days_in_month.
  assert (E : mo = 1 \/ mo = 2 \/ mo = 3 \/ mo = 4 \/ mo = 5 \/ mo = 6 \/ mo = 7
              \/ mo = 8 \/ mo = 9 \/ mo = 10 \/ mo = 11 \/ mo = 12) by lia.
  repeat destruct E as [-> | E]; try subst mo; simpl; try lia;
    destruct (isleap y); simpl; lia.
Qed.

Lemma dt_date_ok (y mo d : N) :
  1 <= y <= 9999 -> 1 <= mo <= 12 -> 1 <= d <= days_in_month y mo ->
  dt_date y mo d = Ok {| year := y; month := mo; day := d |}.
Proof.
  intros Hy Hm Hd. unfold dt_date.
  replace ((1 <=? y) && (y <=? 9999)) with true
    by (symmetry; apply andb_true_iff; split; apply N.leb_le; lia).
  replace ((1 <=? mo) && (mo <=? 12)) with true
    by (symmetry; apply andb_true_iff; split; apply N.leb_le; lia).
  replace ((1 <=? d) && (d <=? days_in_month y mo)) with true
    by (symmetry; apply andb_true_iff; split; apply N.leb_le; lia).
  reflexivity.
Qed.

Lemma monthrange_ndays_ok (y mo : N) :
  1 <= mo <= 12 -> monthrange_ndays y mo = Ok (days_in_month y mo).
Proof.
  intros H. unfold monthrange_ndays.
  replace ((1 <=? mo) && (mo <=? 12)) with true
    by (symmetry; apply andb_true_iff; split; apply N.leb_le; lia).
  reflexivity.
Qed.

(** ** Case-insensitive literals and [str.lower] *)

Lemma unicode_tolower_cases (c : char) :
  (unicode_tolower c = c + 32 /\
   (0x41 <= c <= 0x5A \/ (0xC0 <= c <= 0xDE /\ c <> 0xD7))) \/
  (c = 0x130 /\ unicode_tolower c = 0x69) \/
  (c = 0x178 /\ unicode_tolower c = 0xFF) \/
  (c = 0x1E9E /\ unicode_tolower c = 0xDF) \/
  (c = 0x212A /\ unicode_tolower c = 0x6B) \/
  (c = 0x212B /\ unicode_tolower c = 0xE5) \/
  (unicode_tolower c = c /\ ~ 0x41 <= c <= 0x5A).
Proof.
  unfold unicode_tolower.
  destruct (N.leb_spec 0x41 c), (N.leb_spec c 0x5A); cbn [andb];
    try (left; split; [reflexivity|lia]).
  all: destruct (N.leb_spec 0xC0 c), (N.leb_spec c 0xDE), (N.eqb_spec c 0xD7);
    cbn [andb negb]; try (left; split; [reflexivity|lia]).
  all: destruct (N.eqb_spec c 0x130); [right; left; auto|].
  all: destruct (N.eqb_spec c 0x178); [right; right; left; auto|].
  all: destruct (N.eqb_spec c 0x1E9E); [right; right; right; left; auto|].
  all: destruct (N.eqb_spec c 0x212A); [right; right; right; right; left; auto|].
  all: destruct (N.eqb_spec c 0x212B); [right; right; right; right; right; left; auto|].
  all: repeat right; split; [reflexivity|lia].
Qed.

Lemma tolower_dotless_i (c : char) : unicode_tolower c = 0x131 -> c = 0x131.
Proof. intros H. pose proof (unicode_tolower_cases c). lia. Qed.

(** A pattern letter whose case-insensitive matches are its two cases and,
    for [i], the two dotted and dotless forms. *)
Definition simple_letter (x : char) : bool :=
  unicode_iscased x &&
  match extra_cases (unicode_tolower x) with
  | [] => true
  | _ => unicode_tolower x =? 0x69
  end.

Definition no_turkish_i (s : str) : bool :=
  forallb (fun c => negb ((c =? 0x130) || (c =? 0x131))) s.

Lemma lower_char_ci (x c : char) :
  simple_letter x = true ->
  atom_ok true (Literal x) c = true ->
  negb ((c =? 0x130) || (c =? 0x131)) = true ->
  lower_char c = [unicode_tolower x].
Proof.
  unfold simple_letter, atom_ok, lower_char. intros Hx Hc Hn.
  apply andb_true_iff in Hx as [Hcased Hx]. rewrite Hcased in Hc.
  cbn [andb] in Hc. cbv zeta in Hc.
  apply negb_true_iff, orb_false_iff in Hn as [Hn1 Hn2]. rewrite Hn1.
  destruct (extra_cases (unicode_tolower x)) as [|e l] eqn:Ee.
  - simpl in Hc. rewrite orb_false_r in Hc. apply N.eqb_eq in Hc. now rewrite Hc.
  - apply N.eqb_eq in Hx. rewrite Hx in *. cbn in Ee. injection Ee as <- <-.
    simpl in Hc. rewrite orb_false_r in Hc.
    apply orb_true_iff in Hc as [Hc | Hc]; apply N.eqb_eq in Hc.
    + now rewrite Hc.
    + apply tolower_dotless_i in Hc. apply N.eqb_neq in Hn2. contradiction.
Qed.

Lemma lower_ci (p w : str) :
  forallb simple_letter p = true ->
  Forall2 (fun x c => atom_ok true (Literal x) c = true) p w ->
  no_turkish_i w = true ->
  lower w = map unicode_tolower p.
Proof.
  intros Hp H. induction H as [|x c p w Hx _ IH]; intros Hw; [reflexivity|].
  simpl in Hp, Hw. apply andb_true_iff in Hp as [Hx' Hp].
  apply andb_true_iff in Hw as [Hc Hw].
  unfold lower. cbn [flat_map]. rewrite (lower_char_ci _ _ Hx' Hx Hc).
  cbn [app map]. f_equal. now apply IH.
Qed.

Lemma no_turkish_i_infix (w s : str) :
  infix w s -> no_turkish_i s = true -> no_turkish_i w = true.
Proof.
  intros (pre & post & ->). unfold no_turkish_i. rewrite !forallb_app.
  intros H. apply andb_true_iff in H as [_ H]. now apply andb_true_iff in H as [H _].
Qed.

Lemma position_word_lower (p : str) :
  Matches true position_words p -> no_turkish_i p = true ->
  lower p = u "anfang" \/ lower p = u "mitte" \/ lower p = u "ende".
Proof.
  intros M Hp. unfold position_words in M.
  inversion M as [| | |? ? ? ? M1|? ? ? ? M1| | | | |]; subst.
  - left. apply (Matches_lit (u "Anfang")) in M1.
    now rewrite (lower_ci (p := u "Anfang") eq_refl M1 Hp).
  - inversion M1 as [| | |? ? ? ? M2|? ? ? ? M2| | | | |]; subst.
    + right; left. apply (Matches_lit (u "Mitte")) in M2.
      now rewrite (lower_ci (p := u "Mitte") eq_refl M2 Hp).
    + right; right. apply (Matches_lit (u "Ende")) in M2.
      now rewrite (lower_ci (p := u "Ende") eq_refl M2 Hp).
Qed.

Lemma position_word_nonempty (p : str) :
  Matches true position_words p -> p <> [].
Proof.
  intros M. unfold position_words in M.
  inversion M as [| | |? ? ? ? M1|? ? ? ? M1| | | | |]; subst.
  - apply (Matches_lit (u "Anfang")) in M1. inversion M1. discriminate.
  - inversion M1 as [| | |? ? ? ? M2|? ? ? ? M2| | | | |]; subst.
    + apply (Matches_lit (u "Mitte")) in M2. inversion M2. discriminate.
    + apply (Matches_lit (u "Ende")) in M2. inversion M2. discriminate.
Qed.

(** ** [parse_target_date], branch by branch *)

Lemma parse_target_direct (s : str) (m : match_obj) (d mo y : option str) :
  search false direct_pattern s = Some m ->
  groups3 m = (d, mo, y) ->
  parse_target_date s = dt_date (int_of y) (int_of mo) (int_of d).
Proof. intros H Hg. unfold parse_target_date. now rewrite H, Hg. Qed.

(** The day the fuzzy clause stands for. *)
Definition resolve_day (position_raw : option str) (y mo : N) : result N :=
  match position_raw with
  | Some ((_ :: _) as position_raw) =>
    match dict_get POSITION_DAY (lower position_raw) with
    | None => Raise (ValueError (u "Unsupported position descriptor: " ++ position_raw))
    | Some Last => monthrange_ndays y mo
    | Some (DayNumber n) => Ok n
    end
  | _ => Ok 1
  end.

Lemma parse_target_range (s : str) (m : match_obj) (pos : option str)
      (month_raw year_raw : str) :
  search false direct_pattern s = None ->
  search true range_pattern s = Some m ->
  groups3 m = (pos, Some month_raw, Some year_raw) ->
  parse_target_date s =
  match dict_get GERMAN_MONTHS (lower month_raw) with
  | None => Raise (ValueError (u "Unknown month name: " ++ month_raw))
  | Some mo =>
    d <- resolve_day pos (int year_raw) mo ;; dt_date (int year_raw) mo d
  end.
Proof.
  intros Hd Hr Hg. unfold parse_target_date. rewrite Hd, Hr, Hg.
  reflexivity.
Qed.

Lemma dict_get_some_in {V : Type} (table : list (str * V)) (k : str) (v : V) :
  dict_get table k = Some v -> In k (map fst table).
Proof.
  induction table as [|[k' v'] table IH]; simpl; [discriminate|].
  destruct (str_eqb k k') eqn:E.
  - apply str_eqb_eq in E. auto.
  - auto.
Qed.

Lemma dict_get_none_not_in {V : Type} (table : list (str * V)) (k : str) :
  dict_get table k = None -> ~ In k (map fst table).
Proof.
  induction table as [|[k' v'] table IH]; simpl; [tauto|].
  destruct (str_eqb k k') eqn:E; [discriminate|].
  apply str_eqb_neq in E. intros H [H' | H']; [congruence|]. now apply IH.
Qed.

(** ** The target date parser *)

(** The last day of a month by the calendar rules: February has 29 days in
    a leap year (every fourth year, except the centuries not divisible by
    400) and 28 otherwise; April, June, September and November have 30
    days; the other months have 31. *)
Definition last_day_of_month (y mo : N) : N :=
  if mo =? 2
  then if ((y mod 4 =? 0) && negb (y mod 100 =? 0)) || (y mod 400 =? 0)
       then 29 else 28
  else if (mo =? 4) || (mo =? 6) || (mo =? 9) || (mo =? 11) then 30
  else 31.

Lemma days_in_month_calendar (y mo : N) :
  1 <= mo <= 12 -> days_in_month y mo = last_day_of_month y mo.
Proof.
  intros H. unfold days_in_month, last_day_of_month, isleap.
  assert (E : mo = 1 \/ mo = 2 \/ mo = 3 \/ mo = 4 \/ mo = 5 \/ mo = 6 \/ mo = 7
              \/ mo = 8 \/ mo = 9 \/ mo = 10 \/ mo = 11 \/ mo = 12) by lia.
  repeat destruct E as [-> | E]; try subst mo; try reflexivity.
  change (28 + (if (y mod 4 =? 0) && (negb (y mod 100 =? 0) || (y mod 400 =? 0))
                then 1 else 0)
          = if (y mod 4 =? 0) && negb (y mod 100 =? 0) || (y mod 400 =? 0)
            then 29 else 28).
  assert (H400 : y mod 400 = 0 -> y mod 4 = 0).
  { intros E. apply N.Div0.mod_divides in E as [c ->].
    apply N.Div0.mod_divides. exists (100 * c). lia. }
  destruct (N.eqb_spec (y mod 4) 0), (N.eqb_spec (y mod 100) 0),
    (N.eqb_spec (y mod 400) 0); try reflexivity.
  all: exfalso; auto.
Qed.

(** The outcome of the fuzzy clause once the day is known: the date is
    built from the year, the month and that day, and the construction
    succeeds unless the year is 0000. *)
Definition yields_day (s : str) (y mo d : N) : Prop :=
  parse_target_date s = dt_date y mo d /\
  (1 <= y -> parse_target_date s = Ok {| year := y; month := mo; day := d |}).

Lemma fuzzy_yields (s : str) (m : match_obj) (pos : option str)
      (month_raw year_raw : str) (mo d : N) :
  search false direct_pattern s = None ->
  search true range_pattern s = Some m ->
  groups3 m = (pos, Some month_raw, Some year_raw) ->
  Matches true dddd year_raw ->
  dict_get GERMAN_MONTHS (lower month_raw) = Some mo ->
  resolve_day pos (int year_raw) mo = Ok d ->
  1 <= d <= days_in_month (int year_raw) mo ->
  yields_day s (int year_raw) mo d.
Proof.
  intros Hd Hr Hg My Hmo Hday Hrange.
  assert (E : parse_target_date s = dt_date (int year_raw) mo d).
  { rewrite (parse_target_range _ Hd Hr Hg), Hmo, Hday. reflexivity. }
  split; [exact E|]. intros Hy. rewrite E. apply dt_date_ok; auto.
  - split; [assumption|now apply year_digits].
  - now apply german_month_range in Hmo.
Qed.

(** C2: in a sentence with no explicit clause whose fuzzy clause names a
    German month, the day is 1 when there is no qualifier, 5 for Anfang,
    15 for Mitte and the last day of the month, by the calendar rules with
    leap years, for Ende. *)
Theorem fuzzy_clause_day (s : str) (m : match_obj) (month_raw : str) (mo : N) :
  search false direct_pattern s = None ->
  search true range_pattern s = Some m ->
  group (m_groups m) 2 = Some month_raw ->
  dict_get GERMAN_MONTHS (lower month_raw) = Some mo ->
  exists year_raw,
    group (m_groups m) 3 = Some year_raw /\
    match group (m_groups m) 1 with
    | None => yields_day s (int year_raw) mo 1
    | Some qualifier =>
      (lower qualifier = u "anfang" -> yields_day s (int year_raw) mo 5) /\
      (lower qualifier = u "mitte" -> yields_day s (int year_raw) mo 15) /\
      (lower qualifier = u "ende" ->
       yields_day s (int year_raw) mo (last_day_of_month (int year_raw) mo))
    end.
Proof.
  intros Hd Hr Hg2 Hmo.
  destruct (search_range_groups _ Hr) as (pos & mraw & yraw & Hg & Hpos & _ & My).
  assert (Hg' := Hg). unfold groups3 in Hg'. injection Hg' as Hp1 Hp2 Hp3.
  rewrite Hg2 in Hp2. injection Hp2 as <-.
  pose proof (german_month_range _ Hmo) as Hmr.
  pose proof (days_in_month_range (int yraw) Hmr) as Hdim.
  exists yraw. split; [assumption|]. rewrite Hp1.
  destruct Hpos as [-> | (q & -> & Mq & _)].
  - apply (@fuzzy_yields s m _ _ _ mo _ Hd Hr Hg My Hmo); [reflexivity|lia].
  - pose proof (position_word_nonempty Mq) as Hq.
    assert (Hres : forall ref,
               dict_get POSITION_DAY (lower q) = Some ref ->
               resolve_day (Some q) (int yraw) mo =
               match ref with
               | Last => monthrange_ndays (int yraw) mo
               | DayNumber n => Ok n
               end).
    { intros ref Href. unfold resolve_day. destruct q; [congruence|].
      rewrite Href. now destruct ref. }
    split; [|split]; intros Hq'.
    + apply (@fuzzy_yields s m _ _ _ mo _ Hd Hr Hg My Hmo); [|lia].
      now rewrite (Hres (DayNumber 5)) by (now rewrite Hq').
    + apply (@fuzzy_yields s m _ _ _ mo _ Hd Hr Hg My Hmo); [|lia].
      now rewrite (Hres (DayNumber 15)) by (now rewrite Hq').
    + rewrite <- days_in_month_calendar by assumption.
      apply (@fuzzy_yields s m _ _ _ mo _ Hd Hr Hg My Hmo); [|lia].
      rewrite (Hres Last) by (now rewrite Hq').
      now apply monthrange_ndays_ok.
Qed.

Definition sentence_feb_2024 : str :=
  u "Derzeit werden Anträge mit Eingangsdatum bis Ende Februar 2024 bearbeitet (Stand: 28.08.2025).".

Lemma fuzzy_clause_day_witness :
  parse_target_date sentence_feb_2024 = Ok {| year := 2024; month := 2; day := 29 |}.
Proof.
  assert (Hd : search false direct_pattern sentence_feb_2024 = None)
    by (vm_compute; reflexivity).
  pose (m0 := {| m_start := 41; m_group0 := u "bis Ende Februar 2024";
                 m_groups := [(3%nat, u "2024"); (2%nat, u "Februar");
                              (1%nat, u "Ende")] |}).
  assert (Hr : search true range_pattern sentence_feb_2024 = Some m0)
    by (vm_compute; reflexivity).
  destruct (@fuzzy_clause_day sentence_feb_2024 m0 (u "Februar") 2 Hd Hr
              eq_refl eq_refl) as (year_raw & Hy & H).
  injection Hy as <-.
  destruct H as (_ & _ & H). destruct (H eq_refl) as [_ Hok].
  rewrite Hok; [reflexivity|]. vm_compute. discriminate.
Defined.

(** C3: when the explicit pattern matches, the result is the date built from
    the day, month and year of the explicit clause, whatever the fuzzy
    pattern would find: the fuzzy strategy is not consulted. *)
Theorem explicit_clause_first (s : str) (m : match_obj) :
  search false direct_pattern s = Some m ->
  exists d mo y,
    groups3 m = (Some d, Some mo, Some y) /\
    (length d = 2 /\ length mo = 2 /\ length y = 4)%nat /\
    parse_target_date s = dt_date (int y) (int mo) (int d) /\
    (forall date, dt_date (int y) (int mo) (int d) = Ok date ->
                  parse_target_date s = Ok date /\
                  year date = int y /\ month date = int mo /\ day date = int d).
Proof.
  intros H. destruct (search_direct_groups _ H) as (d & mo & y & Hg & Md & Mm & My).
  exists d, mo, y. split; [assumption|].
  apply Matches_times in Md as [Hd _]. apply Matches_times in Mm as [Hm _].
  apply Matches_times in My as [Hy _]. split; [auto|].
  pose proof (parse_target_direct _ H Hg) as E. simpl in E.
  split; [assumption|]. intros date Hdate. rewrite E, Hdate. split; [reflexivity|].
  unfold dt_date in Hdate.
  repeat match type of Hdate with
         | (if ?b then _ else _) = _ => destruct b; [discriminate|]
         end.
  injection Hdate as <-. auto.
Qed.

Definition sentence_both_clauses : str :=
  u "Derzeit werden Anträge mit Eingangsdatum bis Ende April 2023, teils bis 15.05.2024, bearbeitet (Stand: 28.08.2025).".

Lemma explicit_clause_first_witness :
  (exists m, search true range_pattern sentence_both_clauses = Some m /\
             m_group0 m = u "bis Ende April 2023") /\
  parse_target_date sentence_both_clauses
  = Ok {| year := 2024; month := 5; day := 15 |}.
Proof.
  split.
  - eexists. split; vm_compute; reflexivity.
  - pose (m0 := {| m_start := 68; m_group0 := u "bis 15.05.2024";
                   m_groups := [(3%nat, u "2024"); (2%nat, u "05"); (1%nat, u "15")] |}).
    assert (Hd : search false direct_pattern sentence_both_clauses = Some m0)
      by (vm_compute; reflexivity).
    destruct (explicit_clause_first _ Hd) as (d & mo & y & Hg & _ & E & _).
    injection Hg as <- <- <-. rewrite E. vm_compute. reflexivity.
Defined.

(** C8: an unknown month word and an unsupported qualifier each end the
    fuzzy strategy with an error of their own, and the two errors cannot
    be confused. *)
Theorem fuzzy_clause_errors (s : str) (m : match_obj) (month_raw : str) :
  search false direct_pattern s = None ->
  search true range_pattern s = Some m ->
  group (m_groups m) 2 = Some month_raw ->
  (~ In (lower month_raw) (map fst GERMAN_MONTHS) ->
   parse_target_date s = Raise (ValueError (u "Unknown month name: " ++ month_raw))) /\
  (forall qualifier,
      In (lower month_raw) (map fst GERMAN_MONTHS) ->
      group (m_groups m) 1 = Some qualifier ->
      ~ In (lower qualifier) (map fst POSITION_DAY) ->
      parse_target_date s
      = Raise (ValueError (u "Unsupported position descriptor: " ++ qualifier))) /\
  (forall a b,
      u "Unknown month name: " ++ a <> u "Unsupported position descriptor: " ++ b).
Proof.
  intros Hd Hr Hg2.
  destruct (search_range_groups _ Hr) as (pos & mraw & yraw & Hg & Hpos & _ & My).
  assert (Hg' := Hg). unfold groups3 in Hg'. injection Hg' as Hp1 Hp2 Hp3.
  rewrite Hg2 in Hp2. injection Hp2 as <-.
  pose proof (parse_target_range _ Hd Hr Hg) as E.
  split; [|split].
  - intros Hn. rewrite E.
    destruct (dict_get GERMAN_MONTHS (lower month_raw)) as [mo|] eqn:Em; [|reflexivity].
    exfalso. apply Hn. now apply dict_get_some_in in Em.
  - intros q Hin Hq Hn. rewrite E.
    destruct (dict_get GERMAN_MONTHS (lower month_raw)) as [mo|] eqn:Em.
    + rewrite Hq in Hp1. subst pos.
      destruct Hpos as [Hnone | (q' & [= <-] & Mq & _)]; [discriminate|].
      pose proof (position_word_nonempty Mq) as Hne.
      unfold resolve_day. destruct q as [|c q]; [congruence|].
      destruct (dict_get POSITION_DAY (lower (c :: q))) as [ref|] eqn:Ep; [|reflexivity].
      exfalso. apply Hn. now apply dict_get_some_in in Ep.
    + exfalso. now apply dict_get_none_not_in in Em.
  - intros a b. vm_compute. discriminate.
Qed.

Definition sentence_unknown_month : str :=
  u "Derzeit werden Anträge mit Eingangsdatum bis Ende Brumaire 2023 bearbeitet (Stand: 28.08.2025).".

Definition sentence_dotless_qualifier : str :=
  u "Derzeit werden Anträge mit Eingangsdatum bis Mıtte April 2023 bearbeitet (Stand: 28.08.2025).".

Lemma fuzzy_clause_errors_witness :
  parse_target_date sentence_unknown_month
  = Raise (ValueError (u "Unknown month name: Brumaire")) /\
  parse_target_date sentence_dotless_qualifier
  = Raise (ValueError (u "Unsupported position descriptor: Mıtte")).
Proof.
  split.
  - pose (m0 := {| m_start := 41; m_group0 := u "bis Ende Brumaire 2023";
                   m_groups := [(3%nat, u "2023"); (2%nat, u "Brumaire");
                                (1%nat, u "Ende")] |}).
    assert (Hd : search false direct_pattern sentence_unknown_month = None)
      by (vm_compute; reflexivity).
    assert (Hr : search true range_pattern sentence_unknown_month = Some m0)
      by (vm_compute; reflexivity).
    destruct (@fuzzy_clause_errors _ m0 (u "Brumaire") Hd Hr eq_refl) as (H & _ & _).
    apply H. apply dict_get_none_not_in. reflexivity.
  - pose (m0 := {| m_start := 41; m_group0 := u "bis Mıtte April 2023";
                   m_groups := [(3%nat, u "2023"); (2%nat, u "April");
                                (1%nat, u "Mıtte")] |}).
    assert (Hd : search false direct_pattern sentence_dotless_qualifier = None)
      by (vm_compute; reflexivity).
    assert (Hr : search true range_pattern sentence_dotless_qualifier = Some m0)
      by (vm_compute; reflexivity).
    destruct (@fuzzy_clause_errors _ m0 (u "April") Hd Hr eq_refl) as (_ & H & _).
    apply (H (u "Mıtte")).
    + apply (@dict_get_some_in _ GERMAN_MONTHS _ 4). reflexivity.
    + reflexivity.
    + apply dict_get_none_not_in. reflexivity.
Defined.

(** ** The unsupported-position error *)

Fixpoint startswith (prefix s : str) : bool :=
  match prefix, s with
  | [], _ => true
  | x :: prefix', c :: s' => (x =? c) && startswith prefix' s'
  | _ :: _, [] => false
  end.

(** The run ends with the "Unsupported position descriptor" error. *)
Definition unsupported_position (r : result date) : bool :=
  match r with
  | Raise (ValueError msg) =>
    startswith (u "Unsupported position descriptor: ") msg
  | _ => false
  end.

Lemma dt_date_not_unsupported (y mo d : N) :
  unsupported_position (dt_date y mo d) = false.
Proof.
  unfold dt_date.
  repeat match goal with
         | |- context [if ?b then _ else _] => destruct b
         end; reflexivity.
Qed.

Lemma resolved_day_not_unsupported (n y mo : N) (r : result N) :
  r = Ok n \/ r = monthrange_ndays y mo -> 1 <= mo <= 12 ->
  unsupported_position (d <- r ;; dt_date y mo d) = false.
Proof.
  intros [-> | ->] Hmo.
  - apply dt_date_not_unsupported.
  - rewrite monthrange_ndays_ok by assumption. apply dt_date_not_unsupported.
Qed.

(** The qualifier the fuzzy clause captures, when the fuzzy clause is used:
    group 1 of the fuzzy pattern, when the explicit pattern finds nothing. *)
Definition captured_qualifier (s : str) : option str :=
  match search false direct_pattern s with
  | Some _ => None
  | None =>
    match search true range_pattern s with
    | Some m => fst (fst (groups3 m))
    | None => None
    end
  end.

(** C10, as the code has it: when the qualifier the fuzzy clause captures
    holds neither U+0130 nor U+0131 (the dotted capital and the dotless
    small i, which the case-insensitive pattern takes for the i of Mitte),
    the "Unsupported position descriptor" error is not raised, whatever
    else the sentence holds. *)
Theorem unsupported_position_unreachable (s : str) :
  (forall q, captured_qualifier s = Some q -> no_turkish_i q = true) ->
  unsupported_position (parse_target_date s) = false.
Proof.
  intros Hs. unfold captured_qualifier in Hs.
  destruct (search false direct_pattern s) as [m|] eqn:Hd.
  - destruct (groups3 m) as [[d mo] y] eqn:Hg.
    rewrite (parse_target_direct _ Hd Hg). apply dt_date_not_unsupported.
  - destruct (search true range_pattern s) as [m|] eqn:Hr.
    + destruct (search_range_groups _ Hr) as (pos & mraw & yraw & Hg & Hpos & _ & _).
      rewrite (parse_target_range _ Hd Hr Hg).
      destruct (dict_get GERMAN_MONTHS (lower mraw)) as [mo|] eqn:Em; [|reflexivity].
      pose proof (german_month_range _ Em) as Hmo.
      rewrite Hg in Hs. cbn [fst] in Hs.
      destruct Hpos as [-> | (q & -> & Mq & _)].
      * apply dt_date_not_unsupported.
      * pose proof (position_word_nonempty Mq) as Hne.
        pose proof (position_word_lower Mq (Hs q eq_refl)) as Hl.
        unfold resolve_day. destruct q as [|c q]; [congruence|].
        destruct Hl as [-> | [-> | ->]].
        -- apply (@resolved_day_not_unsupported 5 (int yraw) mo); auto.
        -- apply (@resolved_day_not_unsupported 15 (int yraw) mo); auto.
        -- apply (@resolved_day_not_unsupported 0 (int yraw) mo); auto.
    + unfold parse_target_date. rewrite Hd, Hr. reflexivity.
Qed.

(** A sentence with U+0130 outside the qualifier. *)
Definition sentence_dotted_capital : str :=
  u "İstanbul: Anträge bis Ende Februar 2024".

Lemma unsupported_position_unreachable_witness :
  captured_qualifier sentence_dotted_capital = Some (u "Ende") /\
  no_turkish_i sentence_dotted_capital = false /\
  parse_target_date sentence_dotted_capital
  = Ok {| year := 2024; month := 2; day := 29 |} /\
  unsupported_position (parse_target_date sentence_dotted_capital) = false.
Proof.
  assert (Hq : captured_qualifier sentence_dotted_capital = Some (u "Ende"))
    by (vm_compute; reflexivity).
  split; [exact Hq|]. split; [vm_compute; reflexivity|].
  split; [vm_compute; reflexivity|].
  apply unsupported_position_unreachable.
  intros q H. rewrite Hq in H. injection H as <-. reflexivity.
Defined.

(** C10, as stated, fails: the qualifier written with a dotless i is
    captured by the pattern and is not in the table. *)
Lemma unsupported_position_reached :
  parse_target_date (u "bis Mıtte April 2023")
  = Raise (ValueError (u "Unsupported position descriptor: Mıtte")) /\
  unsupported_position (parse_target_date (u "bis Mıtte April 2023")) = true.
Proof. split; vm_compute; reflexivity. Qed.

(** ** Splitting and joining on whitespace *)

Definition all_space (s : str) : bool := forallb isspace s.
Definition no_space (s : str) : bool := forallb (fun c => negb (isspace c)) s.

(** A word: a non-empty run of characters that are not whitespace. *)
Definition word (w : str) : Prop := w <> [] /\ no_space w = true.

Lemma split_aux_word (w : str) :
  forall cur s, no_space w = true ->
  split_aux cur (w ++ s) = split_aux (rev w ++ cur) s.
Proof.
  induction w as [|c w IH]; intros cur s H; [reflexivity|].
  simpl in H. apply andb_true_iff in H as [Hc Hw]. apply negb_true_iff in Hc.
  simpl. rewrite Hc, IH by assumption. now rewrite <- app_assoc.
Qed.

Lemma split_aux_space (c : char) (cur s : str) :
  isspace c = true ->
  split_aux cur (c :: s) = split_aux cur [] ++ split s.
Proof.
  intros H. simpl. rewrite H. destruct cur; reflexivity.
Qed.

Lemma split_aux_app_space (a : str) :
  forall cur c b, isspace c = true ->
  split_aux cur (a ++ c :: b) = split_aux cur a ++ split b.
Proof.
  induction a as [|x a IH]; intros cur c b Hc.
  - now apply split_aux_space.
  - cbn [app split_aux]. destruct (isspace x).
    + destruct cur; cbn [app]; [|f_equal]; now apply IH.
    + now apply IH.
Qed.

Lemma split_app_space (a b : str) (c : char) :
  isspace c = true -> split (a ++ c :: b) = split a ++ split b.
Proof. apply split_aux_app_space. Qed.

Lemma split_aux_trailing (t : str) :
  forall cur, all_space t = true -> split_aux cur t = split_aux cur [].
Proof.
  induction t as [|c t IH]; intros cur H; [reflexivity|].
  simpl in H. apply andb_true_iff in H as [Hc Ht].
  rewrite split_aux_space by assumption.
  unfold split. rewrite IH by assumption. simpl. apply app_nil_r.
Qed.

Lemma split_aux_app_trailing (a : str) :
  forall cur t, all_space t = true -> split_aux cur (a ++ t) = split_aux cur a.
Proof.
  induction a as [|x a IH]; intros cur t Ht.
  - now apply split_aux_trailing.
  - cbn [app split_aux]. destruct (isspace x).
    + destruct cur; [|f_equal]; now apply IH.
    + now apply IH.
Qed.

Lemma lstrip_split (s : str) : split (lstrip s) = split s.
Proof.
  induction s as [|c s IH]; [reflexivity|]. simpl.
  destruct (isspace c) eqn:E; [|reflexivity].
  rewrite IH. unfold split. simpl. now rewrite E.
Qed.

Lemma lstrip_decompose (s : str) :
  exists t, s = t ++ lstrip s /\ all_space t = true.
Proof.
  induction s as [|c s (t & E & Ht)]; [now exists []|]. simpl.
  destruct (isspace c) eqn:Ec.
  - exists (c :: t). simpl. rewrite Ec, Ht. split; [now f_equal|reflexivity].
  - now exists [].
Qed.

Lemma all_space_rev (t : str) : all_space (rev t) = all_space t.
Proof.
  unfold all_space. induction t as [|c t IH]; [reflexivity|].
  simpl. rewrite forallb_app, IH. simpl. rewrite andb_true_r. apply andb_comm.
Qed.

Lemma rstrip_decompose (s : str) :
  exists t, s = rstrip s ++ t /\ all_space t = true.
Proof.
  unfold rstrip. destruct (lstrip_decompose (rev s)) as (t & E & Ht).
  exists (rev t). split; [|now rewrite all_space_rev].
  rewrite <- rev_app_distr, <- E. now rewrite rev_involutive.
Qed.

Lemma rstrip_split (s : str) : split (rstrip s) = split s.
Proof.
  destruct (rstrip_decompose s) as (t & E & Ht).
  rewrite E at 2. unfold split. now rewrite split_aux_app_trailing.
Qed.

Lemma strip_split (s : str) : split (strip s) = split s.
Proof. unfold strip. now rewrite rstrip_split, lstrip_split. Qed.

Lemma split_join (parts : list str) :
  split (join (u " ") parts) = flat_map split parts.
Proof.
  induction parts as [|p parts IH]; [reflexivity|].
  destruct parts as [|q parts].
  - simpl. now rewrite app_nil_r.
  - change (join (u " ") (p :: q :: parts))
      with (p ++ 0x20 :: join (u " ") (q :: parts)).
    rewrite split_app_space by reflexivity. now rewrite IH.
Qed.

Lemma split_aux_words (s : str) :
  forall cur, no_space cur = true ->
  Forall word (split_aux cur s).
Proof.
  assert (Hrev : forall cur, no_space cur = true -> no_space (rev cur) = true).
  { intros cur H. unfold no_space in *. rewrite forallb_forall in *.
    intros x Hx. apply H. now apply in_rev. }
  induction s as [|c s IH]; intros cur Hcur; simpl.
  - destruct cur as [|x cur]; constructor; [|constructor].
    split; [|now apply Hrev].
    intros E. apply (f_equal (@length _)) in E. rewrite length_rev in E. discriminate.
  - destruct (isspace c) eqn:Ec.
    + destruct cur as [|x cur]; [now apply IH|]. constructor; [|now apply IH].
      split; [|now apply Hrev].
      intros E. apply (f_equal (@length _)) in E. rewrite length_rev in E. discriminate.
    + apply IH. simpl. now rewrite Ec.
Qed.

Lemma split_words (s : str) : Forall word (split s).
Proof. now apply split_aux_words. Qed.

Lemma split_word (w : str) : word w -> split w = [w].
Proof.
  intros [Hne Hw]. unfold split.
  rewrite <- (app_nil_r w) at 1. rewrite split_aux_word by assumption.
  simpl. rewrite app_nil_r. destruct (rev w) eqn:E.
  - apply (f_equal (@rev _)) in E. rewrite rev_involutive in E. contradiction.
  - now rewrite <- E, rev_involutive.
Qed.


(** Text is whitespace-normalized when it is its words joined by single
    spaces: no whitespace at either end, and nothing but one U+0020
    between two words. *)
Definition normalized (t : str) : Prop := join (u " ") (split t) = t.


(** ** The HTML text extractor *)

(** The character data the parser reports, in document order. *)
Definition reported_data (calls : list callback) : list str :=
  flat_map (fun cb => match cb with handle_data data => [data] | _ => [] end) calls.

Lemma feed_parts (calls : list callback) :
  forall parts,
    _PlainTextExtractor.feed parts calls
    = parts ++ filter (fun p => negb (str_eqb p [])) (map strip (reported_data calls)).
Proof.
  unfold _PlainTextExtractor.feed.
  induction calls as [|cb calls IH]; intros parts; simpl.
  - now rewrite app_nil_r.
  - rewrite IH. destruct cb; try reflexivity. simpl.
    destruct (strip data) as [|c d]; [reflexivity|].
    simpl. now rewrite <- app_assoc.
Qed.

Lemma flat_map_split_strip (chunks : list str) :
  flat_map split (filter (fun p => negb (str_eqb p [])) (map strip chunks))
  = flat_map split chunks.
Proof.
  induction chunks as [|d chunks IH]; [reflexivity|]. simpl.
  rewrite <- (strip_split d). destruct (strip d) as [|c s] eqn:E.
  - simpl. exact IH.
  - simpl. now rewrite IH.
Qed.

Lemma plain_text_words (calls : list callback) :
  plain_text calls = join (u " ") (flat_map split (reported_data calls)).
Proof.
  unfold plain_text, _PlainTextExtractor.get_text, _PlainTextExtractor.__init__.
  rewrite feed_parts, split_join. simpl app. now rewrite flat_map_split_strip.
Qed.






(** ** The sentence locator *)

Definition not_found : exn :=
  ValueError (u "Status sentence not found in HTML content.").

Lemma lstrip_id (c : char) (s : str) : isspace c = false -> lstrip (c :: s) = c :: s.
Proof. intros H. simpl. now rewrite H. Qed.

Lemma strip_id (c e : char) (mid : str) :
  isspace c = false -> isspace e = false ->
  strip (c :: mid ++ [e]) = c :: mid ++ [e].
Proof.
  intros Hc He. unfold strip, rstrip. rewrite lstrip_id by assumption.
  change (c :: mid ++ [e]) with ((c :: mid) ++ [e]).
  rewrite rev_app_distr. cbn [rev app]. rewrite lstrip_id by assumption.
  change (e :: rev mid ++ [c]) with ([e] ++ rev (c :: mid)).
  rewrite rev_app_distr, rev_involutive. reflexivity.
Qed.

Lemma Matches_Cat ic (r1 r2 : regex) (w : str) :
  Matches ic (Cat r1 r2) w ->
  exists w1 w2, w = w1 ++ w2 /\ Matches ic r1 w1 /\ Matches ic r2 w2.
Proof.
  intros M. inversion M as [| |? ? ? w1 w2 M1 M2| | | | | | |]; subst. eauto.
Qed.

Lemma Matches_Empty ic (w : str) : Matches ic Empty w -> w = [].
Proof. intros M. now inversion M. Qed.

Lemma Matches_Atom ic (a : atom) (w : str) :
  Matches ic (Atom a) w -> exists c, w = [c] /\ atom_ok ic a c = true.
Proof. intros M. inversion M; subst. eauto. Qed.

Lemma Matches_Optional ic (r : regex) (w : str) :
  Matches ic (Optional r) w -> w = [] \/ Matches ic r w.
Proof. intros M. inversion M; subst; auto. Qed.

Lemma ci_D (c : char) :
  atom_ok true (Literal 0x44) c = true -> c = 0x44 \/ c = 0x64.
Proof.
  unfold atom_ok. change (unicode_iscased 0x44) with true. cbn [andb]. cbv zeta.
  change (unicode_tolower 0x44) with 0x64. change (extra_cases 0x64) with (@nil char).
  unfold mem. cbn [existsb]. rewrite orb_false_r. intros H. apply N.eqb_eq in H.
  pose proof (unicode_tolower_cases c). lia.
Qed.

(** A match of the sentence pattern begins with D or d and ends with the
    closing parenthesis or the period. *)
Lemma sentence_shape (w : str) :
  Matches true sentence_pattern w ->
  exists c mid e, w = c :: mid ++ [e] /\
                  (c = 0x44 \/ c = 0x64) /\ (e = 0x29 \/ e = 0x2E).
Proof.
  intros M. unfold sentence_pattern in M. cbn [cat] in M.
  apply Matches_Cat in M as (wa & ta & -> & M1 & M).
  apply (Matches_lit (u "Derzeit werden Anträge mit Eingangsdatum")) in M1.
  inversion M1 as [|p c ps w1' Hc _]; subst. apply ci_D in Hc.
  do 8 (apply Matches_Cat in M as (? & ? & -> & _ & M)).
  apply Matches_Cat in M as (wb & tb & -> & M2 & M).
  apply (Matches_lit (u ")")) in M2.
  inversion M2 as [|p2 c2 ps2 w2' Hc2 Hnil]; subst. inversion Hnil; subst.
  simpl in Hc2. apply N.eqb_eq in Hc2. subst c2.
  apply Matches_Cat in M as (wc & tc & -> & M3 & M).
  apply Matches_Empty in M. subst tc. rewrite app_nil_r.
  apply Matches_Optional in M3 as [-> | M3].
  - exists c. eexists. exists 0x29. split; [|auto].
    rewrite app_nil_r, !app_assoc. rewrite <- app_comm_cons. reflexivity.
  - apply Matches_Atom in M3 as (c3 & -> & Hc3). simpl in Hc3.
    apply N.eqb_eq in Hc3. subst c3.
    exists c. eexists. exists 0x2E. split; [|auto].
    change ([41] ++ [46]) with ([41; 46]).
    replace [41; 46] with ([41] ++ [46]) by reflexivity.
    rewrite !app_assoc. rewrite <- app_comm_cons. reflexivity.
Qed.

Lemma sentence_strip (w : str) : Matches true sentence_pattern w -> strip w = w.
Proof.
  intros M. destruct (sentence_shape M) as (c & mid & e & -> & Hc & He).
  apply strip_id.
  - destruct Hc as [-> | ->]; reflexivity.
  - destruct He as [-> | ->]; reflexivity.
Qed.

(** C6, as the code has it: the locator returns the leftmost part of the
    text that matches the pattern (case-insensitive throughout, with any
    run of whitespace, possibly none, after the colon), and it fails with
    the not-found error exactly when no part of the text matches. *)
Theorem locate_sentence_leftmost (text : str) :
  (locate_sentence text = Raise not_found <->
   forall k, ~ occurs_at true sentence_pattern text k) /\
  (forall sentence,
      locate_sentence text = Ok sentence ->
      exists pre post,
        text = pre ++ sentence ++ post /\
        Matches true sentence_pattern sentence /\
        strip sentence = sentence /\
        forall k, occurs_at true sentence_pattern text k -> (length pre <= k)%nat).
Proof.
  unfold locate_sentence. split.
  - rewrite <- search_none.
    destruct (search true sentence_pattern text); split; intros H;
      solve [discriminate H | reflexivity].
  - intros sentence H.
    destruct (search true sentence_pattern text) as [m|] eqn:E; [|discriminate].
    destruct (search_some _ _ _ E) as (pre & post & Et & _ & M & Hmin & _).
    injection H as <-. rewrite (sentence_strip M).
    exists pre, post. auto using sentence_strip.
Qed.

(** The pattern as C6 words it: the leading phrase without regard to case,
    then the run without parentheses, then the marker as written, with one
    space after the colon. *)
Definition sentence_pattern_as_stated : regex :=
  cat [ Scoped true (lit (u "Derzeit werden Anträge mit Eingangsdatum"));
        Star (In_ true [ (0x28, 0x28); (0x29, 0x29) ]);
        lit (u "(Stand: "); dd; dot; dd; dot; dddd; lit (u ")");
        Optional dot ].

Definition text_upper_stand : str :=
  u "Derzeit werden Anträge mit Eingangsdatum bis Ende April 2023 bearbeitet (STAND:28.08.2025).".

(** C6, as stated, fails: the marker is matched without regard to case and
    needs no space after the colon. *)
Lemma marker_case_insensitive :
  (forall k, ~ occurs_at false sentence_pattern_as_stated text_upper_stand k) /\
  locate_sentence text_upper_stand = Ok text_upper_stand.
Proof.
  split.
  - apply search_none. vm_compute. reflexivity.
  - vm_compute. reflexivity.
Qed.

(** ** The reader without the field size limit

    A device for the proofs: the parser of [csv.reader] with the check of
    [parse_add_char] left out.  It never fails on the lines of a text file
    and reads back what the writer wrote; the reader itself is compared
    with it below. *)

Module Free.

Record reader : Type := {
  state : parser_state;
  fields : list str;     (* fields of the record so far, last first *)
  field : str            (* characters of the field so far, last first *)
}.

Definition parse_reset : reader :=
  {| state := START_RECORD; fields := []; field := [] |}.

Definition parse_save_field (rd : reader) : reader :=
  {| state := state rd; fields := rev (field rd) :: fields rd; field := [] |}.

Definition parse_add_char (rd : reader) (c : char) : reader :=
  {| state := state rd; fields := fields rd; field := c :: field rd |}.

Definition set_state (rd : reader) (s : parser_state) : reader :=
  {| state := s; fields := fields rd; field := field rd |}.

Definition start_field (rd : reader) (c : option char) : result reader :=
  match c with
  | None => Ok (set_state (parse_save_field rd) START_RECORD)
  | Some c =>
    if is_newline c then Ok (set_state (parse_save_field rd) EAT_CRNL)
    else if c =? QUOTE then Ok (set_state rd IN_QUOTED_FIELD)
    else if c =? COMMA then Ok (set_state (parse_save_field rd) START_FIELD)
    else Ok (set_state (parse_add_char rd c) IN_FIELD)
  end.

(** [parse_process_char]; [None] is the end-of-line mark the reader feeds
    after the characters of each line. *)
Definition parse_process_char (rd : reader) (c : option char) : result reader :=
  match state rd with
  | START_RECORD =>
    match c with
    | None => Ok rd
    | Some c' =>
      if is_newline c' then Ok (set_state rd EAT_CRNL)
      else start_field rd c
    end
  | START_FIELD => start_field rd c
  | IN_FIELD =>
    match c with
    | None => Ok (set_state (parse_save_field rd) START_RECORD)
    | Some c =>
      if is_newline c then Ok (set_state (parse_save_field rd) EAT_CRNL)
      else if c =? COMMA then Ok (set_state (parse_save_field rd) START_FIELD)
      else Ok (parse_add_char rd c)
    end
  | IN_QUOTED_FIELD =>
    match c with
    | None => Ok rd
    | Some c =>
      if c =? QUOTE then Ok (set_state rd QUOTE_IN_QUOTED_FIELD)
      else Ok (parse_add_char rd c)
    end
  | QUOTE_IN_QUOTED_FIELD =>
    match c with
    | None => Ok (set_state (parse_save_field rd) START_RECORD)
    | Some c =>
      if c =? QUOTE then Ok (set_state (parse_add_char rd c) IN_QUOTED_FIELD)
      else if c =? COMMA then Ok (set_state (parse_save_field rd) START_FIELD)
      else if is_newline c then Ok (set_state (parse_save_field rd) EAT_CRNL)
      else Ok (set_state (parse_add_char rd c) IN_FIELD)
    end
  | EAT_CRNL =>
    match c with
    | None => Ok (set_state rd START_RECORD)
    | Some c => if is_newline c then Ok rd else Raise csv_error
    end
  end.

Fixpoint process_line (rd : reader) (line : str) : result reader :=
  match line with
  | [] => parse_process_char rd None
  | c :: line' =>
    rd' <- parse_process_char rd (Some c) ;;
    process_line rd' line'
  end.

(** The records the reader yields: it consumes lines until the parser is
    back in [START_RECORD]; at the end of the input an unfinished record
    is yielded as it stands. *)
Fixpoint read_records (rd : reader) (lines : list str) : result (list (list str)) :=
  match lines with
  | [] =>
    match field rd with
    | [] => if state_eqb (state rd) IN_QUOTED_FIELD
            then Ok [rev (fields (parse_save_field rd))] else Ok []
    | _ => Ok [rev (fields (parse_save_field rd))]
    end
  | line :: rest =>
    rd' <- process_line rd line ;;
    if state_eqb (state rd') START_RECORD
    then rows <- read_records parse_reset rest ;; Ok (rev (fields rd') :: rows)
    else read_records rd' rest
  end.

Definition csv_reader (content : str) : result (list (list str)) :=
  read_records parse_reset (readlines content).

(** ** The reader, character by character *)

Fixpoint process_chars (rd : reader) (l : str) : result reader :=
  match l with
  | [] => Ok rd
  | c :: l' => rd' <- parse_process_char rd (Some c) ;; process_chars rd' l'
  end.

Definition finish (rd : reader) : result (list (list str)) := read_records rd [].

Definition next_record (rd : reader) (k : reader -> result (list (list str)))
  : result (list (list str)) :=
  if state_eqb (state rd) START_RECORD
  then rows <- k parse_reset ;; Ok (rev (fields rd) :: rows)
  else k rd.

Definition end_line (rd : reader) (k : reader -> result (list (list str)))
  : result (list (list str)) :=
  rd' <- parse_process_char rd None ;; next_record rd' k.

(** Reading the records straight from the text: [rd] has seen the
    characters of the current line, and [pending] tells whether there are
    any. *)
Fixpoint scan (rd : reader) (pending : bool) (s : str) : result (list (list str)) :=
  match s with
  | [] => if pending then end_line rd finish else finish rd
  | c :: s' =>
    rd1 <- parse_process_char rd (Some c) ;;
    if c =? LF then end_line rd1 (fun r => scan r false s')
    else if c =? CR then
      match s' with
      | c2 :: s'' =>
        if c2 =? LF
        then rd2 <- parse_process_char rd1 (Some c2) ;;
             end_line rd2 (fun r => scan r false s'')
        else end_line rd1 (fun r => scan r false s')
      | [] => end_line rd1 (fun r => scan r false s')
      end
    else scan rd1 true s'
  end.

Lemma bind_assoc {A B C : Type} (c : result A) (k : A -> result B) (h : B -> result C) :
  bind (bind c k) h = bind c (fun a => bind (k a) h).
Proof. now destruct c. Qed.

Lemma process_chars_app (rd : reader) (l1 l2 : str) :
  process_chars rd (l1 ++ l2) = rd' <- process_chars rd l1 ;; process_chars rd' l2.
Proof.
  revert rd; induction l1 as [|c l1 IH]; intros rd; simpl; [reflexivity|].
  destruct (parse_process_char rd (Some c)); simpl; auto.
Qed.

Lemma process_line_chars (rd : reader) (l : str) :
  process_line rd l = rd' <- process_chars rd l ;; parse_process_char rd' None.
Proof.
  revert rd; induction l as [|c l IH]; intros rd; simpl; [reflexivity|].
  destruct (parse_process_char rd (Some c)); simpl; auto.
Qed.

Lemma read_records_cons (rd : reader) (line : str) (rest : list str) :
  read_records rd (line :: rest) =
  rd1 <- process_chars rd line ;; end_line rd1 (fun r => read_records r rest).
Proof.
  simpl. rewrite process_line_chars. unfold end_line, next_record.
  destruct (process_chars rd line) as [rd1|]; simpl; [|reflexivity].
  destruct (parse_process_char rd1 None) as [rd2|]; simpl; reflexivity.
Qed.

Lemma end_line_ext (rd : reader) (k1 k2 : reader -> result (list (list str))) :
  (forall r, k1 r = k2 r) -> end_line rd k1 = end_line rd k2.
Proof.
  intros H. unfold end_line, next_record.
  destruct (parse_process_char rd None) as [rd'|]; simpl; [|reflexivity].
  destruct (state_eqb (state rd') START_RECORD); now rewrite H.
Qed.

Lemma scan_readlines_aux (n : nat) :
  forall (s cur : str) (rd0 : reader),
    (length s <= n)%nat ->
    read_records rd0 (readlines_aux cur s) =
    rd <- process_chars rd0 (rev cur) ;;
    scan rd (match cur with [] => false | _ => true end) s.
Proof.
  induction n as [|n IH]; intros s cur rd0 Hn.
  - destruct s; [|simpl in Hn; lia]. simpl.
    destruct cur as [|c cur]; [reflexivity|].
    change (read_records rd0 [rev (c :: cur)]) with
      (read_records rd0 (rev (c :: cur) :: [])).
    rewrite read_records_cons. reflexivity.
  - destruct s as [|c s'].
    + simpl. destruct cur as [|c cur]; [reflexivity|].
      change (read_records rd0 [rev (c :: cur)]) with
        (read_records rd0 (rev (c :: cur) :: [])).
      rewrite read_records_cons. reflexivity.
    + simpl in Hn.
      assert (Hcur : forall c0 : char, rev (c0 :: cur) = rev cur ++ [c0]) by reflexivity.
      cbn [readlines_aux scan].
      destruct (c =? LF) eqn:ELF.
      * rewrite read_records_cons, Hcur, process_chars_app, bind_assoc.
        destruct (process_chars rd0 (rev cur)) as [rd|]; simpl; [|reflexivity].
        destruct (parse_process_char rd (Some c)) as [rd1|]; simpl; [|reflexivity].
        apply end_line_ext. intros r. rewrite (IH s' [] r) by lia. reflexivity.
      * destruct (c =? CR) eqn:ECR.
        -- destruct s' as [|c2 s''].
           ++ change [rev (c :: cur)] with (rev (c :: cur) :: @nil str).
              rewrite read_records_cons, Hcur, process_chars_app, bind_assoc.
              destruct (process_chars rd0 (rev cur)) as [rd|]; simpl; [|reflexivity].
              destruct (parse_process_char rd (Some c)) as [rd1|]; simpl; reflexivity.
           ++ destruct (c2 =? LF) eqn:E2.
              ** rewrite read_records_cons.
                 change (rev (c2 :: c :: cur)) with ((rev cur ++ [c]) ++ [c2]).
                 rewrite <- app_assoc, process_chars_app, bind_assoc.
                 destruct (process_chars rd0 (rev cur)) as [rd|]; simpl; [|reflexivity].
                 destruct (parse_process_char rd (Some c)) as [rd1|]; simpl; [|reflexivity].
                 destruct (parse_process_char rd1 (Some c2)) as [rd2|]; simpl; [|reflexivity].
                 apply end_line_ext. intros r. simpl in Hn.
                 rewrite (IH s'' [] r) by lia. reflexivity.
              ** assert (Hl : (length (c2 :: s'') <= n)%nat) by lia.
                 remember (c2 :: s'') as tl eqn:Etl.
                 rewrite read_records_cons, Hcur, process_chars_app, bind_assoc.
                 destruct (process_chars rd0 (rev cur)) as [rd|]; simpl; [|reflexivity].
                 destruct (parse_process_char rd (Some c)) as [rd1|]; simpl; [|reflexivity].
                 apply end_line_ext. intros r.
                 rewrite (IH tl [] r) by lia. reflexivity.
        -- rewrite (IH s' (c :: cur) rd0) by lia.
           rewrite Hcur, process_chars_app, bind_assoc.
           destruct (process_chars rd0 (rev cur)) as [rd|]; simpl; [|reflexivity].
           destruct (parse_process_char rd (Some c)) as [rd1|]; simpl; reflexivity.
Qed.

Lemma csv_reader_scan (content : str) :
  csv_reader content = scan parse_reset false content.
Proof.
  unfold csv_reader, readlines.
  rewrite scan_readlines_aux with (n := length content) by apply le_n.
  reflexivity.
Qed.

(** *** The reader never fails on a text file *)

Lemma process_none_ok (rd : reader) :
  exists rd', parse_process_char rd None = Ok rd' /\ state rd' <> EAT_CRNL.
Proof.
  destruct rd as [st F f]; destruct st; unfold parse_process_char; simpl;
    eexists; (split; [reflexivity|simpl; congruence]).
Qed.

Lemma process_some_ok (rd : reader) (c : char) :
  state rd <> EAT_CRNL \/ is_newline c = true ->
  exists rd', parse_process_char rd (Some c) = Ok rd' /\
              (is_newline c = false -> state rd' <> EAT_CRNL).
Proof.
  intros H. destruct rd as [st F f]. unfold parse_process_char, start_field.
  destruct st; simpl in *;
    destruct (is_newline c) eqn:En; destruct (c =? QUOTE) eqn:Eq;
    destruct (c =? COMMA) eqn:Ec;
    try (eexists; split; [reflexivity|simpl; congruence]).
  all: destruct H; congruence.
Qed.

Lemma finish_ok (rd : reader) : exists rows, finish rd = Ok rows.
Proof.
  unfold finish. simpl. destruct (field rd); [destruct (state_eqb _ _)|]; eauto.
Qed.

Lemma end_line_ok (rd : reader) (k : reader -> result (list (list str))) :
  (forall r, state r <> EAT_CRNL -> exists rows, k r = Ok rows) ->
  exists rows, end_line rd k = Ok rows.
Proof.
  intros Hk. unfold end_line, next_record.
  destruct (process_none_ok rd) as (rd' & -> & Hst). simpl.
  destruct (state_eqb (state rd') START_RECORD).
  - destruct (Hk parse_reset) as [rows ->]; [simpl; congruence|]. simpl. eauto.
  - now apply Hk.
Qed.

Lemma is_newline_spec (c : char) :
  is_newline c = (c =? LF) || (c =? CR).
Proof. reflexivity. Qed.

Lemma scan_ok (n : nat) :
  forall (s : str) (rd : reader) (pending : bool),
    (length s <= n)%nat -> state rd <> EAT_CRNL ->
    exists rows, scan rd pending s = Ok rows.
Proof.
  induction n as [|n IH]; intros s rd pending Hn Hst.
  - destruct s; [|simpl in Hn; lia]. simpl.
    destruct pending; [apply end_line_ok; intros; apply finish_ok|apply finish_ok].
  - destruct s as [|c s'].
    + simpl. destruct pending; [apply end_line_ok; intros; apply finish_ok|apply finish_ok].
    + simpl in Hn. cbn [scan].
      destruct (process_some_ok rd c (or_introl Hst)) as (rd1 & -> & H1).
      cbn [bind]. rewrite is_newline_spec in H1.
      destruct (c =? LF) eqn:ELF.
      * apply end_line_ok. intros r Hr. apply IH; [lia|assumption].
      * destruct (c =? CR) eqn:ECR.
        -- destruct s' as [|c2 s''].
           ++ apply end_line_ok. intros r Hr. apply IH; [simpl; lia|assumption].
           ++ destruct (c2 =? LF) eqn:E2.
              ** destruct (process_some_ok rd1 c2) as (rd2 & -> & _).
                 { right. rewrite is_newline_spec, E2. reflexivity. }
                 cbn [bind]. apply end_line_ok. intros r Hr.
                 apply IH; [simpl in Hn; lia|assumption].
              ** apply end_line_ok. intros r Hr. apply IH; [lia|assumption].
        -- apply IH; [lia|]. apply H1. reflexivity.
Qed.

Lemma csv_reader_ok (content : str) : exists rows, csv_reader content = Ok rows.
Proof.
  rewrite csv_reader_scan. apply scan_ok with (n := length content).
  - apply le_n.
  - simpl. congruence.
Qed.

(** *** Reading back what the writer wrote *)

Definition plain (c : char) : bool :=
  negb ((c =? COMMA) || (c =? QUOTE) || (c =? CR) || (c =? LF)).

Lemma needs_quotes_false (f : str) :
  needs_quotes f = false -> forallb plain f = true.
Proof.
  unfold needs_quotes, plain. induction f as [|c f IH]; simpl; [reflexivity|].
  intros H. apply orb_false_iff in H as [Hc Hf]. rewrite Hc. simpl. auto.
Qed.

Lemma plain_tests (c : char) :
  plain c = true ->
  (c =? COMMA) = false /\ (c =? QUOTE) = false /\ (c =? CR) = false /\ (c =? LF) = false.
Proof.
  unfold plain. intros H. apply negb_true_iff in H.
  repeat (apply orb_false_iff in H as [H ?]). auto.
Qed.

Local Abbreviation Rd st F f := {| state := st; fields := F; field := f |}.

(** characters of an unquoted field *)
Lemma scan_plain (f : str) :
  forall (F : list str) (acc : str) (b : bool) (t : char) (tail : str),
    forallb plain f = true ->
    scan (Rd IN_FIELD F acc) b (f ++ t :: tail)
    = scan (Rd IN_FIELD F (rev f ++ acc)) true (t :: tail).
Proof.
  induction f as [|c f IH]; intros F acc b t tail Hf.
  - reflexivity.
  - simpl in Hf. apply andb_true_iff in Hf as [Hc Hf].
    destruct (plain_tests _ Hc) as (Ec & Eq & Ecr & Elf).
    change ((c :: f) ++ t :: tail) with (c :: (f ++ t :: tail)).
    cbn [scan]. unfold parse_process_char, is_newline. cbn [state].
    rewrite Elf, Ecr, Ec. cbn [orb bind].
    unfold parse_add_char. cbn [state fields field].
    rewrite IH by assumption.
    replace (rev (c :: f) ++ acc) with (rev f ++ c :: acc)
      by (simpl; now rewrite <- app_assoc).
    reflexivity.
Qed.

(** the first character of an unquoted field *)
Lemma scan_plain_start (c : char) (f : str) (st : parser_state) :
  forall (F : list str) (b : bool) (t : char) (tail : str),
    st = START_FIELD \/ st = START_RECORD ->
    forallb plain (c :: f) = true ->
    scan (Rd st F []) b ((c :: f) ++ t :: tail)
    = scan (Rd IN_FIELD F (rev (c :: f))) true (t :: tail).
Proof.
  intros F b t tail Hst Hf.
  simpl in Hf. apply andb_true_iff in Hf as [Hc Hf].
  destruct (plain_tests _ Hc) as (Ec & Eq & Ecr & Elf).
  change ((c :: f) ++ t :: tail) with (c :: (f ++ t :: tail)).
  cbn [scan].
  assert (E : parse_process_char (Rd st F []) (Some c) = Ok (Rd IN_FIELD F [c])).
  { destruct Hst as [-> | ->]; unfold parse_process_char, start_field, is_newline;
      cbn [state]; rewrite ?Elf, ?Ecr, ?Ec, ?Eq; reflexivity. }
  rewrite E. cbn [bind]. rewrite Elf, Ecr.
  rewrite scan_plain by assumption.
  replace (rev (c :: f)) with (rev f ++ [c]) by reflexivity.
  reflexivity.
Qed.

(** One step of [scan], by the kind of the next character. *)
Lemma scan_char (r : reader) (b : bool) (c : char) (s : str) :
  (c =? LF) = false -> (c =? CR) = false ->
  scan r b (c :: s) = r1 <- parse_process_char r (Some c) ;; scan r1 true s.
Proof. intros H1 H2. cbn [scan]. now rewrite H1, H2. Qed.

Lemma scan_lf (r : reader) (b : bool) (s : str) :
  scan r b (LF :: s)
  = r1 <- parse_process_char r (Some LF) ;; end_line r1 (fun r' => scan r' false s).
Proof. reflexivity. Qed.

Lemma scan_cr_lf (r : reader) (b : bool) (s : str) :
  scan r b (CR :: LF :: s)
  = r1 <- parse_process_char r (Some CR) ;;
    r2 <- parse_process_char r1 (Some LF) ;;
    end_line r2 (fun r' => scan r' false s).
Proof. reflexivity. Qed.

Lemma scan_cr (r : reader) (b : bool) (c2 : char) (s : str) :
  (c2 =? LF) = false ->
  scan r b (CR :: c2 :: s)
  = r1 <- parse_process_char r (Some CR) ;;
    end_line r1 (fun r' => scan r' false (c2 :: s)).
Proof. intros H. cbn [scan]. change (CR =? LF) with false. change (CR =? CR) with true.
  cbv iota. now rewrite H. Qed.

Lemma process_in_quoted (F : list str) (acc : str) (c : char) :
  (c =? QUOTE) = false ->
  parse_process_char (Rd IN_QUOTED_FIELD F acc) (Some c)
  = Ok (Rd IN_QUOTED_FIELD F (c :: acc)).
Proof. intros H. unfold parse_process_char. cbn [state]. now rewrite H. Qed.

Lemma end_line_in_quoted (F : list str) (acc : str) k :
  end_line (Rd IN_QUOTED_FIELD F acc) k = k (Rd IN_QUOTED_FIELD F acc).
Proof. reflexivity. Qed.

Lemma scan_quote_quote (F : list str) (acc : str) (b : bool) (s : str) :
  scan (Rd IN_QUOTED_FIELD F acc) b (QUOTE :: QUOTE :: s)
  = scan (Rd IN_QUOTED_FIELD F (QUOTE :: acc)) true s.
Proof. reflexivity. Qed.

Lemma escape_field_cons (c : char) (f : str) :
  escape_field (c :: f)
  = (if c =? QUOTE then [QUOTE; QUOTE] else [c]) ++ escape_field f.
Proof. reflexivity. Qed.

(** characters of a quoted field, up to the closing quote *)
Lemma scan_quoted (n : nat) :
  forall (f : str) (F : list str) (acc : str) (b : bool) (tail : str),
    (length f <= n)%nat ->
    scan (Rd IN_QUOTED_FIELD F acc) b (escape_field f ++ QUOTE :: tail)
    = scan (Rd IN_QUOTED_FIELD F (rev f ++ acc)) true (QUOTE :: tail).
Proof.
  induction n as [|n IH]; intros f F acc b tail Hn.
  - destruct f; [reflexivity|simpl in Hn; lia].
  - destruct f as [|c f]; [reflexivity|]. simpl in Hn.
    assert (Hrev : forall (x : char) (l a : str), rev (x :: l) ++ a = rev l ++ x :: a).
    { intros x l a. simpl. now rewrite <- app_assoc. }
    rewrite escape_field_cons.
    destruct (c =? QUOTE) eqn:Eq.
    + apply N.eqb_eq in Eq. subst c. cbn [app].
      rewrite scan_quote_quote, IH by lia. now rewrite Hrev.
    + cbn [app]. destruct (c =? LF) eqn:ELF.
      * apply N.eqb_eq in ELF. subst c.
        rewrite scan_lf, process_in_quoted by reflexivity. cbn [bind].
        rewrite end_line_in_quoted, IH by lia. now rewrite Hrev.
      * destruct (c =? CR) eqn:ECR.
        -- apply N.eqb_eq in ECR. subst c.
           destruct f as [|c2 f'].
           ++ cbn [escape_field flat_map app].
              rewrite scan_cr, process_in_quoted by reflexivity. cbn [bind].
              now rewrite end_line_in_quoted.
           ++ destruct (c2 =? LF) eqn:E2.
              ** apply N.eqb_eq in E2. subst c2.
                 rewrite escape_field_cons. change (LF =? QUOTE) with false.
                 cbn [app].
                 rewrite scan_cr_lf, process_in_quoted by reflexivity. cbn [bind].
                 rewrite process_in_quoted by reflexivity. cbn [bind].
                 rewrite end_line_in_quoted, IH by (simpl in Hn; lia).
                 now rewrite !Hrev.
              ** assert (Hhd : exists c3 rest, escape_field (c2 :: f') ++ QUOTE :: tail = c3 :: rest
                                          /\ (c3 =? LF) = false).
                 { rewrite escape_field_cons. destruct (c2 =? QUOTE) eqn:Eq2.
                   - exists QUOTE. eexists. split; reflexivity.
                   - exists c2. eexists. split; [reflexivity|assumption]. }
                 destruct Hhd as (c3 & rest & Hhd & H3).
                 rewrite Hhd. rewrite scan_cr by assumption.
                 rewrite process_in_quoted by reflexivity.
                 cbn [bind]. rewrite end_line_in_quoted, <- Hhd.
                 rewrite IH by lia. now rewrite !Hrev.
        -- rewrite scan_char, process_in_quoted by assumption. cbn [bind].
           rewrite IH by lia. now rewrite !Hrev.
Qed.

Ltac reader_simpl :=
  unfold set_state, parse_add_char, parse_save_field;
  cbn [bind state fields field].

Lemma process_start_char (st : parser_state) (F : list str) (c : char) :
  st = START_FIELD \/ st = START_RECORD ->
  (c =? LF) = false -> (c =? CR) = false ->
  parse_process_char (Rd st F []) (Some c) = start_field (Rd st F []) (Some c).
Proof.
  intros [-> | ->] H1 H2; unfold parse_process_char, is_newline; cbn [state];
    [reflexivity|now rewrite H1, H2].
Qed.

(** a field followed by a comma *)
Lemma scan_field_comma (f : str) (st : parser_state) (F : list str) (b : bool)
      (tail : str) :
  st = START_FIELD \/ st = START_RECORD ->
  scan (Rd st F []) b (write_field f ++ COMMA :: tail)
  = scan (Rd START_FIELD (f :: F) []) true tail.
Proof.
  intros Hst. unfold write_field. destruct (needs_quotes f) eqn:Eq.
  - change ((QUOTE :: escape_field f ++ [QUOTE]) ++ COMMA :: tail)
      with (QUOTE :: ((escape_field f ++ [QUOTE]) ++ COMMA :: tail)).
    rewrite <- app_assoc. cbn [app].
    rewrite scan_char, process_start_char by (assumption || reflexivity).
    unfold start_field. change (is_newline QUOTE) with false.
    change (QUOTE =? QUOTE) with true. reader_simpl.
    rewrite scan_quoted with (n := length f) by apply le_n.
    rewrite app_nil_r.
    rewrite scan_char by reflexivity. unfold parse_process_char at 1.
    cbn [state]. change (QUOTE =? QUOTE) with true. reader_simpl.
    rewrite scan_char by reflexivity. unfold parse_process_char.
    cbn [state]. change (COMMA =? QUOTE) with false. change (COMMA =? COMMA) with true.
    reader_simpl.
    now rewrite rev_involutive.
  - destruct f as [|c f].
    + cbn [app]. rewrite scan_char, process_start_char by (assumption || reflexivity).
      reflexivity.
    + apply needs_quotes_false in Eq.
      rewrite scan_plain_start by assumption.
      rewrite scan_char by reflexivity. unfold parse_process_char.
      cbn [state]. change (is_newline COMMA) with false.
      change (COMMA =? COMMA) with true.
      reader_simpl.
      now rewrite rev_involutive.
Qed.

Lemma end_of_record (st : parser_state) (F : list str) (acc : str) (b : bool)
      (rest : str) :
  st = IN_FIELD \/ st = QUOTE_IN_QUOTED_FIELD \/ st = START_FIELD ->
  scan (Rd st F acc) b (CR :: LF :: rest)
  = rows <- scan parse_reset false rest ;; Ok (rev (rev acc :: F) :: rows).
Proof.
  intros [-> | [-> | ->]]; reflexivity.
Qed.

(** the last field of a record, followed by the line terminator *)
Lemma scan_field_crlf (f : str) (st : parser_state) (F : list str) (b : bool)
      (rest : str) :
  st = START_FIELD \/ (st = START_RECORD /\ f <> []) ->
  scan (Rd st F []) b (write_field f ++ CR :: LF :: rest)
  = rows <- scan parse_reset false rest ;; Ok (rev (f :: F) :: rows).
Proof.
  intros Hst.
  assert (Hst' : st = START_FIELD \/ st = START_RECORD) by tauto.
  unfold write_field. destruct (needs_quotes f) eqn:Eq.
  - change ((QUOTE :: escape_field f ++ [QUOTE]) ++ CR :: LF :: rest)
      with (QUOTE :: ((escape_field f ++ [QUOTE]) ++ CR :: LF :: rest)).
    rewrite <- app_assoc. cbn [app].
    rewrite scan_char, process_start_char by (assumption || reflexivity).
    unfold start_field. change (is_newline QUOTE) with false.
    change (QUOTE =? QUOTE) with true. reader_simpl.
    rewrite scan_quoted with (n := length f) by apply le_n.
    rewrite app_nil_r.
    rewrite scan_char by reflexivity. unfold parse_process_char at 1.
    cbn [state]. change (QUOTE =? QUOTE) with true. reader_simpl.
    rewrite end_of_record by tauto. now rewrite rev_involutive.
  - destruct f as [|c f].
    + cbn [app]. destruct Hst as [-> | [_ Hf]]; [|congruence].
      now rewrite end_of_record by tauto.
    + apply needs_quotes_false in Eq.
      rewrite scan_plain_start by assumption.
      rewrite end_of_record by tauto. now rewrite rev_involutive.
Qed.

Lemma join_cons2 (sep p q : str) (rest : list str) :
  join sep (p :: q :: rest) = p ++ sep ++ join sep (q :: rest).
Proof. reflexivity. Qed.

Lemma scan_fields (fs : list str) :
  forall (f : str) (st : parser_state) (F : list str) (b : bool) (rest : str),
    st = START_FIELD \/ (st = START_RECORD /\ (f <> [] \/ fs <> [])) ->
    scan (Rd st F []) b (join [COMMA] (map write_field (f :: fs)) ++ CR :: LF :: rest)
    = rows <- scan parse_reset false rest ;; Ok (rev (rev (f :: fs) ++ F) :: rows).
Proof.
  induction fs as [|f2 fs IH]; intros f st F b rest Hst.
  - cbn [map join]. rewrite scan_field_crlf.
    + reflexivity.
    + destruct Hst as [H | [H [H' | H']]]; [now left|now right|congruence].
  - cbn [map]. rewrite join_cons2, <- !app_assoc. cbn [app].
    rewrite scan_field_comma by tauto.
    change (write_field f2 :: map write_field fs) with (map write_field (f2 :: fs)).
    rewrite IH by now left.
    replace (rev (f2 :: fs) ++ f :: F) with (rev (f :: f2 :: fs) ++ F); [reflexivity|].
    cbn [rev]. now rewrite <- !app_assoc.
Qed.

(** A record the writer wrote is read back, and reading goes on with the
    text after it. *)
Lemma scan_writerow (row : list str) (rest : str) :
  row <> [] ->
  scan parse_reset false (writerow row ++ rest)
  = rows <- scan parse_reset false rest ;; Ok (row :: rows).
Proof.
  intros Hrow. destruct row as [|f fs]; [congruence|].
  assert (Hgen : f <> [] \/ fs <> [] ->
    scan parse_reset false
      ((join [COMMA] (map write_field (f :: fs)) ++ [CR; LF]) ++ rest)
    = rows <- scan parse_reset false rest ;; Ok ((f :: fs) :: rows)).
  { intros H. rewrite <- app_assoc. cbn [app]. unfold parse_reset.
    rewrite scan_fields by (right; split; [reflexivity|exact H]).
    now rewrite app_nil_r, rev_involutive. }
  unfold writerow. destruct f as [|c f].
  - destruct fs as [|f2 fs]; [reflexivity|].
    apply Hgen. right. congruence.
  - apply Hgen. left. congruence.
Qed.

(** Whatever the writer wrote is read back as it was. *)
Lemma writer_reader (rows : list (list str)) :
  csv_reader (flat_map writerow rows) = Ok rows.
Proof.
  rewrite csv_reader_scan.
  induction rows as [|row rows IH]; [reflexivity|].
  cbn [flat_map]. destruct row as [|f fs].
  - change (writerow [] ++ flat_map writerow rows)
      with (CR :: LF :: flat_map writerow rows).
    rewrite scan_cr_lf. change (parse_process_char parse_reset (Some CR))
      with (Ok (set_state parse_reset EAT_CRNL)).
    cbn [bind]. unfold end_line, next_record. cbn. now rewrite IH.
  - rewrite scan_writerow by discriminate. now rewrite IH.
Qed.

End Free.

(** ** The reader and the field size limit *)

(** A field, a record within the limit. *)
Definition fits (f : str) : bool := N.of_nat (length f) <=? field_limit.

Definition within_limit (row : list str) : Prop :=
  Forall (fun f => N.of_nat (length f) <= field_limit) row.

Lemma forallb_fits (row : list str) : forallb fits row = true <-> within_limit row.
Proof.
  unfold within_limit. rewrite forallb_forall, Forall_forall.
  split; intros H f Hf; specialize (H f Hf); unfold fits in *;
    [now apply N.leb_le|now apply N.leb_le].
Qed.

Lemma all_fit_spec (rows : list (list str)) :
  forallb (forallb fits) rows = true <-> Forall within_limit rows.
Proof.
  rewrite forallb_forall, Forall_forall.
  split; intros H row Hrow; apply forallb_fits; auto.
Qed.

(** The state of the reader without its counter. *)
Definition erase (rd : reader) : Free.reader :=
  {| Free.state := state rd; Free.fields := fields rd; Free.field := field rd |}.

(** The counter is the length of the buffer. *)
Definition counted (rd : reader) : Prop :=
  field_len rd = N.of_nat (length (field rd)).

(** The state holds no field over the limit. *)
Definition smallb (r : Free.reader) : bool :=
  fits (Free.field r) && forallb fits (Free.fields r).

(** Between fields the buffer is empty. *)
Definition buffer_ok (r : Free.reader) : Prop :=
  Free.state r = START_RECORD \/ Free.state r = EAT_CRNL -> Free.field r = [].

Lemma fits_rev (f : str) : fits (rev f) = fits f.
Proof. unfold fits. now rewrite length_rev. Qed.

Lemma fits_cons_false (c : char) (f : str) : fits f = false -> fits (c :: f) = false.
Proof.
  unfold fits. rewrite !N.leb_gt. simpl length. lia.
Qed.

Lemma forallb_rev {A : Type} (p : A -> bool) (l : list A) :
  forallb p (rev l) = forallb p l.
Proof.
  induction l as [|x l IH]; [reflexivity|]. cbn [rev forallb].
  rewrite forallb_app, IH. cbn. now rewrite andb_true_r, andb_comm.
Qed.

Ltac free_cases r c :=
  destruct r as [st F f]; unfold Free.parse_process_char, Free.start_field;
  cbn [Free.state]; destruct st; destruct c as [c|];
  try (destruct (is_newline c)); try (destruct (c =? QUOTE));
  try (destruct (c =? COMMA)).

(** A step keeps the buffer discipline. *)
Lemma step_buffer_ok (r r' : Free.reader) (c : option char) :
  buffer_ok r -> Free.parse_process_char r c = Ok r' -> buffer_ok r'.
Proof.
  unfold buffer_ok. free_cases r c; intros Hb [= <-]; cbn; intros [H|H];
    try discriminate H; try reflexivity; apply Hb; cbn; auto.
Qed.

(** A field over the limit stays in the state until the record ends. *)
Lemma step_big (r r' : Free.reader) (c : option char) :
  smallb r = false -> Free.parse_process_char r c = Ok r' -> smallb r' = false.
Proof.
  unfold smallb. free_cases r c; intros Hb [= <-]; cbn in *;
    rewrite ?fits_rev; try assumption;
    apply andb_false_iff in Hb as [Hb|Hb];
    rewrite ?Hb, ?(fits_cons_false _ _ Hb), ?andb_false_r; reflexivity.
Qed.

(** What a step of the reader is, seen from the reader without the limit:
    the same step, or the failure at the character that brings a field
    over the limit. *)
Definition same_step (r' : Free.reader) (res : result reader) : Prop :=
  (smallb r' = true /\
   exists rd', res = Ok rd' /\ erase rd' = r' /\ counted rd') \/
  (smallb r' = false /\ res = Raise field_limit_error).

Lemma step_small (rd : reader) (r' : Free.reader) (c : option char) :
  counted rd -> smallb (erase rd) = true ->
  Free.parse_process_char (erase rd) c = Ok r' ->
  same_step r' (parse_process_char rd c).
Proof.
  unfold same_step, smallb, counted.
  destruct rd as [st F f n]. cbn [field_len field erase Free.field Free.fields
                                                 state fields].
  intros -> Hs. apply andb_true_iff in Hs as [Hf HF].
  assert (Hadd : forall x : char,
             (field_limit <=? N.of_nat (length f)) = negb (fits (x :: f))).
  { intros x. unfold fits. simpl length.
    destruct (N.leb_spec field_limit (N.of_nat (length f)));
      destruct (N.leb_spec (N.of_nat (S (length f))) field_limit);
      try reflexivity; lia. }
  assert (Hlen : forall x : char,
             N.of_nat (length f) + 1 = N.of_nat (length (x :: f)))
    by (intros x; simpl length; lia).
  unfold Free.parse_process_char, Free.start_field, parse_process_char,
    start_field, parse_add_char.
  cbn [Free.state state field_len].
  destruct c as [c|].
  - destruct st;
      try (destruct (is_newline c)); try (destruct (c =? QUOTE));
      try (destruct (c =? COMMA));
      intros [= <-]; cbn;
      rewrite ?fits_rev, ?Hf, ?HF, ?(Hadd c); cbn;
      try (left; split; [reflexivity|eexists; split; [reflexivity|split; reflexivity]]);
      destruct (fits (c :: f)); cbn; rewrite ?HF;
      try (right; split; reflexivity);
      left; (split; [reflexivity|]); eexists; (split; [reflexivity|]);
      (split; [reflexivity|]); cbn; lia.
  - destruct st; intros [= <-]; cbn; rewrite ?fits_rev, ?Hf, ?HF; cbn;
      left; (split; [reflexivity|]); eexists; (split; [reflexivity|]);
      split; reflexivity.
Qed.

Lemma line_buffer_ok (line : str) :
  forall r r', buffer_ok r -> Free.process_line r line = Ok r' -> buffer_ok r'.
Proof.
  induction line as [|c line IH]; intros r r' Hb; cbn [Free.process_line].
  - now apply step_buffer_ok.
  - destruct (Free.parse_process_char r (Some c)) as [r1|] eqn:E; [|discriminate].
    cbn [bind]. apply IH. eapply step_buffer_ok; eassumption.
Qed.

Lemma line_big (line : str) :
  forall r r', smallb r = false -> Free.process_line r line = Ok r' ->
               smallb r' = false.
Proof.
  induction line as [|c line IH]; intros r r' Hb; cbn [Free.process_line].
  - now apply step_big.
  - destruct (Free.parse_process_char r (Some c)) as [r1|] eqn:E; [|discriminate].
    cbn [bind]. apply IH. eapply step_big; eassumption.
Qed.

Lemma line_small (line : str) :
  forall rd r', counted rd -> smallb (erase rd) = true ->
                Free.process_line (erase rd) line = Ok r' ->
                same_step r' (process_line rd line).
Proof.
  induction line as [|c line IH]; intros rd r' Hc Hs;
    cbn [Free.process_line process_line].
  - now apply step_small.
  - destruct (Free.parse_process_char (erase rd) (Some c)) as [r1|] eqn:E;
      [|discriminate].
    cbn [bind]. intros H.
    destruct (step_small _ Hc Hs E) as [(Hs1 & rd1 & -> & <- & Hc1)|[Hb1 ->]];
      cbn [bind].
    + now apply IH.
    + right. split; [|reflexivity]. eapply line_big; eassumption.
Qed.

(** After a line the parser is between records or inside quotes. *)
Lemma line_state (line : str) :
  forall r r', Free.process_line r line = Ok r' ->
               Free.state r' = START_RECORD \/ Free.state r' = IN_QUOTED_FIELD.
Proof.
  induction line as [|c line IH]; intros r r'; cbn [Free.process_line].
  - destruct r as [st F f]; unfold Free.parse_process_char, Free.start_field;
      cbn [Free.state]; destruct st; intros [= <-]; cbn; auto.
  - destruct (Free.parse_process_char r (Some c)) as [r1|]; [|discriminate].
    cbn [bind]. apply IH.
Qed.

Lemma state_eqb_eq (a b : parser_state) : state_eqb a b = true <-> a = b.
Proof. destruct a, b; cbn; split; congruence. Qed.

Lemma big_fields (r : Free.reader) :
  smallb r = false -> Free.field r = [] ->
  forallb fits (rev (Free.fields r)) = false.
Proof.
  unfold smallb. intros H E. rewrite E in H. cbn in H.
  rewrite forallb_rev. exact H.
Qed.

Lemma saved_fits (r : Free.reader) :
  forallb fits (rev (Free.fields (Free.parse_save_field r))) = smallb r.
Proof.
  unfold smallb. cbn. rewrite forallb_app. cbn.
  now rewrite forallb_rev, fits_rev, andb_true_r, andb_comm.
Qed.

(** A record that holds a field over the limit is yielded with it. *)
Lemma records_big (lines : list str) :
  forall r rows,
    Free.state r = IN_QUOTED_FIELD -> smallb r = false ->
    Free.read_records r lines = Ok rows ->
    forallb (forallb fits) rows = false.
Proof.
  induction lines as [|line rest IH]; intros r rows Hst Hb; cbn [Free.read_records].
  - rewrite Hst. cbn [state_eqb]. intros H.
    pose proof (saved_fits r) as Hsv. rewrite Hb in Hsv.
    remember (rev (Free.fields (Free.parse_save_field r))) as row eqn:Erow. clear Erow.
    assert (rows = [row]) as -> by (destruct (Free.field r); congruence).
    cbn [forallb]. now rewrite Hsv.
  - destruct (Free.process_line r line) as [r'|] eqn:E; [|discriminate]. cbn [bind].
    assert (Hb' : smallb r' = false) by (eapply line_big; eassumption).
    assert (Hok : buffer_ok r').
    { eapply line_buffer_ok; [|eassumption]. unfold buffer_ok. rewrite Hst.
      intros [H|H]; discriminate H. }
    destruct (state_eqb (Free.state r') START_RECORD) eqn:Es.
    + apply state_eqb_eq in Es.
      destruct (Free.read_records Free.parse_reset rest) as [rows'|]; [|discriminate].
      cbn [bind]. intros [= <-]. cbn [forallb].
      rewrite big_fields; auto.
    + apply IH; [|assumption].
      destruct (line_state _ _ E) as [H|H]; [|assumption].
      apply state_eqb_eq in H. congruence.
Qed.

Lemma erase_reset : erase parse_reset = Free.parse_reset.
Proof. reflexivity. Qed.

Lemma records_small (lines : list str) :
  forall rd rows,
    state rd = IN_QUOTED_FIELD \/ rd = parse_reset ->
    counted rd -> smallb (erase rd) = true ->
    Free.read_records (erase rd) lines = Ok rows ->
    read_records rd lines =
    if forallb (forallb fits) rows then Ok rows else Raise field_limit_error.
Proof.
  induction lines as [|line rest IH]; intros rd rows Hst Hc Hs;
    cbn [Free.read_records read_records].
  - intros H.
    assert (E1 : rev (fields (parse_save_field rd))
                 = rev (Free.fields (Free.parse_save_field (erase rd)))) by reflexivity.
    change (Free.field (erase rd)) with (field rd) in H.
    change (Free.state (erase rd)) with (state rd) in H.
    rewrite E1.
    pose proof (saved_fits (erase rd)) as Hsv. rewrite Hs in Hsv.
    remember (rev (Free.fields (Free.parse_save_field (erase rd)))) as row eqn:Erow.
    clear Erow E1.
    assert (Hrows : forallb (forallb fits) rows = true).
    { destruct (field rd); [destruct (state_eqb (state rd) IN_QUOTED_FIELD)|];
        injection H as <-; cbn [forallb]; rewrite ?Hsv; reflexivity. }
    rewrite Hrows. exact H.
  - destruct (Free.process_line (erase rd) line) as [r'|] eqn:E; [|discriminate].
    cbn [bind].
    assert (Hok : buffer_ok r').
    { eapply line_buffer_ok; [|eassumption]. unfold buffer_ok.
      destruct Hst as [H| ->]; [|reflexivity].
      cbn [erase Free.state]. rewrite H. intros [H'|H']; discriminate H'. }
    destruct (line_small _ Hc Hs E) as [(Hs' & rd' & -> & <- & Hc')|[Hb' ->]];
      cbn [bind].
    + change (Free.state (erase rd')) with (state rd').
      destruct (state_eqb (state rd') START_RECORD) eqn:Es.
      * destruct (Free.read_records Free.parse_reset rest) as [rows'|] eqn:Er;
          [|discriminate].
        cbn [bind]. intros [= <-].
        rewrite (IH parse_reset rows') by (auto; reflexivity). cbn [forallb].
        change (Free.fields (erase rd')) with (fields rd').
        assert (Hrow : forallb fits (rev (fields rd')) = true).
        { rewrite forallb_rev. unfold smallb in Hs'.
          now apply andb_true_iff in Hs' as [_ ?]. }
        rewrite Hrow. cbn [andb].
        destruct (forallb (forallb fits) rows'); reflexivity.
      * intros H. apply IH; try assumption.
        destruct (line_state _ _ E) as [H'|H']; [|now left].
        cbn [erase Free.state] in H'. apply state_eqb_eq in H'. congruence.
    + destruct (state_eqb (Free.state r') START_RECORD) eqn:Es.
      * destruct (Free.read_records Free.parse_reset rest) as [rows'|]; [|discriminate].
        cbn [bind]. intros [= <-]. cbn [forallb].
        apply state_eqb_eq in Es. rewrite big_fields; auto.
      * intros H. erewrite records_big; [reflexivity| |exact Hb'|exact H].
        destruct (line_state _ _ E) as [H'|H']; [|assumption].
        apply state_eqb_eq in H'. congruence.
Qed.

(** The reader yields the records of the reader without the limit when
    every field has at most 131072 characters, and raises the field-limit
    error when one has more. *)
Lemma csv_reader_free (content : str) (rows : list (list str)) :
  Free.csv_reader content = Ok rows ->
  csv_reader content =
  if forallb (forallb fits) rows then Ok rows else Raise field_limit_error.
Proof.
  unfold csv_reader, Free.csv_reader. rewrite <- erase_reset.
  apply records_small; auto; reflexivity.
Qed.

(** The two outcomes of reading a text file. *)
Lemma csv_reader_outcomes (content : str) :
  (exists rows, csv_reader content = Ok rows /\ Forall within_limit rows) \/
  csv_reader content = Raise field_limit_error.
Proof.
  destruct (Free.csv_reader_ok content) as [rows H].
  rewrite (csv_reader_free _ H).
  destruct (forallb (forallb fits) rows) eqn:E; [|now right].
  left. exists rows. split; [reflexivity|now apply all_fit_spec].
Qed.

Lemma written_readable (rows : list (list str)) :
  Forall within_limit rows -> csv_reader (flat_map writerow rows) = Ok rows.
Proof.
  intros H. rewrite (csv_reader_free _ (Free.writer_reader rows)).
  now rewrite (proj2 (all_fit_spec rows) H).
Qed.

Lemma written_unreadable (rows : list (list str)) :
  ~ Forall within_limit rows ->
  csv_reader (flat_map writerow rows) = Raise field_limit_error.
Proof.
  intros H. rewrite (csv_reader_free _ (Free.writer_reader rows)).
  destruct (forallb (forallb fits) rows) eqn:E; [|reflexivity].
  exfalso. apply H. now apply all_fit_spec.
Qed.

(** ** The ledger: reading *)

(** A store the reader can read: absent, or with every field within the
    limit. *)
Definition readable (path : store) : Prop :=
  match path with
  | None => True
  | Some content => exists rows, csv_reader content = Ok rows
  end.

Lemma readable_dec (path : store) : readable path \/ ~ readable path.
Proof.
  destruct path as [content|]; [|left; exact I].
  destruct (csv_reader content) as [rows|e] eqn:E.
  - left. exists rows. exact E.
  - right. intros [rows H]. simpl in H. congruence.
Qed.

Lemma unreadable_reader (content : str) :
  ~ readable (Some content) -> csv_reader content = Raise field_limit_error.
Proof.
  intros H. destruct (csv_reader_outcomes content) as [(rows & E & _)|E]; [|exact E].
  exfalso. apply H. now exists rows.
Qed.

Lemma read_last_row_readable (path : store) :
  readable path -> exists last, read_last_row path = Ok last.
Proof.
  destruct path as [content|]; [|now exists None].
  intros [rows H]. unfold read_last_row. rewrite H. cbn [bind]. eauto.
Qed.

Lemma read_last_row_unreadable (path : store) :
  ~ readable path -> read_last_row path = Raise field_limit_error.
Proof.
  destruct path as [content|]; [|intros H; exfalso; apply H; exact I].
  intros H. unfold read_last_row. now rewrite unreadable_reader.
Qed.

Lemma read_last_row_ok_readable (path : store) (last : option (list str)) :
  read_last_row path = Ok last -> readable path.
Proof.
  destruct path as [content|]; [|intros _; exact I].
  unfold read_last_row.
  destruct (csv_reader content) as [rows|e] eqn:E; [|discriminate].
  intros _. now exists rows.
Qed.

Lemma empty_reader : csv_reader [] = Ok [].
Proof. reflexivity. Qed.

(** No record can be read from an empty file, so a store that has a last
    row is not empty. *)
Lemma read_last_row_some (path : store) (row : list str) :
  read_last_row path = Ok (Some row) -> exists c content, path = Some (c :: content).
Proof.
  destruct path as [[|c content]|]; [discriminate|eauto|discriminate].
Qed.

Definition is_data_row (row : list str) : Prop :=
  match row with
  | [] => False
  | first :: _ => first <> u "retrieved_at"
  end.

Definition is_data_rowb (row : list str) : bool :=
  match row with
  | [] => false
  | first :: _ => negb (str_eqb first (u "retrieved_at"))
  end.

Lemma is_data_rowb_spec (row : list str) :
  is_data_rowb row = true <-> is_data_row row.
Proof.
  destruct row as [|f fs]; simpl; [split; [discriminate|tauto]|].
  rewrite negb_true_iff. apply str_eqb_neq.
Qed.

Lemma is_data_rowb_false (row : list str) :
  is_data_rowb row = false <-> ~ is_data_row row.
Proof.
  rewrite <- is_data_rowb_spec. destruct (is_data_rowb row); split; congruence.
Qed.

Lemma data_row_nonempty (row : list str) : is_data_row row -> row <> [].
Proof. destruct row; simpl; [tauto|congruence]. Qed.

Lemma keep_last_cases (last : option (list str)) (row : list str) :
  keep_last last row = if is_data_rowb row then Some row else last.
Proof.
  destruct row as [|f fs]; simpl; [reflexivity|].
  now destruct (str_eqb f (u "retrieved_at")).
Qed.

Lemma find_snoc {A : Type} (f : A -> bool) (l : list A) (x : A) :
  find f (l ++ [x]) =
  match find f l with
  | Some y => Some y
  | None => if f x then Some x else None
  end.
Proof.
  induction l as [|a l IH]; simpl; [reflexivity|]. now destruct (f a).
Qed.

(** The loop of [read_last_row]: the last of the records that is a data
    row, if there is one. *)
Lemma fold_keep_last (rows : list (list str)) :
  forall acc,
    fold_left keep_last rows acc =
    match find is_data_rowb (rev rows) with
    | Some row => Some row
    | None => acc
    end.
Proof.
  induction rows as [|r rows IH]; intros acc; [reflexivity|].
  cbn [fold_left rev]. rewrite IH, find_snoc, keep_last_cases.
  destruct (find is_data_rowb (rev rows)); [reflexivity|].
  now destruct (is_data_rowb r).
Qed.

Lemma read_last_row_written (rows : list (list str)) :
  Forall within_limit rows ->
  read_last_row (Some (flat_map writerow rows))
  = Ok (find is_data_rowb (rev rows)).
Proof.
  intros H. unfold read_last_row. rewrite (written_readable H).
  cbn [bind]. rewrite fold_keep_last. now destruct (find is_data_rowb (rev rows)).
Qed.


(** ** The ledger: writing *)

(** A text, a row without surrogate code points. *)
Definition encodable (s : str) : bool := forallb (fun c => negb (is_surrogate c)) s.

Definition row_encodable (row : list str) : bool := forallb encodable row.

Lemma encode_error_none (s : str) :
  forall pos, encodable s = true -> encode_error pos s = None.
Proof.
  induction s as [|c s IH]; intros pos H; [reflexivity|].
  cbn [encodable forallb] in H. apply andb_true_iff in H as [Hc Hs].
  apply negb_true_iff in Hc. cbn [encode_error]. rewrite Hc. now apply IH.
Qed.

Lemma encode_error_some (s : str) :
  forall pos, encodable s = false -> exists msg, encode_error pos s = Some (ValueError msg).
Proof.
  induction s as [|c s IH]; intros pos H; [discriminate H|].
  cbn [encodable forallb] in H. cbn [encode_error].
  destruct (is_surrogate c); [eauto|]. cbn [negb andb] in H. now apply IH.
Qed.

Lemma encodable_app (a b : str) : encodable (a ++ b) = encodable a && encodable b.
Proof. apply forallb_app. Qed.

Lemma encodable_write_field (f : str) : encodable (write_field f) = encodable f.
Proof.
  unfold write_field. destruct (needs_quotes f); [|reflexivity].
  change (QUOTE :: escape_field f ++ [QUOTE]) with ([QUOTE] ++ escape_field f ++ [QUOTE]).
  rewrite !encodable_app. change (encodable [QUOTE]) with true.
  rewrite andb_true_r. cbn [andb].
  unfold escape_field. induction f as [|c f IH]; [reflexivity|].
  cbn [flat_map]. rewrite encodable_app, IH. cbn [encodable forallb].
  destruct (N.eqb_spec c QUOTE) as [-> | _]; cbn [encodable forallb app];
    [reflexivity|now rewrite andb_true_r].
Qed.

Lemma encodable_join (parts : list str) :
  encodable (join [COMMA] parts) = forallb encodable parts.
Proof.
  induction parts as [|p parts IH]; [reflexivity|].
  destruct parts as [|q parts]; [cbn; now rewrite andb_true_r|].
  change (join [COMMA] (p :: q :: parts)) with (p ++ [COMMA] ++ join [COMMA] (q :: parts)).
  rewrite !encodable_app, IH. reflexivity.
Qed.

(** The line of a row can be encoded exactly when its fields can. *)
Lemma encodable_writerow (row : list str) :
  encodable (writerow row) = row_encodable row.
Proof.
  unfold writerow, row_encodable. rewrite encodable_app.
  change (encodable [CR; LF]) with true. rewrite andb_true_r.
  assert (H : encodable (join [COMMA] (map write_field row)) = forallb encodable row).
  { rewrite encodable_join. clear. induction row as [|f row IH]; [reflexivity|].
    cbn [map forallb]. now rewrite encodable_write_field, IH. }
  destruct row as [|[|c f] [|g row]]; exact H.
Qed.

Lemma file_write_ok (content text : str) :
  encodable text = true -> file_write content text = Ok (content ++ text).
Proof. intros H. unfold file_write. now rewrite encode_error_none. Qed.

Lemma file_write_fails (content text : str) :
  encodable text = false -> exists msg, file_write content text = Raise (ValueError msg).
Proof.
  intros H. unfold file_write.
  destruct (@encode_error_some text 0 H) as [msg ->]. eauto.
Qed.

Lemma header_written (content : str) :
  file_write content (writerow HEADER) = Ok (content ++ writerow HEADER).
Proof. apply file_write_ok. vm_compute. reflexivity. Qed.

(** The text of the store before a call, and once the file is open for
    appending and the header line, if it is due, is written. *)
Definition content_of (path : store) : str :=
  match path with Some content => content | None => [] end.

Definition with_header (path : store) : str :=
  match content_of path with
  | [] => writerow HEADER
  | content => content
  end.

Definition same_as_last (last : option (list str)) (row : list str) : bool :=
  match last with Some l => row_eqb l row | None => false end.

Lemma same_as_last_true (last : option (list str)) (row : list str) :
  same_as_last last row = true <-> last = Some row.
Proof.
  destruct last as [l|]; simpl; [|split; discriminate].
  rewrite row_eqb_eq. split; congruence.
Qed.

Lemma same_as_last_false (last : option (list str)) (row : list str) :
  same_as_last last row = false <-> last <> Some row.
Proof.
  rewrite <- same_as_last_true. destruct (same_as_last last row); split; congruence.
Qed.

(** [append_row_if_changed], case by case. *)
Lemma append_unreadable (path : store) (row : list str) :
  ~ readable path ->
  append_row_if_changed path row = (Raise field_limit_error, path).
Proof.
  intros H. unfold append_row_if_changed. now rewrite read_last_row_unreadable.
Qed.

Lemma append_unchanged (path : store) (row : list str) :
  read_last_row path = Ok (Some row) ->
  append_row_if_changed path row = (Ok false, path).
Proof.
  intros H. unfold append_row_if_changed. rewrite H.
  now rewrite (proj2 (row_eqb_eq row row) eq_refl).
Qed.

Lemma append_open (path : store) (row : list str) (last : option (list str)) :
  read_last_row path = Ok last -> last <> Some row ->
  append_row_if_changed path row
  = match file_write (with_header path) (writerow row) with
    | Raise e => (Raise e, Some (with_header path))
    | Ok content => (Ok true, Some content)
    end.
Proof.
  intros H Hne. unfold append_row_if_changed. rewrite H.
  fold (same_as_last last row). rewrite (proj2 (same_as_last_false last row) Hne).
  unfold with_header, content_of.
  destruct path as [[|c content]|]; try reflexivity;
    now rewrite (header_written []).
Qed.

Lemma append_changed (path : store) (row : list str) (last : option (list str)) :
  read_last_row path = Ok last -> last <> Some row ->
  row_encodable row = true ->
  append_row_if_changed path row
  = (Ok true, Some (with_header path ++ writerow row)).
Proof.
  intros H Hne He. rewrite (append_open _ H Hne).
  rewrite file_write_ok; [reflexivity|]. now rewrite encodable_writerow.
Qed.

Lemma append_unencodable (path : store) (row : list str) (last : option (list str)) :
  read_last_row path = Ok last -> last <> Some row ->
  row_encodable row = false ->
  exists msg,
    append_row_if_changed path row
    = (Raise (ValueError msg), Some (with_header path)).
Proof.
  intros H Hne He. rewrite (append_open _ H Hne).
  destruct (@file_write_fails (with_header path) (writerow row)) as [msg ->];
    [now rewrite encodable_writerow|]. eauto.
Qed.

Lemma option_eq_dec (last : option (list str)) (row : list str) :
  last = Some row \/ last <> Some row.
Proof.
  destruct last as [l|]; [|right; discriminate].
  destruct (row_eqb l row) eqn:E.
  - left. apply row_eqb_eq in E. now subst.
  - right. apply row_eqb_neq in E. congruence.
Qed.

(** The header line is written to an absent or empty file only. *)
Lemma with_header_nonempty (c : char) (content : str) :
  with_header (Some (c :: content)) = c :: content.
Proof. reflexivity. Qed.

(** ** The ledger writer: the claims *)

Definition sample_sentence : str :=
  u "Derzeit werden Anträge mit Eingangsdatum bis Ende April 2023 bearbeitet (Stand: 28.08.2025).".

Definition sample_row : list str :=
  [u "2025-02-22"; u "2025-08-28"; sample_sentence; u "2023-04-30"].

(** The same status, retrieved a day later. *)
Definition sample_row_next_day : list str :=
  [u "2025-02-23"; u "2025-08-28"; sample_sentence; u "2023-04-30"].

Definition sample_store : str := writerow HEADER ++ writerow sample_row.

(** A row with a status text of 131073 characters, one more than the
    reader accepts in a field. *)
Definition oversized_row : list str :=
  [u "2025-02-22"; u "2025-08-28"; repeat 0x61 (N.to_nat 131073); u "2023-04-30"].

(** C1, as stated, fails: a row that differs from the last stored row in
    the retrieved_at column only is written. *)
Lemma retrieved_at_is_compared :
  read_last_row (Some sample_store) = Ok (Some sample_row) /\
  tl sample_row_next_day = tl sample_row /\
  append_row_if_changed (Some sample_store) sample_row_next_day
  = (Ok true, Some (sample_store ++ writerow sample_row_next_day)).
Proof. repeat split; vm_compute; reflexivity. Qed.

(** C1, as the code has it: nothing is written, and false is returned,
    exactly when the last stored row equals the candidate row in all four
    columns.  A candidate that differs from it in the retrieved_at column
    is appended, and true is returned, when its line can be encoded as
    UTF-8; when a field holds a surrogate code point the write raises
    [UnicodeEncodeError] and the file is left as it was. *)
Theorem append_compares_whole_row (path : store) (row : list str) :
  (append_row_if_changed path row = (Ok false, path) <->
   read_last_row path = Ok (Some row)) /\
  (forall retrieved_at retrieved_at' rest,
      row = retrieved_at' :: rest ->
      read_last_row path = Ok (Some (retrieved_at :: rest)) ->
      retrieved_at' <> retrieved_at ->
      exists content,
        path = Some content /\
        (row_encodable row = true ->
         append_row_if_changed path row = (Ok true, Some (content ++ writerow row))) /\
        (row_encodable row = false ->
         exists msg,
           append_row_if_changed path row = (Raise (ValueError msg), Some content))).
Proof.
  split.
  - split; [|apply append_unchanged].
    destruct (readable_dec path) as [Hr|Hn].
    + destruct (read_last_row_readable _ Hr) as [last Hl].
      destruct (option_eq_dec last row) as [-> | Hne]; [auto|].
      rewrite (append_open _ Hl Hne).
      destruct (file_write (with_header path) (writerow row)); discriminate.
    + rewrite (@append_unreadable path row Hn). discriminate.
  - intros r r' rest -> Hl Hne.
    destruct (read_last_row_some _ Hl) as (c & content & ->).
    exists (c :: content). split; [reflexivity|].
    assert (Hd : Some (r :: rest) <> Some (r' :: rest)) by congruence.
    split; intros He.
    + now rewrite (append_changed _ Hl Hd He).
    + destruct (append_unencodable _ Hl Hd He) as [msg ->]. eauto.
Qed.

(** C5, as stated, fails: a row with a surrogate code point is not
    written; the call raises, and the new file holds the header line
    only. *)
Lemma first_write_unencodable :
  append_row_if_changed None [[0xD800]]
  = (Raise (ValueError (u "'utf-8' codec can't encode character '\ud800' in position 0: surrogates not allowed")),
     Some (writerow HEADER)) /\
  writerow HEADER = u "retrieved_at,stand_date,status_text,target_date" ++ [CR; LF].
Proof. split; vm_compute; reflexivity. Qed.

Lemma first_write_read (row : list str) :
  within_limit row ->
  csv_reader (writerow HEADER ++ writerow row) = Ok [HEADER; row].
Proof.
  intros H.
  replace (writerow HEADER ++ writerow row) with (flat_map writerow [HEADER; row])
    by (cbn [flat_map]; now rewrite app_nil_r).
  apply written_readable. constructor; [|constructor; [assumption|constructor]].
  apply forallb_fits. vm_compute. reflexivity.
Qed.

(** C5, as the code has it: appending a row without surrogate code points
    to an absent store, or to an empty one, leaves the header line followed
    by the line of the row, and returns true; with fields within the limit
    of the reader the file reads back as the header and that row.  A row
    with a surrogate code point makes the call raise, and the header line
    alone is left. *)
Theorem first_write (row : list str) :
  writerow HEADER
  = u "retrieved_at,stand_date,status_text,target_date" ++ [CR; LF] /\
  (row_encodable row = true ->
   append_row_if_changed None row
   = (Ok true, Some (writerow HEADER ++ writerow row)) /\
   append_row_if_changed (Some []) row
   = (Ok true, Some (writerow HEADER ++ writerow row))) /\
  (row_encodable row = false ->
   exists msg,
     append_row_if_changed None row = (Raise (ValueError msg), Some (writerow HEADER)) /\
     append_row_if_changed (Some []) row
     = (Raise (ValueError msg), Some (writerow HEADER))) /\
  (within_limit row ->
   csv_reader (writerow HEADER ++ writerow row) = Ok [HEADER; row]).
Proof.
  assert (Hnone : read_last_row None = Ok None) by reflexivity.
  assert (Hempty : read_last_row (Some []) = Ok None) by reflexivity.
  assert (Hne : @None (list str) <> Some row) by discriminate.
  split; [reflexivity|]. split; [|split; [|apply first_write_read]].
  - intros He. split; [apply (append_changed _ Hnone Hne He)|
                       apply (append_changed _ Hempty Hne He)].
  - intros He. rewrite (append_open _ Hnone Hne), (append_open _ Hempty Hne).
    change (with_header None) with (writerow HEADER).
    change (with_header (Some [])) with (writerow HEADER).
    destruct (@file_write_fails (writerow HEADER) (writerow row)) as [msg ->];
      [now rewrite encodable_writerow|]. eauto.
Qed.

(** Every row [main] assembles is a data row: its first field is a date. *)
Lemma digits_of_digits (fuel : nat) :
  forall n acc,
    Forall (fun c => 0x30 <= c <= 0x39) acc ->
    Forall (fun c => 0x30 <= c <= 0x39) (digits_of fuel n acc).
Proof.
  induction fuel as [|fuel IH]; intros n acc Hacc; cbn [digits_of]; [assumption|].
  assert (H : Forall (fun c => 0x30 <= c <= 0x39) (0x30 + n mod 10 :: acc)).
  { constructor; [|assumption].
    assert (Hr : n mod 10 < 10) by (apply N.mod_upper_bound; discriminate).
    cbv beta. revert Hr. generalize (n mod 10). intros r Hr. lia. }
  cbv zeta. destruct (n / 10 =? 0); auto.
Qed.

Lemma digits_of_nonempty (fuel : nat) (n : N) (acc : str) :
  digits_of (S fuel) n acc <> [].
Proof.
  revert n acc. induction fuel as [|fuel IH]; intros n acc.
  - simpl. destruct (n / 10 =? 0); discriminate.
  - change (digits_of (S (S fuel)) n acc)
      with (if n / 10 =? 0 then 0x30 + n mod 10 :: acc
            else digits_of (S fuel) (n / 10) (0x30 + n mod 10 :: acc)).
    destruct (n / 10 =? 0); [discriminate|apply IH].
Qed.

Lemma isoformat_first (d : date) :
  exists c rest, isoformat d = c :: rest /\ 0x30 <= c <= 0x39.
Proof.
  unfold isoformat, zfill.
  remember (str_of_int (year d)) as s eqn:Es.
  assert (Hd : Forall (fun c => 0x30 <= c <= 0x39) s).
  { subst s. apply digits_of_digits. constructor. }
  assert (Hn : s <> []) by (subst s; apply digits_of_nonempty).
  destruct (repeat 0x30 (4 - length s)) as [|z zs] eqn:Ez.
  - destruct s as [|c rest]; [congruence|].
    apply Forall_inv in Hd. cbn [app].
    exists c. eexists. split; [reflexivity|exact Hd].
  - assert (z = 0x30) as ->.
    { apply (repeat_spec (4 - length s) 0x30). rewrite Ez. now left. }
    cbn [app]. eexists. eexists. split; [reflexivity|lia].
Qed.

Lemma ledger_row_is_data_row (today : date) (rest : list str) :
  is_data_row (isoformat today :: rest).
Proof.
  destruct (isoformat_first today) as (c & r & E & Hc). simpl. rewrite E.
  intros H. apply (f_equal (@hd char 0)) in H. simpl in H.
  change (hd 0 (u "retrieved_at")) with 114 in H. lia.
Qed.

Lemma read_first_write (row : list str) :
  within_limit row -> is_data_row row ->
  read_last_row (Some (writerow HEADER ++ writerow row)) = Ok (Some row).
Proof.
  intros Hfit Hrow. unfold read_last_row. rewrite (first_write_read Hfit).
  cbn [bind fold_left]. rewrite !keep_last_cases.
  change (is_data_rowb HEADER) with false.
  now rewrite (proj2 (is_data_rowb_spec row) Hrow).
Qed.

Lemma oversized_row_facts :
  row_encodable oversized_row = true /\ is_data_row oversized_row /\
  ~ within_limit oversized_row.
Proof.
  split; [vm_compute; reflexivity|]. split; [vm_compute; discriminate|].
  intros H. apply forallb_fits in H. vm_compute in H. discriminate H.
Qed.

Lemma oversized_store_unreadable (rows : list (list str)) :
  ~ readable (Some (flat_map writerow (rows ++ [oversized_row]))).
Proof.
  intros [rows' H]. rewrite written_unreadable in H; [discriminate H|].
  intros Hl. apply Forall_app in Hl as [_ Hl]. apply Forall_inv in Hl.
  now apply oversized_row_facts.
Qed.

(** C4, as stated, fails.  A row whose first field is the header word is
    written again by the second call, and after a row with a field over
    the limit of the reader the second call raises. *)
Lemma same_row_appended_twice :
  (append_row_if_changed None HEADER
   = (Ok true, Some (writerow HEADER ++ writerow HEADER)) /\
   append_row_if_changed (Some (writerow HEADER ++ writerow HEADER)) HEADER
   = (Ok true, Some (writerow HEADER ++ writerow HEADER ++ writerow HEADER))) /\
  (append_row_if_changed None oversized_row
   = (Ok true, Some (writerow HEADER ++ writerow oversized_row)) /\
   append_row_if_changed (Some (writerow HEADER ++ writerow oversized_row)) oversized_row
   = (Raise field_limit_error, Some (writerow HEADER ++ writerow oversized_row))).
Proof.
  split; [split; vm_compute; reflexivity|].
  destruct oversized_row_facts as (He & _ & _).
  split.
  - assert (Hnone : read_last_row None = Ok None) by reflexivity.
    apply (append_changed _ Hnone); [discriminate|exact He].
  - apply append_unreadable.
    replace (writerow HEADER ++ writerow oversized_row)
      with (flat_map writerow ([HEADER] ++ [oversized_row]))
      by (cbn [flat_map app]; now rewrite app_nil_r).
    apply oversized_store_unreadable.
Qed.

(** C4, as the code has it: on a new or empty store, the first append of a
    data row (not empty, its first field not the header word) whose fields
    hold no surrogate code point and at most 131072 characters writes it
    and returns true; the second append of the same row returns false and
    leaves the store as it is, with the header and that one row. *)
Theorem append_twice (path : store) (row : list str) :
  path = None \/ path = Some [] ->
  is_data_row row -> within_limit row -> row_encodable row = true ->
  exists written,
    append_row_if_changed path row = (Ok true, Some written) /\
    append_row_if_changed (Some written) row = (Ok false, Some written) /\
    written = writerow HEADER ++ writerow row /\
    csv_reader written = Ok [HEADER; row].
Proof.
  intros Hpath Hrow Hfit He. exists (writerow HEADER ++ writerow row).
  assert (Hne : @None (list str) <> Some row) by discriminate.
  split; [|split; [|split; [reflexivity|now apply first_write_read]]].
  - destruct Hpath as [-> | ->].
    + now apply (@append_changed None row None).
    + now apply (@append_changed (Some []) row None).
  - apply append_unchanged. now apply read_first_write.
Qed.

Lemma append_twice_witness :
  append_row_if_changed None sample_row = (Ok true, Some sample_store) /\
  append_row_if_changed (Some sample_store) sample_row = (Ok false, Some sample_store) /\
  csv_reader sample_store = Ok [HEADER; sample_row].
Proof.
  assert (Hrow : is_data_row sample_row) by (vm_compute; discriminate).
  assert (Hfit : within_limit sample_row) by (apply forallb_fits; vm_compute; reflexivity).
  assert (He : row_encodable sample_row = true) by (vm_compute; reflexivity).
  destruct (@append_twice None sample_row (or_introl eq_refl) Hrow Hfit He)
    as (written & H1 & H2 & E & H3).
  change (writerow HEADER ++ writerow sample_row) with sample_store in E.
  subst written. auto.
Defined.

(** ** The orchestrator: the claims *)

(** The text of a date holds digits and hyphens: it can always be
    encoded. *)
Lemma isoformat_encodable (d : date) : encodable (isoformat d) = true.
Proof.
  assert (Hd : forall s, Forall (fun c => 0x30 <= c <= 0x39) s -> encodable s = true).
  { intros s H. unfold encodable. apply forallb_forall. intros c Hc.
    rewrite Forall_forall in H. specialize (H c Hc). unfold is_surrogate.
    apply negb_true_iff, andb_false_iff. left. apply N.leb_gt. lia. }
  assert (Hz : forall k n, encodable (zfill k (str_of_int n)) = true).
  { intros k n. apply Hd. unfold zfill. apply Forall_app. split.
    - apply Forall_forall. intros c Hc. apply repeat_spec in Hc as ->. lia.
    - apply digits_of_digits. constructor. }
  unfold isoformat. rewrite !encodable_app, !Hz. reflexivity.
Qed.

Lemma row_encodable_sentence (today sd td : date) (sentence : str) :
  row_encodable [isoformat today; isoformat sd; sentence; isoformat td]
  = encodable sentence.
Proof.
  unfold row_encodable. cbn [forallb]. rewrite !isoformat_encodable.
  cbn [andb]. now rewrite andb_true_r.
Qed.

(** What the parser reports for the page of the test suite. *)
Definition SAMPLE_HTML : list callback :=
  [ handle_starttag (u "html") []; handle_starttag (u "body") [];
    handle_starttag (u "p") []; handle_data sample_sentence;
    handle_endtag (u "p"); handle_endtag (u "body"); handle_endtag (u "html") ].

Definition sample_day : date := {| year := 2025; month := 2; day := 22 |}.

Section Run.

Variable fetch_html : str -> result str.
Variable html_parser : str -> list callback.
Variables (url csv_path : str) (today : date) (csv : store).

(** The run that reports a failure. *)
Definition failure_run (err : exn) : run :=
  {| exit_status := Ok 1; stdout := [];
     stderr := [u "error: " ++ exn_message err]; csv_after := csv |}.

Lemma main_failure (err : exn) :
  collect_status fetch_html html_parser url = Raise err ->
  main fetch_html html_parser url csv_path today csv = failure_run err.
Proof. intros H. unfold main. now rewrite H. Qed.

Lemma collect_status_steps (html sentence : str) (sd td : date) :
  fetch_html url = Ok html ->
  extract_status_sentence (html_parser html) = Ok sentence ->
  parse_stand_date sentence = Ok sd ->
  parse_target_date sentence = Ok td ->
  collect_status fetch_html html_parser url = Ok (sentence, sd, td).
Proof.
  intros H1 H2 H3 H4. unfold collect_status.
  rewrite H1. cbn [bind]. rewrite H2. cbn [bind]. rewrite H3. cbn [bind].
  now rewrite H4.
Qed.

Lemma collect_status_ok (sentence : str) (sd td : date) :
  collect_status fetch_html html_parser url = Ok (sentence, sd, td) ->
  exists html,
    fetch_html url = Ok html /\
    extract_status_sentence (html_parser html) = Ok sentence /\
    parse_stand_date sentence = Ok sd /\ parse_target_date sentence = Ok td.
Proof.
  unfold collect_status. intros H.
  destruct (fetch_html url) as [html|] eqn:E1; [|discriminate H]. cbn [bind] in H.
  destruct (extract_status_sentence (html_parser html)) as [s|] eqn:E2;
    [|discriminate H].
  cbn [bind] in H.
  destruct (parse_stand_date s) as [d1|] eqn:E3; [|discriminate H]. cbn [bind] in H.
  destruct (parse_target_date s) as [d2|] eqn:E4; [|discriminate H]. cbn [bind] in H.
  injection H as -> -> ->. exists html. auto.
Qed.

(** The run once the status is there. *)
Lemma main_collected (sentence : str) (sd td : date) :
  collect_status fetch_html html_parser url = Ok (sentence, sd, td) ->
  main fetch_html html_parser url csv_path today csv
  = match append_row_if_changed csv
            [isoformat today; isoformat sd; sentence; isoformat td] with
    | (Raise e, csv') =>
      {| exit_status := Raise e; stdout := []; stderr := []; csv_after := csv' |}
    | (Ok true, csv') =>
      {| exit_status := Ok 0;
         stdout := [u "Appended new row for Stand " ++ isoformat sd
                      ++ u " to " ++ csv_path];
         stderr := []; csv_after := csv' |}
    | (Ok false, csv') =>
      {| exit_status := Ok 0;
         stdout := [u "No change detected; CSV not modified."];
         stderr := []; csv_after := csv' |}
    end.
Proof. intros H. unfold main. now rewrite H. Qed.

(** C9, as the code has it.  When the fetch, the extraction or one of the
    parsers fails, the run prints one diagnostic to the error stream,
    returns 1 and leaves the store untouched.  When all of them succeed,
    the run returns 0, whether the row was appended or not, provided the
    file can be read and the sentence encoded; a file with a field over
    the limit of the reader, or a sentence with a surrogate code point,
    makes [append_row_if_changed] raise, and since the call is outside
    the [try] the exception escapes: nothing is printed and no status is
    returned. *)
Theorem main_exit_status :
  let r := main fetch_html html_parser url csv_path today csv in
  (forall err, fetch_html url = Raise err -> r = failure_run err) /\
  (forall html err,
      fetch_html url = Ok html ->
      extract_status_sentence (html_parser html) = Raise err ->
      r = failure_run err) /\
  (forall html sentence err,
      fetch_html url = Ok html ->
      extract_status_sentence (html_parser html) = Ok sentence ->
      parse_stand_date sentence = Raise err ->
      r = failure_run err) /\
  (forall html sentence stand_date err,
      fetch_html url = Ok html ->
      extract_status_sentence (html_parser html) = Ok sentence ->
      parse_stand_date sentence = Ok stand_date ->
      parse_target_date sentence = Raise err ->
      r = failure_run err) /\
  (forall html sentence stand_date target_date,
      fetch_html url = Ok html ->
      extract_status_sentence (html_parser html) = Ok sentence ->
      parse_stand_date sentence = Ok stand_date ->
      parse_target_date sentence = Ok target_date ->
      let row := [isoformat today; isoformat stand_date; sentence;
                  isoformat target_date] in
      (readable csv -> encodable sentence = true ->
       exit_status r = Ok 0 /\ stderr r = [] /\
       ((read_last_row csv = Ok (Some row) /\ csv_after r = csv /\
         stdout r = [u "No change detected; CSV not modified."]) \/
        (read_last_row csv <> Ok (Some row) /\
         csv_after r = Some (with_header csv ++ writerow row) /\
         stdout r = [u "Appended new row for Stand " ++ isoformat stand_date
                       ++ u " to " ++ csv_path]))) /\
      (~ readable csv ->
       r = {| exit_status := Raise field_limit_error; stdout := []; stderr := [];
              csv_after := csv |}) /\
      (readable csv -> encodable sentence = false ->
       read_last_row csv <> Ok (Some row) ->
       exists msg,
         r = {| exit_status := Raise (ValueError msg); stdout := []; stderr := [];
                csv_after := Some (with_header csv) |})).
Proof.
  cbv zeta. split; [|split; [|split; [|split]]].
  - intros err H. apply main_failure. unfold collect_status. now rewrite H.
  - intros html err H1 H2. apply main_failure. unfold collect_status.
    rewrite H1. cbn [bind]. now rewrite H2.
  - intros html s err H1 H2 H3. apply main_failure. unfold collect_status.
    rewrite H1. cbn [bind]. rewrite H2. cbn [bind]. now rewrite H3.
  - intros html s sd err H1 H2 H3 H4. apply main_failure. unfold collect_status.
    rewrite H1. cbn [bind]. rewrite H2. cbn [bind]. rewrite H3. cbn [bind].
    now rewrite H4.
  - intros html s sd td H1 H2 H3 H4.
    rewrite (main_collected (collect_status_steps H1 H2 H3 H4)).
    set (row := [isoformat today; isoformat sd; s; isoformat td]).
    assert (Henc : row_encodable row = encodable s) by apply row_encodable_sentence.
    split; [|split].
    + intros Hr He. destruct (read_last_row_readable _ Hr) as [last Hl].
      destruct (option_eq_dec last row) as [-> | Hne].
      * rewrite (append_unchanged _ Hl). cbn. auto 6.
      * rewrite (append_changed _ Hl Hne) by congruence. cbn.
        split; [reflexivity|]. split; [reflexivity|]. right.
        split; [congruence|]. auto.
    + intros Hn. now rewrite (@append_unreadable csv row Hn).
    + intros Hr He Hne. destruct (read_last_row_readable _ Hr) as [last Hl].
      assert (Hne' : last <> Some row) by congruence.
      destruct (append_unencodable _ Hl Hne') as [msg ->]; [congruence|]. eauto.
Qed.

End Run.

(** C9, as stated, fails: with every step successful, a CSV file that holds
    a field over the limit of the reader makes the run end in the error of
    the reader, with nothing printed and no status returned. *)
Lemma reader_error_escapes_main :
  collect_status (fun _ => Ok []) (fun _ => SAMPLE_HTML) []
  = Ok (sample_sentence, {| year := 2025; month := 8; day := 28 |},
        {| year := 2023; month := 4; day := 30 |}) /\
  main (fun _ => Ok []) (fun _ => SAMPLE_HTML) [] (u "results.csv") sample_day
       (Some (writerow HEADER ++ writerow oversized_row))
  = {| exit_status := Raise field_limit_error; stdout := []; stderr := [];
       csv_after := Some (writerow HEADER ++ writerow oversized_row) |}.
Proof.
  assert (Hc : collect_status (fun _ => Ok []) (fun _ => SAMPLE_HTML) []
               = Ok (sample_sentence, {| year := 2025; month := 8; day := 28 |},
                     {| year := 2023; month := 4; day := 30 |}))
    by (vm_compute; reflexivity).
  split; [exact Hc|].
  rewrite (@main_collected _ _ _ (u "results.csv") sample_day
             (Some (writerow HEADER ++ writerow oversized_row)) _ _ _ Hc).
  rewrite append_unreadable; [reflexivity|].
  replace (writerow HEADER ++ writerow oversized_row)
    with (flat_map writerow ([HEADER] ++ [oversized_row]))
    by (cbn [flat_map app]; now rewrite app_nil_r).
  apply oversized_store_unreadable.
Qed.

(** ** The cases of the test suite *)

Example test_extract_status_sentence :
  extract_status_sentence SAMPLE_HTML = Ok sample_sentence.
Proof. vm_compute. reflexivity. Qed.

Example test_parse_target_date_end_of_month :
  parse_target_date sample_sentence = Ok {| year := 2023; month := 4; day := 30 |}.
Proof. vm_compute. reflexivity. Qed.

Example test_parse_stand_date :
  parse_stand_date sample_sentence = Ok {| year := 2025; month := 8; day := 28 |}.
Proof. vm_compute. reflexivity. Qed.

Example test_parse_target_date_qualifiers :
  parse_target_date (u "bis Anfang April 2023") = Ok {| year := 2023; month := 4; day := 5 |} /\
  parse_target_date (u "bis Mitte April 2023") = Ok {| year := 2023; month := 4; day := 15 |} /\
  parse_target_date (u "bis April 2023") = Ok {| year := 2023; month := 4; day := 1 |} /\
  parse_target_date (u "bis 15.05.2024") = Ok {| year := 2024; month := 5; day := 15 |} /\
  parse_target_date (u "bis Ende Februar 2023") = Ok {| year := 2023; month := 2; day := 28 |}.
Proof. repeat split; vm_compute; reflexivity. Qed.

(** Two runs on the same day, as in [test_main_appends_new_row]. *)
Example test_main_appends_new_row :
  let run1 := main (fun _ => Ok []) (fun _ => SAMPLE_HTML) [] (u "results.csv")
                   sample_day None in
  let run2 := main (fun _ => Ok []) (fun _ => SAMPLE_HTML) [] (u "results.csv")
                   sample_day (csv_after run1) in
  exit_status run1 = Ok 0 /\ csv_after run1 = Some sample_store /\
  exit_status run2 = Ok 0 /\ csv_after run2 = Some sample_store.
Proof. repeat split; vm_compute; reflexivity. Qed.

(** * Further properties *)

(** ** The date parsers: every outcome *)

(** A date of the calendar, as [datetime.date] accepts it. *)
Definition valid_date (d : date) : Prop :=
  1 <= year d <= 9999 /\ 1 <= month d <= 12 /\
  1 <= day d <= last_day_of_month (year d) (month d).

(** The failures of the [datetime.date] constructor on a year of at most
    four digits. *)
Definition date_error (e : exn) : Prop :=
  e = ValueError (u "year 0 is out of range") \/
  e = ValueError (u "month must be in 1..12") \/
  e = ValueError (u "day is out of range for month").

Lemma dt_date_outcomes (y mo d : N) :
  y <= 9999 ->
  match dt_date y mo d with
  | Ok date => valid_date date /\ date = {| year := y; month := mo; day := d |}
  | Raise e => date_error e
  end.
Proof.
  intros Hy. unfold dt_date, date_error.
  destruct (N.leb_spec 1 y); cbn [andb negb].
  - destruct (N.leb_spec y 9999); [|lia]. cbn [negb].
    destruct (N.leb_spec 1 mo), (N.leb_spec mo 12); cbn [andb negb];
      try (right; left; reflexivity).
    destruct (N.leb_spec 1 d), (N.leb_spec d (days_in_month y mo));
      cbn [andb negb]; try (right; right; reflexivity).
    split; [|reflexivity]. unfold valid_date. cbn [year month day].
    rewrite <- days_in_month_calendar by lia. lia.
  - assert (y = 0) as -> by lia. left. reflexivity.
Qed.

Lemma digits_bound ic (n : nat) (w : str) :
  Matches ic (times n Category_digit) w -> int w < 10 ^ N.of_nat n.
Proof.
  intros M. apply Matches_times in M as [<- _]. apply int_lt.
Qed.

Lemma dmy_date ic (d mo y : str) :
  Matches ic dd d -> Matches ic dd mo -> Matches ic dddd y ->
  (length d = 2 /\ length mo = 2 /\ length y = 4)%nat /\
  match dt_date (int y) (int mo) (int d) with
  | Ok date =>
    valid_date date /\
    date = {| year := int y; month := int mo; day := int d |}
  | Raise e => date_error e
  end.
Proof.
  intros Md Mm My. split.
  - apply Matches_times in Md as [Hd _]. apply Matches_times in Mm as [Hm _].
    apply Matches_times in My as [Hy _]. auto.
  - apply dt_date_outcomes. apply digits_bound in My. simpl in My. lia.
Qed.

(** ** The stand date *)

Definition stand_not_found : exn :=
  ValueError (u "Stand date not found in sentence.").

Lemma search_stand_groups (s : str) (m : match_obj) :
  search false stand_pattern s = Some m ->
  exists d mo y,
    groups3 m = (Some d, Some mo, Some y) /\
    Matches false dd d /\ Matches false dd mo /\ Matches false dddd y.
Proof.
  intros H. destruct (search_some _ _ _ H) as (pre & post & _ & _ & _ & _ & Hin).
  apply dmy_groups in Hin as (d & mo & y & Hg & Hd & Hm & Hy).
  exists d, mo, y. unfold groups3. rewrite Hg. auto.
Qed.

Lemma parse_stand_date_found (s : str) (m : match_obj) :
  search false stand_pattern s = Some m ->
  exists d mo y,
    groups3 m = (Some d, Some mo, Some y) /\
    (length d = 2 /\ length mo = 2 /\ length y = 4)%nat /\
    parse_stand_date s = dt_date (int y) (int mo) (int d) /\
    match parse_stand_date s with
    | Ok date =>
      valid_date date /\
      date = {| year := int y; month := int mo; day := int d |}
    | Raise e => date_error e
    end.
Proof.
  intros Hm.
  destruct (search_stand_groups _ Hm) as (d & mo & y & Hg & Md & Mm & My).
  destruct (dmy_date Md Mm My) as [Hlen Hdate].
  assert (E : parse_stand_date s = dt_date (int y) (int mo) (int d)).
  { unfold parse_stand_date. now rewrite Hm, Hg. }
  exists d, mo, y. rewrite E. auto.
Qed.

Lemma parse_stand_date_valid (s : str) (date : date) :
  parse_stand_date s = Ok date -> valid_date date.
Proof.
  intros H. destruct (search false stand_pattern s) as [m|] eqn:Hm.
  - destruct (parse_stand_date_found _ Hm) as (d & mo & y & _ & _ & _ & Hd).
    rewrite H in Hd. tauto.
  - unfold parse_stand_date in H. rewrite Hm in H. discriminate H.
Qed.

(** X1: [parse_stand_date] fails with its not-found error exactly when no
    part of the sentence reads "Stand:", white space or none, DD.MM.YYYY;
    otherwise the result is the date built from the digits of the leftmost
    such marker: a valid calendar date with these numbers, or one of the
    three range errors of the date constructor. *)
Theorem parse_stand_date_outcomes (s : str) :
  (parse_stand_date s = Raise stand_not_found <->
   forall k, ~ occurs_at false stand_pattern s k) /\
  (forall m,
      search false stand_pattern s = Some m ->
      exists pre post d mo y,
        s = pre ++ m_group0 m ++ post /\
        (forall k, occurs_at false stand_pattern s k -> (length pre <= k)%nat) /\
        groups3 m = (Some d, Some mo, Some y) /\
        (length d = 2 /\ length mo = 2 /\ length y = 4)%nat /\
        parse_stand_date s = dt_date (int y) (int mo) (int d) /\
        match parse_stand_date s with
        | Ok date =>
          valid_date date /\
          date = {| year := int y; month := int mo; day := int d |}
        | Raise e => date_error e
        end).
Proof.
  split.
  - rewrite <- search_none. split.
    + intros H. destruct (search false stand_pattern s) as [m|] eqn:Hm; [|reflexivity].
      destruct (parse_stand_date_found _ Hm) as (d & mo & y & _ & _ & _ & Hdate).
      rewrite H in Hdate. destruct Hdate as [E | [E | E]]; discriminate E.
    + intros H. unfold parse_stand_date. now rewrite H.
  - intros m Hm. destruct (search_some _ _ _ Hm) as (pre & post & E & _ & _ & Hmin & _).
    destruct (parse_stand_date_found _ Hm) as (d & mo & y & H).
    exists pre, post, d, mo, y. auto.
Qed.

(** ** The target date *)

Definition target_not_found : exn :=
  ValueError (u "Target date not found in sentence.").

Definition fuzzy_error (e : exn) : Prop :=
  e = target_not_found \/
  (exists w, e = ValueError (u "Unknown month name: " ++ w)) \/
  (exists w, e = ValueError (u "Unsupported position descriptor: " ++ w)) \/
  e = ValueError (u "year 0 is out of range").

Lemma parse_target_date_cases (s : str) :
  (search false direct_pattern s <> None ->
   match parse_target_date s with
   | Ok date => valid_date date
   | Raise e => date_error e
   end) /\
  (search false direct_pattern s = None ->
   match parse_target_date s with
   | Ok date => valid_date date
   | Raise e => fuzzy_error e
   end).
Proof.
  unfold fuzzy_error. split.
  - destruct (search false direct_pattern s) as [m|] eqn:Hd; [intros _|congruence].
    destruct (search_direct_groups _ Hd) as (d & mo & y & Hg & Md & Mm & My).
    rewrite (parse_target_direct _ Hd Hg). cbn [int_of].
    destruct (dmy_date Md Mm My) as [_ H].
    destruct (dt_date (int y) (int mo) (int d)); tauto.
  - intros Hd. destruct (search true range_pattern s) as [m|] eqn:Hr.
    2:{ unfold parse_target_date. rewrite Hd, Hr. now left. }
    destruct (search_range_groups _ Hr) as (pos & mraw & yraw & Hg & Hpos & _ & My).
    rewrite (parse_target_range _ Hd Hr Hg).
    destruct (dict_get GERMAN_MONTHS (lower mraw)) as [mo|] eqn:Em; [|right; left; eauto].
    pose proof (german_month_range _ Em) as Hmo.
    pose proof (days_in_month_range (int yraw) Hmo) as Hdim.
    assert (Hy : int yraw <= 9999) by now apply year_digits.
    assert (Hday : forall d, 1 <= d <= days_in_month (int yraw) mo ->
               match dt_date (int yraw) mo d with
               | Ok date => valid_date date
               | Raise e => fuzzy_error e
               end).
    { intros d Hrange. pose proof (dt_date_outcomes mo d Hy) as H.
      destruct (N.eq_dec (int yraw) 0) as [E0 | Hne].
      - rewrite E0. right; right; right. reflexivity.
      - rewrite dt_date_ok in * by lia. tauto. }
    unfold resolve_day.
    destruct Hpos as [-> | (q & -> & Mq & _)]; [apply Hday; lia|].
    destruct q as [|c q]; [apply Hday; lia|].
    destruct (dict_get POSITION_DAY (lower (c :: q))) as [[n|]|] eqn:Ep.
    + cbn [bind]. apply Hday. unfold POSITION_DAY in Ep. cbn [dict_get] in Ep.
      repeat match type of Ep with
             | (if ?b then _ else _) = _ => destruct b
             end; try discriminate; injection Ep as <-; lia.
    + rewrite monthrange_ndays_ok by assumption. cbn [bind]. apply Hday. lia.
    + cbn [bind]. right; right; left. eauto.
Qed.

Lemma parse_target_date_valid (s : str) (date : date) :
  parse_target_date s = Ok date -> valid_date date.
Proof.
  intros H. destruct (parse_target_date_cases s) as [H1 H2].
  destruct (search false direct_pattern s) as [m|] eqn:E.
  - assert (Hne : Some m <> None) by discriminate.
    specialize (H1 Hne). now rewrite H in H1.
  - specialize (H2 eq_refl). now rewrite H in H2.
Qed.

(** X2: every outcome of [parse_target_date] is a valid calendar date or a
    [ValueError].  With an explicit clause the error can only be a range
    error of the date constructor; without one it is the not-found error,
    the unknown-month error, the unsupported-position error or, for the
    year 0000, the year error: a month of the table and the day chosen for
    it are never out of range, and no other exception can escape. *)
Theorem parse_target_date_outcomes (s : str) :
  (search false direct_pattern s <> None ->
   match parse_target_date s with
   | Ok date => valid_date date
   | Raise e => date_error e
   end) /\
  (search false direct_pattern s = None ->
   match parse_target_date s with
   | Ok date => valid_date date
   | Raise e =>
     e = target_not_found \/
     (exists w, e = ValueError (u "Unknown month name: " ++ w)) \/
     (exists w, e = ValueError (u "Unsupported position descriptor: " ++ w)) \/
     e = ValueError (u "year 0 is out of range")
   end).
Proof. exact (parse_target_date_cases s). Qed.

(** ** Dates as text *)

Definition ascii_digit (c : char) : Prop := 0x30 <= c <= 0x39.

Lemma decimal_ascii (c : char) : ascii_digit c -> decimal c = Some (c - 0x30).
Proof.
  intros [H1 H2]. unfold decimal, decimal_zeros. cbn [find].
  replace (48 <=? c) with true by (symmetry; apply N.leb_le; lia).
  replace (c <? 48 + 10) with true by (symmetry; apply N.ltb_lt; lia).
  reflexivity.
Qed.

Lemma int_zeros (m : nat) (s : str) : int (repeat 0x30 m ++ s) = int s.
Proof.
  induction m as [|m IH]; [reflexivity|].
  cbn [repeat app]. unfold int in *. cbn [fold_left].
  rewrite (decimal_ascii (c := 0x30)) by (unfold ascii_digit; lia). exact IH.
Qed.

(** Two strings of ASCII digits of the same length with the same value
    are the same string. *)
Lemma int_inj (s : str) :
  forall t, Forall ascii_digit s -> Forall ascii_digit t ->
            length s = length t -> int s = int t -> s = t.
Proof.
  induction s as [|c s IH] using rev_ind; intros t Hs Ht Hl E.
  - destruct t; [reflexivity|discriminate Hl].
  - destruct t as [|d t _] using rev_ind.
    + rewrite length_app in Hl. simpl in Hl. lia.
    + apply Forall_app in Hs as [Hs Hc]. apply Forall_app in Ht as [Ht Hd].
      apply Forall_inv in Hc. apply Forall_inv in Hd.
      rewrite !int_snoc, (decimal_ascii Hc), (decimal_ascii Hd) in E.
      rewrite !length_app in Hl. simpl in Hl.
      unfold ascii_digit in Hc, Hd.
      assert (int s = int t /\ c = d) as [E1 ->] by lia.
      f_equal. apply IH; auto. lia.
Qed.

Lemma digits_of_spec (fuel : nat) :
  forall n acc,
    n < 10 ^ N.of_nat (S fuel) ->
    exists ds,
      digits_of (S fuel) n acc = ds ++ acc /\
      Forall ascii_digit ds /\ int ds = n /\
      forall k, n < 10 ^ N.of_nat (S k) -> (length ds <= S k)%nat.
Proof.
  induction fuel as [|fuel IH]; intros n acc Hn.
  - change (10 ^ N.of_nat 1) with 10 in Hn.
    exists [0x30 + n].
    assert (E : n / 10 = 0) by (apply N.div_small; lia).
    assert (Em : n mod 10 = n) by (apply N.mod_small; lia).
    cbn [digits_of]. rewrite E, Em. cbn [N.eqb]. split; [reflexivity|].
    split; [|split].
    + constructor; [|constructor]. unfold ascii_digit. lia.
    + unfold int. cbn [fold_left].
      rewrite (decimal_ascii (c := 0x30 + n)) by (unfold ascii_digit; lia). lia.
    + intros k _. simpl. lia.
  - change (digits_of (S (S fuel)) n acc)
      with (if n / 10 =? 0 then 0x30 + n mod 10 :: acc
            else digits_of (S fuel) (n / 10) (0x30 + n mod 10 :: acc)).
    pose proof (N.mod_lt n 10 ltac:(lia)) as Hm.
    pose proof (N.div_mod n 10 ltac:(lia)) as Hdm.
    remember (n mod 10) as r eqn:Er. clear Er.
    assert (Hd : ascii_digit (0x30 + r)) by (unfold ascii_digit; lia).
    destruct (N.eqb_spec (n / 10) 0) as [E|E].
    + exists [0x30 + r]. split; [reflexivity|]. split; [|split].
      * constructor; [assumption|constructor].
      * unfold int. cbn [fold_left]. rewrite (decimal_ascii Hd). lia.
      * intros k _. simpl. lia.
    + assert (Hq : n / 10 < 10 ^ N.of_nat (S fuel)).
      { apply N.Div0.div_lt_upper_bound.
        replace (N.of_nat (S (S fuel))) with (N.succ (N.of_nat (S fuel))) in Hn by lia.
        now rewrite N.pow_succ_r' in Hn. }
      destruct (IH (n / 10) (0x30 + r :: acc) Hq) as (ds & E1 & Hds & Hint & Hlen).
      exists (ds ++ [0x30 + r]). rewrite E1, <- app_assoc.
      split; [reflexivity|]. split; [|split].
      * apply Forall_app. split; [assumption|]. constructor; [assumption|constructor].
      * rewrite int_snoc, (decimal_ascii Hd), Hint. lia.
      * intros k Hk. rewrite length_app. simpl length.
        destruct k as [|k].
        { change (10 ^ N.of_nat 1) with 10 in Hk.
          exfalso. apply E. apply N.div_small. lia. }
        assert (Hq' : n / 10 < 10 ^ N.of_nat (S k)).
        { apply N.Div0.div_lt_upper_bound.
          replace (N.of_nat (S (S k))) with (N.succ (N.of_nat (S k))) in Hk by lia.
          now rewrite N.pow_succ_r' in Hk. }
        specialize (Hlen k Hq'). lia.
Qed.

(** [str(n)] is the decimal numeral of [n], without leading zeros. *)
Lemma str_of_int_spec (n : N) :
  Forall ascii_digit (str_of_int n) /\ int (str_of_int n) = n /\
  forall k, n < 10 ^ N.of_nat (S k) -> (length (str_of_int n) <= S k)%nat.
Proof.
  unfold str_of_int.
  assert (Hn : n < 10 ^ N.of_nat (S (N.to_nat (N.log2 n)))).
  { replace (N.of_nat (S (N.to_nat (N.log2 n)))) with (N.succ (N.log2 n)) by lia.
    destruct (N.eq_dec n 0) as [-> | Hne]; [reflexivity|].
    apply N.lt_le_trans with (2 ^ N.succ (N.log2 n)).
    - apply N.log2_spec. lia.
    - apply N.pow_le_mono_l. lia. }
  destruct (digits_of_spec [] Hn) as (ds & E & Hds & Hint & Hlen).
  rewrite E, app_nil_r. auto.
Qed.

Lemma zfill_length (k : nat) (s : str) :
  (length s <= k)%nat -> length (zfill k s) = k.
Proof.
  intros H. unfold zfill. rewrite length_app, repeat_length.
  unfold char in *. lia.
Qed.

Lemma zfill_digits (k : nat) (s : str) :
  Forall ascii_digit s -> Forall ascii_digit (zfill k s).
Proof.
  intros H. unfold zfill. apply Forall_app. split; [|assumption].
  apply Forall_forall. intros c Hc. apply repeat_spec in Hc as ->.
  unfold ascii_digit. lia.
Qed.

(** Formatting a number with as many digits as the numeral it was read
    from gives the numeral back. *)
Lemma zfill_int (k : nat) (s : str) :
  Forall ascii_digit s -> length s = S k ->
  zfill (S k) (str_of_int (int s)) = s.
Proof.
  intros Hs Hl.
  destruct (str_of_int_spec (int s)) as (Hd & Hint & Hlen).
  assert (Hk : (length (str_of_int (int s)) <= S k)%nat).
  { apply Hlen. rewrite <- Hl. apply int_lt. }
  apply int_inj.
  - now apply zfill_digits.
  - assumption.
  - rewrite zfill_length; [now rewrite Hl|assumption].
  - unfold zfill. now rewrite int_zeros.
Qed.

Definition HYPHEN : char := 0x2D.

Lemma isoformat_shape_aux (d : date) :
  year d <= 9999 -> month d <= 99 -> day d <= 99 ->
  exists y mo dd,
    isoformat d = y ++ [HYPHEN] ++ mo ++ [HYPHEN] ++ dd /\
    (length y = 4 /\ length mo = 2 /\ length dd = 2)%nat /\
    Forall ascii_digit (y ++ mo ++ dd) /\
    int y = year d /\ int mo = month d /\ int dd = day d.
Proof.
  intros Hy Hm Hd. unfold isoformat.
  destruct (str_of_int_spec (year d)) as (Y1 & Y2 & Y3).
  destruct (str_of_int_spec (month d)) as (M1 & M2 & M3).
  destruct (str_of_int_spec (day d)) as (D1 & D2 & D3).
  exists (zfill 4 (str_of_int (year d))), (zfill 2 (str_of_int (month d))),
    (zfill 2 (str_of_int (day d))).
  split; [reflexivity|].
  assert (L1 : (length (str_of_int (year d)) <= 4)%nat)
    by (apply Y3; change (10 ^ N.of_nat 4) with 10000; lia).
  assert (L2 : (length (str_of_int (month d)) <= 2)%nat)
    by (apply M3; change (10 ^ N.of_nat 2) with 100; lia).
  assert (L3 : (length (str_of_int (day d)) <= 2)%nat)
    by (apply D3; change (10 ^ N.of_nat 2) with 100; lia).
  split; [|split; [|split; [|split]]].
  - rewrite !zfill_length by assumption. auto.
  - rewrite !Forall_app. auto using zfill_digits.
  - unfold zfill. now rewrite int_zeros.
  - unfold zfill. now rewrite int_zeros.
  - unfold zfill. now rewrite int_zeros.
Qed.

Lemma valid_date_bounds (d : date) :
  valid_date d -> year d <= 9999 /\ month d <= 99 /\ day d <= 99.
Proof.
  unfold valid_date, last_day_of_month. intros (Hy & Hm & Hd).
  repeat match type of Hd with
         | context [if ?b then _ else _] => destruct b
         end; lia.
Qed.

Lemma app_inj_length {A : Type} (a : list A) :
  forall a' b b', length a = length a' -> a ++ b = a' ++ b' -> a = a' /\ b = b'.
Proof.
  induction a as [|x a IH]; intros [|x' a'] b b' Hl E; try discriminate Hl.
  - auto.
  - injection E as -> E. injection Hl as Hl.
    destruct (IH _ _ _ Hl E) as [-> ->]. auto.
Qed.

(** X3: the text of a valid date is YYYY-MM-DD: four digits, a hyphen, two
    digits, a hyphen, two digits, ten characters in all, and the three
    numerals read back as the year, the month and the day.  So two valid
    dates with the same text are the same date. *)
Theorem isoformat_shape (d : date) :
  valid_date d ->
  (exists y mo dd,
      isoformat d = y ++ [HYPHEN] ++ mo ++ [HYPHEN] ++ dd /\
      (length y = 4 /\ length mo = 2 /\ length dd = 2)%nat /\
      Forall ascii_digit (y ++ mo ++ dd) /\
      int y = year d /\ int mo = month d /\ int dd = day d) /\
  length (isoformat d) = 10%nat /\
  (forall d', valid_date d' -> isoformat d' = isoformat d -> d' = d).
Proof.
  intros Hv. destruct (valid_date_bounds Hv) as (By & Bm & Bd).
  destruct (isoformat_shape_aux d By Bm Bd) as (y & mo & dd & E & L & A & Iy & Im & Id).
  split; [exists y, mo, dd; tauto|]. split.
  - rewrite E. unfold str, char in *. rewrite !length_app. cbn [length]. lia.
  - intros d' Hv' E'. destruct (valid_date_bounds Hv') as (By' & Bm' & Bd').
    destruct (isoformat_shape_aux d' By' Bm' Bd')
      as (y' & mo' & dd' & E1 & L' & _ & Iy' & Im' & Id').
    rewrite E, E1 in E'.
    destruct L as (Ly & Lm & Ld), L' as (Ly' & Lm' & Ld').
    apply app_inj_length in E' as [-> E']; [|congruence].
    cbn [app] in E'. injection E' as E'.
    apply app_inj_length in E' as [-> E']; [|congruence].
    injection E' as ->.
    destruct d as [a b c], d' as [a' b' c'].
    cbn [year month day] in Iy, Im, Id, Iy', Im', Id'. congruence.
Qed.

Lemma isoformat_shape_witness :
  valid_date {| year := 2025; month := 8; day := 28 |} /\
  isoformat {| year := 2025; month := 8; day := 28 |} = u "2025-08-28".
Proof.
  assert (H : valid_date {| year := 2025; month := 8; day := 28 |})
    by (unfold valid_date; cbn; lia).
  split; [exact H|].
  destruct (isoformat_shape H) as (_ & _ & _). reflexivity.
Defined.

Lemma isoformat_of_numerals (d mo y : str) (date : date) :
  Forall ascii_digit (d ++ mo ++ y) ->
  (length d = 2 /\ length mo = 2 /\ length y = 4)%nat ->
  dt_date (int y) (int mo) (int d) = Ok date ->
  isoformat date = y ++ [HYPHEN] ++ mo ++ [HYPHEN] ++ d.
Proof.
  intros HA (Ld & Lm & Ly) E.
  apply Forall_app in HA as [Hd HA]. apply Forall_app in HA as [Hm Hy].
  assert (date = {| year := int y; month := int mo; day := int d |}) as ->.
  { unfold dt_date in E.
    repeat match type of E with
           | (if ?b then _ else _) = _ => destruct b; [discriminate E|]
           end.
    now injection E as <-. }
  unfold isoformat. cbn [year month day].
  rewrite (zfill_int (k := 3) Hy Ly), (zfill_int (k := 1) Hm Lm),
    (zfill_int (k := 1) Hd Ld).
  reflexivity.
Qed.

(** X4: when the digits of the Stand marker are ASCII digits, the stand
    date is written to the ledger with these very digits, as
    YYYY-MM-DD. *)
Theorem stand_date_column (s : str) (m : match_obj) (d mo y : str) (date : date) :
  search false stand_pattern s = Some m ->
  groups3 m = (Some d, Some mo, Some y) ->
  Forall ascii_digit (d ++ mo ++ y) ->
  parse_stand_date s = Ok date ->
  isoformat date = y ++ [HYPHEN] ++ mo ++ [HYPHEN] ++ d.
Proof.
  intros Hm Hg HA E.
  destruct (search_stand_groups _ Hm) as (d' & mo' & y' & Hg' & Md & Mm & My).
  rewrite Hg in Hg'. injection Hg' as <- <- <-.
  destruct (dmy_date Md Mm My) as [L _].
  unfold parse_stand_date in E. rewrite Hm, Hg in E. cbn [int_of] in E.
  now apply isoformat_of_numerals.
Qed.

Lemma stand_date_column_witness :
  parse_stand_date sample_sentence = Ok {| year := 2025; month := 8; day := 28 |} /\
  isoformat {| year := 2025; month := 8; day := 28 |}
  = u "2025" ++ [HYPHEN] ++ u "08" ++ [HYPHEN] ++ u "28".
Proof.
  assert (H : parse_stand_date sample_sentence
              = Ok {| year := 2025; month := 8; day := 28 |}) by (vm_compute; reflexivity).
  split; [exact H|].
  destruct (search false stand_pattern sample_sentence) as [m|] eqn:Hm;
    [|vm_compute in Hm; discriminate Hm].
  assert (Hg : groups3 m = (Some (u "28"), Some (u "08"), Some (u "2025"))).
  { vm_compute in Hm. injection Hm as <-. vm_compute. reflexivity. }
  apply (stand_date_column sample_sentence Hm Hg); [|exact H].
  repeat constructor; vm_compute; discriminate.
Defined.

(** X5: the same for an explicit target clause: with ASCII digits after
    "bis", the target date is written with these digits, as YYYY-MM-DD. *)
Theorem target_date_column (s : str) (m : match_obj) (d mo y : str) (date : date) :
  search false direct_pattern s = Some m ->
  groups3 m = (Some d, Some mo, Some y) ->
  Forall ascii_digit (d ++ mo ++ y) ->
  parse_target_date s = Ok date ->
  isoformat date = y ++ [HYPHEN] ++ mo ++ [HYPHEN] ++ d.
Proof.
  intros Hm Hg HA E.
  destruct (search_direct_groups _ Hm) as (d' & mo' & y' & Hg' & Md & Mm & My).
  rewrite Hg in Hg'. injection Hg' as <- <- <-.
  destruct (dmy_date Md Mm My) as [L _].
  rewrite (parse_target_direct _ Hm Hg) in E. cbn [int_of] in E.
  now apply isoformat_of_numerals.
Qed.

Definition sentence_explicit_target : str :=
  u "Derzeit werden Anträge mit Eingangsdatum bis 15.05.2024 bearbeitet (Stand: 28.08.2025).".

Lemma target_date_column_witness :
  parse_target_date sentence_explicit_target
  = Ok {| year := 2024; month := 5; day := 15 |} /\
  isoformat {| year := 2024; month := 5; day := 15 |}
  = u "2024" ++ [HYPHEN] ++ u "05" ++ [HYPHEN] ++ u "15".
Proof.
  assert (H : parse_target_date sentence_explicit_target
              = Ok {| year := 2024; month := 5; day := 15 |}) by (vm_compute; reflexivity).
  split; [exact H|].
  destruct (search false direct_pattern sentence_explicit_target) as [m|] eqn:Hm;
    [|vm_compute in Hm; discriminate Hm].
  assert (Hg : groups3 m = (Some (u "15"), Some (u "05"), Some (u "2024"))).
  { vm_compute in Hm. injection Hm as <-. vm_compute. reflexivity. }
  apply (target_date_column sentence_explicit_target Hm Hg); [|exact H].
  repeat constructor; vm_compute; discriminate.
Defined.

(** ** The white space of the status sentence *)

Definition SPACE : char := 0x20.

(** Every white-space character is a single U+0020 between two characters
    that are not white space. *)
Definition single_spaced (s : str) : Prop :=
  forall a c b,
    s = a ++ c :: b -> isspace c = true ->
    c = SPACE /\
    (exists a' x, a = a' ++ [x] /\ isspace x = false) /\
    (exists y b', b = y :: b' /\ isspace y = false).

Lemma no_space_in (w : str) (c : char) :
  no_space w = true -> In c w -> isspace c = false.
Proof.
  unfold no_space. rewrite forallb_forall. intros H Hc.
  apply negb_true_iff. now apply H.
Qed.

Lemma word_first (w : str) :
  word w -> exists x w', w = x :: w' /\ isspace x = false.
Proof.
  intros [Hne Hw]. destruct w as [|x w']; [congruence|].
  exists x, w'. split; [reflexivity|]. apply (no_space_in _ _ Hw). now left.
Qed.

Lemma word_last (w : str) :
  word w -> exists w' x, w = w' ++ [x] /\ isspace x = false.
Proof.
  intros [Hne Hw]. destruct (exists_last Hne) as (w' & x & ->).
  exists w', x. split; [reflexivity|]. apply (no_space_in _ _ Hw).
  apply in_or_app. right. now left.
Qed.

Lemma join_two (sep p q : str) (rest : list str) :
  join sep (p :: q :: rest) = p ++ sep ++ join sep (q :: rest).
Proof. reflexivity. Qed.

Lemma join_first (words : list str) (w : str) :
  Forall word (w :: words) ->
  exists x t, join [SPACE] (w :: words) = x :: t /\ isspace x = false.
Proof.
  intros H. apply Forall_inv in H.
  destruct (word_first H) as (x & w' & -> & Hx).
  destruct words; [exists x, w'; auto|].
  rewrite join_two. cbn [app]. eauto.
Qed.

Lemma join_single_spaced (words : list str) :
  Forall word words -> single_spaced (join [SPACE] words).
Proof.
  induction words as [|w words IH]; intros H a c b E Hc.
  - destruct a; discriminate E.
  - apply Forall_cons_iff in H as [Hw Hws].
    destruct words as [|w2 words].
    + cbn [join] in E. exfalso.
      assert (Hin : In c w) by (rewrite E; apply in_or_app; right; now left).
      destruct Hw as [_ Hw]. rewrite (no_space_in _ _ Hw Hin) in Hc. discriminate.
    + rewrite join_two in E.
      specialize (IH Hws).
      destruct (join_first Hws) as (y0 & t0 & EJ & Hy0).
      remember (join [SPACE] (w2 :: words)) as J eqn:HJ. clear HJ.
      cbn [app] in E.
      assert (Hsep : SPACE = SPACE /\
                     (exists a' x, w = a' ++ [x] /\ isspace x = false) /\
                     (exists y b', J = y :: b' /\ isspace y = false)).
      { split; [reflexivity|]. split; [apply word_last, Hw|]. rewrite EJ. eauto. }
      symmetry in E. apply app_eq_app in E as [l [[-> E]|[-> E]]].
      * destruct l as [|x l].
        -- injection E as <- <-. rewrite app_nil_r. exact Hsep.
        -- injection E as <- E.
           destruct (IH l c b E Hc) as (-> & (a' & x & -> & Hx) & Hb).
           split; [reflexivity|]. split; [|assumption].
           exists (w ++ SPACE :: a'), x. rewrite <- app_assoc. auto.
      * destruct l as [|x l].
        -- rewrite app_nil_r in *. injection E as -> ->. exact Hsep.
        -- injection E as <- E. exfalso.
           assert (Hin : In c (a ++ c :: l)) by (apply in_or_app; right; now left).
           destruct Hw as [_ Hw]. rewrite (no_space_in _ _ Hw Hin) in Hc. discriminate.
Qed.

(** A part of a single-spaced text that begins and ends with a character
    that is not white space is single-spaced. *)
Lemma single_spaced_part (pre s post : str) :
  single_spaced (pre ++ s ++ post) ->
  (forall c rest, s = c :: rest -> isspace c = false) ->
  (forall rest c, s = rest ++ [c] -> isspace c = false) ->
  single_spaced s.
Proof.
  intros H Hfirst Hlast a c b E Hc.
  destruct (H (pre ++ a) c (b ++ post)) as (Hsp & (a' & x & Ea & Hx) & (y & b' & Eb & Hy)).
  { rewrite E, <- !app_assoc. reflexivity. }
  { assumption. }
  split; [assumption|]. split.
  - destruct a as [|a0 a1] using rev_ind.
    + exfalso. cbn [app] in E. rewrite (Hfirst _ _ E) in Hc. discriminate.
    + rewrite app_assoc in Ea. apply app_inj_tail in Ea as [_ ->]. eauto.
  - destruct b as [|b0 b1].
    + exfalso. rewrite (Hlast _ _ E) in Hc. discriminate.
    + cbn [app] in Eb. injection Eb as -> _. eauto.
Qed.

Lemma first_space (s : str) :
  no_space s = true \/
  exists a c b, s = a ++ c :: b /\ no_space a = true /\ isspace c = true.
Proof.
  induction s as [|x s IH]; [now left|].
  destruct (isspace x) eqn:Ex.
  - right. exists [], x, s. auto.
  - destruct IH as [H | (a & c & b & -> & Ha & Hc)].
    + left. unfold no_space in *. cbn [forallb]. now rewrite Ex, H.
    + right. exists (x :: a), c, b. split; [reflexivity|]. split; [|assumption].
      unfold no_space in *. cbn [forallb]. now rewrite Ex, Ha.
Qed.

Lemma single_spaced_normalized_aux (n : nat) :
  forall s, (length s <= n)%nat -> single_spaced s -> join [SPACE] (split s) = s.
Proof.
  induction n as [|n IH]; intros s Hn H.
  - destruct s; [reflexivity|simpl in Hn; lia].
  - destruct (first_space s) as [Hs | (a & c & b & -> & Ha & Hc)].
    + destruct s as [|x s']; [reflexivity|].
      rewrite split_word; [reflexivity|]. split; [discriminate|assumption].
    + destruct (H a c b eq_refl Hc) as (-> & (a' & x & -> & Hx) & (y & b' & -> & Hy)).
      assert (Hwa : word (a' ++ [x])) by (split; [now destruct a'|assumption]).
      rewrite split_app_space by assumption.
      rewrite (split_word Hwa).
      assert (Hb : single_spaced (y :: b')).
      { apply single_spaced_part with (pre := (a' ++ [x]) ++ [SPACE]) (post := []).
        - rewrite app_nil_r, <- app_assoc. exact H.
        - intros c rest [= <- _]. assumption.
        - intros rest c E.
          destruct (isspace c) eqn:Ec; [|reflexivity]. exfalso.
          destruct (H ((a' ++ [x]) ++ SPACE :: rest) c []) as (_ & _ & (? & ? & E' & _)).
          + rewrite E, <- !app_assoc. reflexivity.
          + assumption.
          + discriminate E'. }
      assert (Hlen : (length (y :: b') <= n)%nat).
      { rewrite length_app in Hn. simpl in Hn. simpl. unfold char in *. lia. }
      pose proof (IH _ Hlen Hb) as Eb.
      destruct (split (y :: b')) as [|w ws] eqn:Esp; [discriminate Eb|].
      cbn [app]. rewrite join_two, Eb. reflexivity.
Qed.

Lemma single_spaced_normalized (s : str) :
  single_spaced s -> normalized s.
Proof.
  intros H. unfold normalized. change (u " ") with [SPACE].
  now apply single_spaced_normalized_aux with (n := length s).
Qed.

Lemma normalized_single_spaced (s : str) :
  normalized s -> single_spaced s.
Proof.
  unfold normalized. change (u " ") with [SPACE]. intros <-.
  apply join_single_spaced, split_words.
Qed.

Lemma sentence_single_spaced (calls : list callback) (sentence : str) :
  extract_status_sentence calls = Ok sentence ->
  single_spaced sentence /\ infix sentence (plain_text calls) /\
  Matches true sentence_pattern sentence.
Proof.
  unfold extract_status_sentence, locate_sentence. intros H.
  destruct (search true sentence_pattern (plain_text calls)) as [m|] eqn:E;
    [|discriminate].
  destruct (search_some _ _ _ E) as (pre & post & Et & _ & M & _).
  injection H as <-. rewrite (sentence_strip M).
  split; [|split; [exists pre, post; exact Et|exact M]].
  assert (Hp : single_spaced (plain_text calls)).
  { rewrite plain_text_words. change (u " ") with [SPACE].
    apply join_single_spaced. apply Forall_flat_map.
    apply Forall_forall. intros x _. apply split_words. }
  rewrite Et in Hp.
  destruct (sentence_shape M) as (c & mid & e & Es & Hc & He).
  eapply single_spaced_part; [exact Hp| |]; rewrite Es.
  - intros c0 rest [= <- _]. destruct Hc as [-> | ->]; reflexivity.
  - intros rest c0 E0. rewrite app_comm_cons in E0.
    apply app_inj_tail in E0 as [_ <-]. destruct He as [-> | ->]; reflexivity.
Qed.

(** X6: the status sentence is a part of the normalized text of the page
    and is itself normalized: joining its words with single spaces gives
    the sentence back.  Its only white space is a single U+0020 between
    two words; it holds no line break, no tab and no other Unicode space,
    and it begins and ends with a character that is not white space. *)
Theorem status_sentence_normalized (calls : list callback) (sentence : str) :
  extract_status_sentence calls = Ok sentence ->
  infix sentence (plain_text calls) /\
  join (u " ") (split sentence) = sentence /\
  single_spaced sentence /\
  (forall c, In c sentence -> isspace c = true -> c = SPACE) /\
  strip sentence = sentence /\ sentence <> [].
Proof.
  intros H. destruct (sentence_single_spaced _ H) as (Hs & Hi & M).
  split; [assumption|]. split; [now apply single_spaced_normalized|].
  split; [assumption|]. split; [|split].
  - intros c Hc Hsp. apply in_split in Hc as (a & b & ->).
    now destruct (Hs a c b eq_refl Hsp).
  - now apply sentence_strip.
  - destruct (sentence_shape M) as (c & mid & e & -> & _). discriminate.
Qed.

Lemma status_sentence_normalized_witness :
  extract_status_sentence
    [handle_data (u "  Derzeit   werden"); handle_starttag (u "br") [];
     handle_data [0x0A; 0x09]; handle_data (u "Anträge mit Eingangsdatum bis");
     handle_data [0xA0]; handle_data (u "Ende April 2023 bearbeitet (Stand: 28.08.2025). ")]
  = Ok sample_sentence /\
  join (u " ") (split sample_sentence) = sample_sentence.
Proof.
  assert (H : extract_status_sentence
    [handle_data (u "  Derzeit   werden"); handle_starttag (u "br") [];
     handle_data [0x0A; 0x09]; handle_data (u "Anträge mit Eingangsdatum bis");
     handle_data [0xA0]; handle_data (u "Ende April 2023 bearbeitet (Stand: 28.08.2025). ")]
              = Ok sample_sentence) by (vm_compute; reflexivity).
  split; [exact H|].
  destruct (status_sentence_normalized _ H) as (_ & E & _). exact E.
Defined.

(** ** More about reading *)

(** The last element with a property, and what comes after it. *)
Lemma find_last {A : Type} (p : A -> bool) (l : list A) :
  match find p (rev l) with
  | Some x =>
    exists before after,
      l = before ++ x :: after /\ p x = true /\ Forall (fun y => p y = false) after
  | None => Forall (fun y => p y = false) l
  end.
Proof.
  induction l as [|a l IH]; [constructor|].
  cbn [rev]. rewrite find_snoc.
  destruct (find p (rev l)) as [x|].
  - destruct IH as (before & after & -> & Hx & Hafter).
    exists (a :: before), after. auto.
  - destruct (p a) eqn:Ea.
    + exists [], l. auto.
    + now constructor.
Qed.

(** X7: whatever the writer wrote is read back as it was, within the field
    size limit: for every list of rows with fields of at most 131072
    characters, any characters (commas, quotes and line breaks included)
    and empty rows too, the reader returns these rows from the text the
    writer produced for them.  When a field is longer, the reader raises
    the field-limit error instead. *)
Theorem csv_round_trip (rows : list (list str)) :
  (Forall within_limit rows ->
   csv_reader (flat_map writerow rows) = Ok rows) /\
  (~ Forall within_limit rows ->
   csv_reader (flat_map writerow rows) = Raise field_limit_error).
Proof.
  split; [apply written_readable|apply written_unreadable].
Qed.

(** X8: reading a file never fails except on a field over the limit: the
    result of [read_last_row] is a data row (not empty, its first field not
    the header word) with fields within the limit, or nothing, or the
    field-limit error of the reader.  The other error of the parser, for a
    line break inside an unquoted field, cannot occur on a file opened
    with [newline=""]. *)
Theorem read_last_row_outcomes (path : store) :
  (exists last,
      read_last_row path = Ok last /\
      forall row, last = Some row -> is_data_row row /\ within_limit row) \/
  read_last_row path = Raise field_limit_error.
Proof.
  destruct path as [content|].
  - unfold read_last_row.
    destruct (csv_reader_outcomes content) as [(rows & -> & Hl)| ->]; [|now right].
    left. cbn [bind]. eexists. split; [reflexivity|].
    intros row. rewrite fold_keep_last.
    destruct (find is_data_rowb (rev rows)) as [r|] eqn:E; [|discriminate].
    intros [= <-]. apply find_some in E as [Hin E].
    split; [now apply is_data_rowb_spec|].
    rewrite Forall_forall in Hl. apply Hl. now apply in_rev.
  - left. exists None. split; [reflexivity|discriminate].
Qed.

(** X9: on a file made of written records, within the field size limit,
    [read_last_row] returns the last record that is not empty and does not
    begin with the header word, and nothing when there is none: header
    lines are skipped wherever they stand, and so is every record whose
    first field is "retrieved_at". *)
Theorem read_last_row_of_written (rows : list (list str)) :
  Forall within_limit rows ->
  exists last,
    read_last_row (Some (flat_map writerow rows)) = Ok last /\
    match last with
    | Some row =>
      exists before after,
        rows = before ++ row :: after /\ is_data_row row /\
        Forall (fun r => ~ is_data_row r) after
    | None => Forall (fun r => ~ is_data_row r) rows
    end.
Proof.
  intros H. exists (find is_data_rowb (rev rows)).
  split; [now apply read_last_row_written|].
  pose proof (find_last is_data_rowb rows) as Hl.
  destruct (find is_data_rowb (rev rows)) as [row|].
  - destruct Hl as (before & after & E & Hrow & Hafter).
    exists before, after. split; [assumption|]. split; [now apply is_data_rowb_spec|].
    eapply Forall_impl; [|exact Hafter]. intros r. apply is_data_rowb_false.
  - eapply Forall_impl; [|exact Hl]. intros r. apply is_data_rowb_false.
Qed.

Lemma read_last_row_of_written_witness :
  read_last_row
    (Some (flat_map writerow [sample_row; HEADER; [u "retrieved_at"; u "x"]; []]))
  = Ok (Some sample_row).
Proof.
  assert (H : Forall within_limit [sample_row; HEADER; [u "retrieved_at"; u "x"]; []]).
  { apply all_fit_spec. vm_compute. reflexivity. }
  destruct (read_last_row_of_written H) as (last & E & _).
  rewrite E. f_equal.
  assert (E' : read_last_row
            (Some (flat_map writerow [sample_row; HEADER; [u "retrieved_at"; u "x"]; []]))
               = Ok (Some sample_row)) by (vm_compute; reflexivity).
  congruence.
Defined.

(** ** More about appending *)

(** X10: the four outcomes of [append_row_if_changed].  On a file with a
    field over the limit it raises the error of the reader and writes
    nothing.  When the last data row is the row it returns false and writes
    nothing.  Otherwise it writes the header line, if the file is new or
    empty, and then the line of the row, and returns true; unless a field
    of the row holds a surrogate code point: then the write of the row
    raises and only the header line, if it was due, is added.  In every
    case the text the file had is still there, at the start. *)
Theorem append_outcomes (path : store) (row : list str) :
  (~ readable path /\
   append_row_if_changed path row = (Raise field_limit_error, path)) \/
  (read_last_row path = Ok (Some row) /\
   append_row_if_changed path row = (Ok false, path)) \/
  (readable path /\ read_last_row path <> Ok (Some row) /\
   row_encodable row = true /\
   append_row_if_changed path row
   = (Ok true, Some (with_header path ++ writerow row))) \/
  (readable path /\ read_last_row path <> Ok (Some row) /\
   row_encodable row = false /\
   exists msg,
     append_row_if_changed path row
     = (Raise (ValueError msg), Some (with_header path))).
Proof.
  destruct (readable_dec path) as [Hr|Hn].
  2:{ left. split; [assumption|now apply append_unreadable]. }
  right. destruct (read_last_row_readable _ Hr) as [last Hl].
  destruct (option_eq_dec last row) as [-> | Hne].
  { left. split; [assumption|now apply append_unchanged]. }
  right. assert (Hd : read_last_row path <> Ok (Some row)) by congruence.
  destruct (row_encodable row) eqn:He.
  - left. split; [assumption|]. split; [assumption|]. split; [reflexivity|].
    now apply (append_changed _ Hl).
  - right. split; [assumption|]. split; [assumption|]. split; [reflexivity|].
    now apply (append_unencodable _ Hl).
Qed.



(** ** Ledgers the program wrote itself *)

(** The text of a ledger with the given data rows. *)
Definition ledger (rows : list (list str)) : str :=
  writerow HEADER ++ flat_map writerow rows.

Definition last_row (rows : list (list str)) : option (list str) :=
  hd_error (rev rows).

Lemma header_within_limit : within_limit HEADER.
Proof. apply forallb_fits. vm_compute. reflexivity. Qed.

Lemma find_data_rows (rows : list (list str)) :
  Forall is_data_row rows -> find is_data_rowb rows = hd_error rows.
Proof.
  intros H. destruct H as [|r rest Hr _]; [reflexivity|]. simpl.
  now rewrite (proj2 (is_data_rowb_spec r) Hr).
Qed.

Lemma ledger_reader (rows : list (list str)) :
  Forall within_limit rows -> csv_reader (ledger rows) = Ok (HEADER :: rows).
Proof.
  intros H. change (ledger rows) with (flat_map writerow (HEADER :: rows)).
  apply written_readable. constructor; [apply header_within_limit|assumption].
Qed.

Lemma ledger_readable (rows : list (list str)) :
  Forall within_limit rows -> readable (Some (ledger rows)).
Proof. intros H. exists (HEADER :: rows). now apply ledger_reader. Qed.

Lemma ledger_unreadable (rows : list (list str)) :
  ~ Forall within_limit rows -> ~ readable (Some (ledger rows)).
Proof.
  intros H [rows' E]. change (ledger rows) with (flat_map writerow (HEADER :: rows)) in E.
  rewrite written_unreadable in E; [discriminate E|].
  intros H'. apply H. now apply Forall_inv_tail in H'.
Qed.

Lemma read_last_row_ledger (rows : list (list str)) :
  Forall is_data_row rows -> Forall within_limit rows ->
  read_last_row (Some (ledger rows)) = Ok (last_row rows).
Proof.
  intros H Hl. change (ledger rows) with (flat_map writerow (HEADER :: rows)).
  rewrite read_last_row_written
    by (constructor; [apply header_within_limit|assumption]).
  cbn [rev]. rewrite find_snoc, find_data_rows by now apply Forall_rev.
  unfold last_row. now destruct (hd_error (rev rows)).
Qed.

Lemma ledger_snoc (rows : list (list str)) (row : list str) :
  ledger rows ++ writerow row = ledger (rows ++ [row]).
Proof.
  unfold ledger. rewrite flat_map_app, <- app_assoc. cbn [flat_map].
  now rewrite app_nil_r.
Qed.

Lemma with_header_ledger (rows : list (list str)) :
  with_header (Some (ledger rows)) = ledger rows.
Proof.
  unfold with_header, content_of, ledger.
  destruct (writerow HEADER) eqn:E; [discriminate E|]. reflexivity.
Qed.

Lemma last_row_snoc (rows : list (list str)) (row : list str) :
  last_row (rows ++ [row]) = Some row.
Proof. unfold last_row. now rewrite rev_app_distr. Qed.

Lemma last_row_in (rows : list (list str)) (row : list str) :
  last_row rows = Some row -> In row rows.
Proof.
  unfold last_row. intros H. apply in_rev.
  destruct (rev rows); [discriminate|]. injection H as ->. now left.
Qed.

(** The rows after a call on a ledger. *)
Definition rows_after (rows : list (list str)) (row : list str) : list (list str) :=
  if same_as_last (last_row rows) row then rows else rows ++ [row].

Lemma append_ledger (rows : list (list str)) (row : list str) :
  Forall is_data_row rows -> Forall within_limit rows ->
  row_encodable row = true ->
  append_row_if_changed (Some (ledger rows)) row
  = (Ok (negb (same_as_last (last_row rows) row)), Some (ledger (rows_after rows row))).
Proof.
  intros H Hl He. unfold rows_after.
  pose proof (read_last_row_ledger H Hl) as Hread.
  destruct (same_as_last (last_row rows) row) eqn:E.
  - apply same_as_last_true in E. rewrite E in Hread.
    now rewrite (append_unchanged _ Hread).
  - apply same_as_last_false in E.
    rewrite (append_changed _ Hread E He), with_header_ledger, ledger_snoc.
    reflexivity.
Qed.

Lemma append_absent (row : list str) :
  row_encodable row = true ->
  append_row_if_changed None row = (Ok true, Some (ledger [row])).
Proof.
  intros He. assert (Hnone : read_last_row None = Ok None) by reflexivity.
  rewrite (@append_changed None row None Hnone) by (discriminate || assumption).
  unfold ledger. cbn [flat_map]. now rewrite app_nil_r.
Qed.

Lemma same_as_last_refl (row : list str) : same_as_last (Some row) row = true.
Proof. now apply same_as_last_true. Qed.

Lemma rows_after_last (rows : list (list str)) (row : list str) :
  last_row (rows_after rows row) = Some row.
Proof.
  unfold rows_after. destruct (same_as_last (last_row rows) row) eqn:E.
  - now apply same_as_last_true in E.
  - apply last_row_snoc.
Qed.

Lemma rows_after_Forall (P : list str -> Prop) (rows : list (list str)) (row : list str) :
  Forall P rows -> P row -> Forall P (rows_after rows row).
Proof.
  intros H Hrow. unfold rows_after.
  destruct (same_as_last (last_row rows) row); [assumption|].
  apply Forall_app. split; [assumption|now constructor].
Qed.

Lemma rows_after_idem (rows : list (list str)) (row : list str) :
  rows_after (rows_after rows row) row = rows_after rows row.
Proof.
  set (r := rows_after rows row). unfold rows_after. subst r.
  now rewrite rows_after_last, same_as_last_refl.
Qed.

(** X12: appending a data row to a ledger the program wrote, all fields
    within the limit and free of surrogates, keeps it such a ledger:
    nothing happens when the row equals the last row, and otherwise the
    row becomes the last row; in both cases the row is the last row
    afterwards, the earlier rows are untouched, and a second append of it
    changes nothing. *)
Theorem ledger_invariant (rows : list (list str)) (row : list str) :
  Forall is_data_row rows -> Forall within_limit rows ->
  is_data_row row -> within_limit row -> row_encodable row = true ->
  append_row_if_changed (Some (ledger rows)) row
  = (Ok (negb (same_as_last (last_row rows) row)), Some (ledger (rows_after rows row))) /\
  rows_after rows row
  = (if same_as_last (last_row rows) row then rows else rows ++ [row]) /\
  Forall is_data_row (rows_after rows row) /\
  Forall within_limit (rows_after rows row) /\
  read_last_row (Some (ledger (rows_after rows row))) = Ok (Some row) /\
  append_row_if_changed (Some (ledger (rows_after rows row))) row
  = (Ok false, Some (ledger (rows_after rows row))).
Proof.
  intros Hrows Hlim Hrow Hfit He.
  assert (Hd := @rows_after_Forall _ _ _ Hrows Hrow).
  assert (Hl := @rows_after_Forall _ _ _ Hlim Hfit).
  split; [now apply append_ledger|]. split; [reflexivity|].
  split; [assumption|]. split; [assumption|].
  assert (Hread : read_last_row (Some (ledger (rows_after rows row))) = Ok (Some row)).
  { rewrite (read_last_row_ledger Hd Hl). now rewrite rows_after_last. }
  split; [exact Hread|now apply append_unchanged].
Qed.

Lemma ledger_invariant_witness :
  append_row_if_changed (Some (ledger [sample_row])) sample_row_next_day
  = (Ok true, Some (ledger [sample_row; sample_row_next_day])).
Proof.
  assert (Hrows : Forall is_data_row [sample_row])
    by (constructor; [vm_compute; discriminate|constructor]).
  assert (Hlim : Forall within_limit [sample_row])
    by (apply all_fit_spec; vm_compute; reflexivity).
  assert (Hrow : is_data_row sample_row_next_day) by (vm_compute; discriminate).
  assert (Hfit : within_limit sample_row_next_day)
    by (apply forallb_fits; vm_compute; reflexivity).
  assert (He : row_encodable sample_row_next_day = true) by (vm_compute; reflexivity).
  destruct (ledger_invariant Hrows Hlim Hrow Hfit He) as (H & _).
  assert (E : same_as_last (last_row [sample_row]) sample_row_next_day = false)
    by (vm_compute; reflexivity).
  unfold rows_after in H. rewrite E in H. exact H.
Defined.

(** Successive calls, each on the store the one before left, as long as
    none raises. *)
Fixpoint append_all (path : store) (rows : list (list str)) : result store :=
  match rows with
  | [] => Ok path
  | row :: rest =>
    match append_row_if_changed path row with
    | (Ok _, path') => append_all path' rest
    | (Raise e, _) => Raise e
    end
  end.

(** The rows that differ from the row before them, [prev] being the row
    before the first. *)
Fixpoint changes (prev : option (list str)) (rows : list (list str))
  : list (list str) :=
  match rows with
  | [] => []
  | row :: rest =>
    if same_as_last prev row then changes prev rest
    else row :: changes (Some row) rest
  end.

Lemma append_all_ledger (rows : list (list str)) :
  forall old,
    Forall is_data_row old -> Forall within_limit old ->
    Forall is_data_row rows -> Forall within_limit rows ->
    forallb row_encodable rows = true ->
    append_all (Some (ledger old)) rows
    = Ok (Some (ledger (old ++ changes (last_row old) rows))).
Proof.
  induction rows as [|row rows IH]; intros old Hold Hlold Hrows Hlrows He.
  - cbn [append_all changes]. now rewrite app_nil_r.
  - apply Forall_cons_iff in Hrows as [Hrow Hrows].
    apply Forall_cons_iff in Hlrows as [Hfit Hlrows].
    cbn [forallb] in He. apply andb_true_iff in He as [He1 He].
    cbn [append_all changes]. rewrite (@append_ledger old row Hold Hlold He1).
    unfold rows_after.
    destruct (same_as_last (last_row old) row); cbn [negb].
    + now apply IH.
    + rewrite IH; try assumption.
      * rewrite last_row_snoc, <- app_assoc. reflexivity.
      * apply Forall_app. split; [assumption|now constructor].
      * apply Forall_app. split; [assumption|now constructor].
Qed.

(** X13: started on an absent store, a series of calls with data rows
    within the limit and free of surrogates leaves the header followed by
    the rows that differ from the row given just before them, in order:
    the ledger records the changes and nothing else. *)
Theorem appends_record_changes (rows : list (list str)) :
  Forall is_data_row rows -> Forall within_limit rows ->
  forallb row_encodable rows = true ->
  append_all None rows
  = Ok (match rows with
        | [] => None
        | _ => Some (ledger (changes None rows))
        end).
Proof.
  intros H Hl He. destruct rows as [|row rows]; [reflexivity|].
  apply Forall_cons_iff in H as [Hrow Hrows].
  apply Forall_cons_iff in Hl as [Hfit Hlrows].
  cbn [forallb] in He. apply andb_true_iff in He as [He1 He].
  cbn [append_all changes same_as_last].
  rewrite (@append_absent row He1).
  rewrite append_all_ledger; try assumption; now constructor.
Qed.

Lemma appends_record_changes_witness :
  append_all None [sample_row; sample_row; sample_row_next_day; sample_row_next_day;
                   sample_row]
  = Ok (Some (ledger [sample_row; sample_row_next_day; sample_row])).
Proof.
  assert (H : Forall is_data_row
                [sample_row; sample_row; sample_row_next_day; sample_row_next_day;
                 sample_row]).
  { repeat constructor; vm_compute; discriminate. }
  assert (Hl : Forall within_limit
                [sample_row; sample_row; sample_row_next_day; sample_row_next_day;
                 sample_row]).
  { apply all_fit_spec. vm_compute. reflexivity. }
  rewrite (appends_record_changes H Hl) by (vm_compute; reflexivity).
  vm_compute. reflexivity.
Defined.

(** ** A field over the limit *)

Lemma big_row_differs (rows : list (list str)) (row : list str) :
  Forall within_limit rows -> ~ within_limit row ->
  same_as_last (last_row rows) row = false.
Proof.
  intros Hl Hbig. apply same_as_last_false. intros E. apply Hbig.
  apply last_row_in in E. rewrite Forall_forall in Hl. now apply Hl.
Qed.

(** X14: the program can write a row that it cannot read back.  A row with
    a field of more than 131072 characters is appended to a ledger like any
    other row, but the file is then beyond the field size limit of the
    reader: every later call, with any row, raises the field-limit error
    and writes nothing. *)
Theorem oversized_field_poisons_ledger (csv : store) (rows : list (list str))
        (row : list str) :
  csv = None /\ rows = [] \/ csv = Some (ledger rows) ->
  Forall is_data_row rows -> Forall within_limit rows ->
  ~ within_limit row -> row_encodable row = true ->
  append_row_if_changed csv row = (Ok true, Some (ledger (rows ++ [row]))) /\
  forall row',
    append_row_if_changed (Some (ledger (rows ++ [row]))) row'
    = (Raise field_limit_error, Some (ledger (rows ++ [row]))).
Proof.
  intros Hcsv Hrows Hlim Hbig He. split.
  - destruct Hcsv as [[-> ->]| ->]; [now apply append_absent|].
    rewrite (@append_ledger rows row Hrows Hlim He). unfold rows_after.
    now rewrite (big_row_differs Hlim Hbig).
  - intros row'. apply append_unreadable, ledger_unreadable.
    intros H. apply Forall_app in H as [_ H]. now apply Forall_inv in H.
Qed.

Lemma oversized_field_poisons_ledger_witness :
  append_row_if_changed (Some (ledger [sample_row])) oversized_row
  = (Ok true, Some (ledger ([sample_row] ++ [oversized_row]))) /\
  append_row_if_changed (Some (ledger ([sample_row] ++ [oversized_row]))) sample_row
  = (Raise field_limit_error, Some (ledger ([sample_row] ++ [oversized_row]))).
Proof.
  destruct oversized_row_facts as (He & _ & Hbig).
  assert (Hrows : Forall is_data_row [sample_row])
    by (constructor; [vm_compute; discriminate|constructor]).
  assert (Hlim : Forall within_limit [sample_row])
    by (apply all_fit_spec; vm_compute; reflexivity).
  destruct (@oversized_field_poisons_ledger (Some (ledger [sample_row])) [sample_row]
              oversized_row (or_intror eq_refl) Hrows Hlim Hbig He) as [H1 H2].
  split; [exact H1|apply H2].
Defined.

(** ** Runs of the program on its own ledger *)

Lemma isoformat_length (d : date) : valid_date d -> length (isoformat d) = 10%nat.
Proof.
  intros Hv. destruct (valid_date_bounds Hv) as (By & Bm & Bd).
  destruct (isoformat_shape_aux d By Bm Bd) as (y & mo & dd & E & (Ly & Lm & Ld) & _).
  rewrite E. unfold str, char in *. rewrite !length_app. cbn [length]. lia.
Qed.

(** The row of a run. *)
Definition row_of (today : date) (sentence : str) (sd td : date) : list str :=
  [isoformat today; isoformat sd; sentence; isoformat td].

Lemma row_of_within_limit (today : date) (sentence : str) (sd td : date) :
  valid_date today -> valid_date sd -> valid_date td ->
  N.of_nat (length sentence) <= field_limit ->
  within_limit (row_of today sentence sd td).
Proof.
  intros H1 H2 H3 H4. unfold within_limit, row_of.
  repeat constructor; rewrite ?isoformat_length by assumption;
    try assumption; unfold field_limit; lia.
Qed.

(** The store the program starts from: none, or a ledger it wrote. *)
Definition ledger_store (csv : store) (rows : list (list str)) : Prop :=
  (csv = None /\ rows = [] \/ csv = Some (ledger rows)) /\
  Forall is_data_row rows /\ Forall within_limit rows.

Lemma append_ledger_store (csv : store) (rows : list (list str)) (row : list str) :
  ledger_store csv rows -> row_encodable row = true ->
  append_row_if_changed csv row
  = (Ok (negb (same_as_last (last_row rows) row)), Some (ledger (rows_after rows row))).
Proof.
  intros ([[-> ->]| ->] & Hd & Hl) He.
  - now apply append_absent.
  - now apply append_ledger.
Qed.

Lemma ledger_store_after (csv : store) (rows : list (list str)) (row : list str) :
  ledger_store csv rows -> is_data_row row -> within_limit row ->
  ledger_store (Some (ledger (rows_after rows row))) (rows_after rows row).
Proof.
  intros (_ & Hd & Hl) Hrow Hfit. split; [now right|].
  split; now apply rows_after_Forall.
Qed.

Section Runs.

Variable fetch_html : str -> result str.
Variable html_parser : str -> list callback.
Variables (url csv_path : str) (today : date).

Lemma main_run (csv : store) (rows : list (list str)) (sentence : str) (sd td : date) :
  ledger_store csv rows ->
  collect_status fetch_html html_parser url = Ok (sentence, sd, td) ->
  encodable sentence = true ->
  main fetch_html html_parser url csv_path today csv
  = {| exit_status := Ok 0;
       stdout := [if same_as_last (last_row rows) (row_of today sentence sd td)
                  then u "No change detected; CSV not modified."
                  else u "Appended new row for Stand " ++ isoformat sd
                         ++ u " to " ++ csv_path];
       stderr := [];
       csv_after := Some (ledger (rows_after rows (row_of today sentence sd td))) |}.
Proof.
  intros Hs Hc He. rewrite (@main_collected _ _ _ csv_path today csv _ _ _ Hc).
  fold (row_of today sentence sd td).
  rewrite (@append_ledger_store csv rows (row_of today sentence sd td) Hs)
    by (unfold row_of; now rewrite row_encodable_sentence).
  now destruct (same_as_last (last_row rows) (row_of today sentence sd td)).
Qed.

(** X15: a run that gets a status, on an absent store or on a ledger the
    program wrote, returns 0 and leaves the ledger with the row of the
    run as its last row: the row is added, with the message "Appended new
    row ...", unless it is the last row already, and then the message is
    "No change detected ...".  The same run again on the same day changes
    nothing and says so.  (The sentence has at most 131072 characters
    and no surrogate code point.) *)
Theorem main_twice (csv : store) (rows : list (list str)) (sentence : str)
        (sd td : date) :
  ledger_store csv rows -> valid_date today ->
  collect_status fetch_html html_parser url = Ok (sentence, sd, td) ->
  N.of_nat (length sentence) <= field_limit -> encodable sentence = true ->
  let row := row_of today sentence sd td in
  let rows' := rows_after rows row in
  main fetch_html html_parser url csv_path today csv
  = {| exit_status := Ok 0;
       stdout := [if same_as_last (last_row rows) row
                  then u "No change detected; CSV not modified."
                  else u "Appended new row for Stand " ++ isoformat sd
                         ++ u " to " ++ csv_path];
       stderr := [];
       csv_after := Some (ledger rows') |} /\
  rows' = (if same_as_last (last_row rows) row then rows else rows ++ [row]) /\
  last_row rows' = Some row /\
  main fetch_html html_parser url csv_path today (Some (ledger rows'))
  = {| exit_status := Ok 0;
       stdout := [u "No change detected; CSV not modified."];
       stderr := [];
       csv_after := Some (ledger rows') |}.
Proof.
  intros Hs Hv Hc Hlen He row rows'. subst rows'.
  destruct (collect_status_ok _ _ _ Hc) as (html & _ & _ & Hsd & Htd).
  assert (Hrow : is_data_row row) by apply ledger_row_is_data_row.
  assert (Hfit : within_limit row).
  { apply row_of_within_limit; try assumption.
    - eapply parse_stand_date_valid; eassumption.
    - eapply parse_target_date_valid; eassumption. }
  split; [now apply main_run|]. split; [reflexivity|].
  split; [apply rows_after_last|].
  rewrite (main_run (ledger_store_after Hs Hrow Hfit) Hc He).
  fold row. now rewrite rows_after_idem, rows_after_last, same_as_last_refl.
Qed.

End Runs.

Lemma main_twice_witness :
  main (fun _ => Ok []) (fun _ => SAMPLE_HTML) [] (u "results.csv") sample_day None
  = {| exit_status := Ok 0;
       stdout := [u "Appended new row for Stand 2025-08-28 to results.csv"];
       stderr := [];
       csv_after := Some (ledger [sample_row]) |} /\
  main (fun _ => Ok []) (fun _ => SAMPLE_HTML) [] (u "results.csv") sample_day
       (Some (ledger [sample_row]))
  = {| exit_status := Ok 0;
       stdout := [u "No change detected; CSV not modified."];
       stderr := [];
       csv_after := Some (ledger [sample_row]) |}.
Proof.
  assert (Hs : ledger_store None []).
  { split; [left; auto|split; constructor]. }
  assert (Hv : valid_date sample_day) by (unfold valid_date; cbn; lia).
  assert (Hc : collect_status (fun _ => Ok []) (fun _ => SAMPLE_HTML) []
               = Ok (sample_sentence, {| year := 2025; month := 8; day := 28 |},
                     {| year := 2023; month := 4; day := 30 |}))
    by (vm_compute; reflexivity).
  assert (Hlen : N.of_nat (length sample_sentence) <= field_limit)
    by (apply N.leb_le; vm_compute; reflexivity).
  assert (He : encodable sample_sentence = true) by (vm_compute; reflexivity).
  destruct (@main_twice (fun _ => Ok []) (fun _ => SAMPLE_HTML) [] (u "results.csv")
              sample_day None [] sample_sentence _ _ Hs Hv Hc Hlen He)
    as (H1 & _ & _ & H2).
  assert (E : rows_after [] (row_of sample_day sample_sentence
                               {| year := 2025; month := 8; day := 28 |}
                               {| year := 2023; month := 4; day := 30 |})
              = [sample_row]) by (vm_compute; reflexivity).
  rewrite E in H1, H2. split; [|exact H2].
  rewrite H1. reflexivity.
Defined.

(** ** One record on each line *)

















